(** * Taurus: binding a configuration record from the environment and from flags

    A shallow embedding of [taurus.go].  The file holds two revisions of the
    package: the one built around the [Taurus] struct (an explicit instance
    plus package-level functions forwarding to the default instance [t]), and
    the earlier one whose registry lives in package-level variables.  Both
    are embedded, the first in the top-level definitions, the second in
    module [Globals].

    Layout: strings and the [strconv] parsers the converter calls; the
    reflection view of a record ([Kind], [StructField], [Value]); the
    registry ([Taurus]) with the functions that fill it and the process
    state ([World]); the binders ([LoadEnv], [loadFlags], [setField]) and
    the document loaders ([Load], [LoadFile]); then the theorems. *)

From Stdlib Require Import ZArith Ascii String List Bool Lia.
From Stdlib Require Import SpecFloat.
From stdpp Require Import gmap strings list.

Local Open Scope Z_scope.

(** ** Strings

    A Go [string] is a sequence of bytes; so is a Rocq [string]. *)

Module strings.

Definition is_lower (c : ascii) : bool :=
  (97 <=? Z.of_N (N_of_ascii c)) && (Z.of_N (N_of_ascii c) <=? 122).

Definition is_upper (c : ascii) : bool :=
  (65 <=? Z.of_N (N_of_ascii c)) && (Z.of_N (N_of_ascii c) <=? 90).

(** [lower] of strconv: [c | ('x' - 'X')]. *)
Definition lower (c : ascii) : ascii :=
  ascii_of_N (N.lor (N_of_ascii c) 32).

Definition upper (c : ascii) : ascii :=
  if is_lower c then ascii_of_N (N_of_ascii c - 32) else c.

(** Whether every byte of [s] is below [utf8.RuneSelf]: the test
    [strings.ToUpper] starts with. *)
Fixpoint isASCII (s : string) : bool :=
  match s with
  | EmptyString => true
  | String c s' => (Z.of_N (N_of_ascii c) <? 128) && isASCII s'
  end.

(** [strings.ToUpper] as it is on a string of ASCII bytes, the first
    branch of the function: the letters [a] to [z] are raised, the other
    bytes kept.  On a string with a byte of [utf8.RuneSelf] or above Go maps
    the runes through the tables of the [unicode] package, which this
    definition does not do: every statement that names a key built from a
    field takes the tags of the record to be ASCII ([ascii_tags]). *)
Fixpoint ToUpper (s : string) : string :=
  match s with
  | EmptyString => EmptyString
  | String c s' => String (upper c) (ToUpper s')
  end.

(** [strings.CutPrefix]: the rest of [s] after [prefix], when [s] starts
    with it. *)
Fixpoint CutPrefix (s prefix : string) : option string :=
  match prefix, s with
  | EmptyString, _ => Some s
  | String p prefix', String c s' =>
      if Ascii.eqb p c then CutPrefix s' prefix' else None
  | String _ _, EmptyString => None
  end.

(** [strings.TrimPrefix]. *)
Definition TrimPrefix (s prefix : string) : string :=
  match CutPrefix s prefix with
  | Some rest => rest
  | None => s
  end.

End strings.

(** ** reflect.Kind *)

Inductive Kind : Set :=
| Invalid | Bool
| Int | Int8 | Int16 | Int32 | Int64
| Uint | Uint8 | Uint16 | Uint32 | Uint64 | Uintptr
| Float32 | Float64 | Complex64 | Complex128
| Array | Chan | Func | Interface | Map | Pointer | Slice
| String_ | Struct | UnsafePointer.

(** [Kind.String]. *)
Definition Kind_String (k : Kind) : string :=
  match k with
  | Invalid => "invalid" | Bool => "bool"
  | Int => "int" | Int8 => "int8" | Int16 => "int16" | Int32 => "int32"
  | Int64 => "int64"
  | Uint => "uint" | Uint8 => "uint8" | Uint16 => "uint16"
  | Uint32 => "uint32" | Uint64 => "uint64" | Uintptr => "uintptr"
  | Float32 => "float32" | Float64 => "float64"
  | Complex64 => "complex64" | Complex128 => "complex128"
  | Array => "array" | Chan => "chan" | Func => "func"
  | Interface => "interface" | Map => "map" | Pointer => "ptr"
  | Slice => "slice" | String_ => "string" | Struct => "struct"
  | UnsafePointer => "unsafe.Pointer"
  end.

#[global] Instance Kind_eq_dec : EqDecision Kind.
Proof. solve_decision. Defined.

(** ** Errors

    An [error] value keeps the format string of the [fmt.Errorf] call that
    built it together with its arguments, so that a theorem can say which
    key and which cause an error carries. *)

Inductive error : Type :=
| errors_New (text : string)
| NumError (Func Num : string) (Err : error)
| Errorf (format : string) (args : list fmt_arg)
with fmt_arg : Type :=
| ArgString (s : string)
| ArgError (e : error)
| ArgKind (k : Kind).

(** ** strconv *)

Module strconv.

Definition ErrSyntax : error := errors_New "invalid syntax".
Definition ErrRange : error := errors_New "value out of range".

Definition syntaxError (fn str : string) : error := NumError fn str ErrSyntax.
Definition rangeError (fn str : string) : error := NumError fn str ErrRange.

(** [IntSize]: the width of [int] and [uint] (64-bit targets). *)
Definition IntSize : Z := 64.

Definition byte_of (c : ascii) : Z := Z.of_N (N_of_ascii c).

Definition is_digit (c : ascii) : bool :=
  (48 <=? byte_of c) && (byte_of c <=? 57).

Definition maxUint64 : Z := 2 ^ 64 - 1.

(** The digit loop of [ParseUint] for base 10: [n] is the value read so far,
    [maxVal] the largest value of the requested width.  [inl] is the value;
    [inr isRange] is a failure, on [ErrRange] when [isRange] and on
    [ErrSyntax] otherwise. *)
Fixpoint ParseUint_loop (maxVal : Z) (s : string) (n : Z) : Z + bool :=
  match s with
  | EmptyString => inl n
  | String c s' =>
      if negb (is_digit c) then inr false
      else
        let d := byte_of c - 48 in
        if maxUint64 / 10 + 1 <=? n then inr true
        else
          let n := n * 10 in
          let n1 := (n + d) mod 2 ^ 64 in
          if (n1 <? n) || (maxVal <? n1) then inr true
          else ParseUint_loop maxVal s' n1
  end.

(** The value [ParseUint] returns and, on failure, whether the sentinel is
    [ErrRange]. *)
Definition parseUint (s : string) (bitSize : Z) : Z * option bool :=
  match s with
  | EmptyString => (0, Some false)
  | _ =>
      let maxVal := 2 ^ bitSize - 1 in
      match ParseUint_loop maxVal s 0 with
      | inl n => (n, None)
      | inr true => (maxVal, Some true)
      | inr false => (0, Some false)
      end
  end.

Definition numError (fn str : string) (isRange : bool) : error :=
  if isRange then rangeError fn str else syntaxError fn str.

(** [strconv.ParseUint(s, 10, bitSize)], for [1 <= bitSize <= 64]. *)
Definition ParseUint (s : string) (bitSize : Z) : Z * option error :=
  let '(n, err) := parseUint s bitSize in
  (n, numError "ParseUint" s <$> err).

(** [strconv.ParseInt(s, 10, bitSize)], for [1 <= bitSize <= 64]. *)
Definition ParseInt (s0 : string) (bitSize : Z) : Z * option error :=
  match s0 with
  | EmptyString => (0, Some (syntaxError "ParseInt" s0))
  | String c rest =>
      let neg := Ascii.eqb c "-" in
      let s := if Ascii.eqb c "+" || neg then rest else s0 in
      let '(un, err) := parseUint s bitSize in
      match err with
      | Some false => (0, Some (syntaxError "ParseInt" s0))
      | _ =>
          let cutoff := 2 ^ (bitSize - 1) in
          if negb neg && (cutoff <=? un) then
            (cutoff - 1, Some (rangeError "ParseInt" s0))
          else if neg && (cutoff <? un) then
            (- cutoff, Some (rangeError "ParseInt" s0))
          else (if neg then - un else un, None)
      end
  end.

(** [strconv.ParseBool]. *)
Definition ParseBool (str : string) : bool * option error :=
  if bool_decide (str ∈ ["1"; "t"; "T"; "TRUE"; "true"; "True"]) then
    (true, None)
  else if bool_decide (str ∈ ["0"; "f"; "F"; "FALSE"; "false"; "False"]) then
    (false, None)
  else (false, Some (syntaxError "ParseBool" str)).

(** *** ParseFloat

    [strconv.ParseFloat(s, bitSize)] accepts an optionally signed decimal or
    hexadecimal floating-point literal, [inf], [infinity] and [nan] in any
    letter case, and returns the nearest floating-point number, rounding
    half to even; a finite literal that rounds to an infinity is an
    [ErrRange].  Floating-point values are [spec_float]s. *)

(** The mantissa digits read so far: their value, how many stand after the
    point, and what [readFloat] has seen. *)
Record mantissa : Set := Mantissa {
  mant : Z;
  nfrac : Z;
  sawdot : bool;
  sawdigits : bool;
  underscores : bool
}.

Definition push_digit (base d : Z) (m : mantissa) : mantissa :=
  {| mant := mant m * base + d;
     nfrac := if sawdot m then nfrac m + 1 else nfrac m;
     sawdot := sawdot m; sawdigits := true; underscores := underscores m |}.

Definition is_hex_letter (c : ascii) : bool :=
  (97 <=? byte_of (strings.lower c)) && (byte_of (strings.lower c) <=? 102).

(** The digits loop of [readFloat]: returns the mantissa and the text left. *)
Fixpoint readMantissa (hex : bool) (s : string) (m : mantissa)
  : mantissa * string :=
  match s with
  | EmptyString => (m, s)
  | String c s' =>
      if Ascii.eqb c "_" then
        readMantissa hex s'
          {| mant := mant m; nfrac := nfrac m; sawdot := sawdot m;
             sawdigits := sawdigits m; underscores := true |}
      else if Ascii.eqb c "." then
        if sawdot m then (m, s)
        else readMantissa hex s'
          {| mant := mant m; nfrac := nfrac m; sawdot := true;
             sawdigits := sawdigits m; underscores := underscores m |}
      else if is_digit c then
        readMantissa hex s' (push_digit (if hex then 16 else 10) (byte_of c - 48) m)
      else if hex && is_hex_letter c then
        readMantissa hex s' (push_digit 16 (byte_of (strings.lower c) - 97 + 10) m)
      else (m, s)
  end.

(** The exponent digits of [readFloat]: the exponent (no longer accumulated
    once it reaches 10000), whether an underscore was seen, the text left. *)
Fixpoint readExponent (s : string) (e : Z) (us : bool) : Z * bool * string :=
  match s with
  | EmptyString => (e, us, s)
  | String c s' =>
      if is_digit c then
        readExponent s' (if e <? 10000 then e * 10 + (byte_of c - 48) else e) us
      else if Ascii.eqb c "_" then readExponent s' e true
      else (e, us, s)
  end.

(** [underscoreOK]: the last character seen is [saw]: 0 the beginning, 1 a
    digit or a base prefix, 2 an underscore, 3 anything else. *)
Fixpoint underscoreOK_loop (hex : bool) (s : string) (saw : nat) : bool :=
  match s with
  | EmptyString => negb (Nat.eqb saw 2)
  | String c s' =>
      if is_digit c || (hex && is_hex_letter c) then underscoreOK_loop hex s' 1%nat
      else if Ascii.eqb c "_" then
        if Nat.eqb saw 1 then underscoreOK_loop hex s' 2%nat else false
      else if Nat.eqb saw 2 then false
      else underscoreOK_loop hex s' 3%nat
  end.

Definition strip_sign (s : string) : bool * string :=
  match s with
  | String "+" s' => (false, s')
  | String "-" s' => (true, s')
  | _ => (false, s)
  end.

Definition underscoreOK (s : string) : bool :=
  let s := snd (strip_sign s) in
  match s with
  | String "0" (String c s') =>
      if bool_decide (strings.lower c ∈ ["b"; "o"; "x"]%char) then
        underscoreOK_loop (Ascii.eqb (strings.lower c) "x") s' 1%nat
      else underscoreOK_loop false s 0%nat
  | _ => underscoreOK_loop false s 0%nat
  end.

(** What [readFloat] returns when it succeeds on the whole of [s]: the sign,
    whether the literal is hexadecimal, the mantissa digits as an integer,
    and the exponent of the base (10, or 2 for a hexadecimal literal) by
    which that integer is scaled. *)
Definition readFloat (s : string) : option (bool * bool * Z * Z) :=
  let '(neg, s1) := strip_sign s in
  let '(hex, s2) :=
    match s1 with
    | String "0" (String c (String d s')) =>
        if Ascii.eqb (strings.lower c) "x" then (true, String d s') else (false, s1)
    | _ => (false, s1)
    end in
  let '(m, s3) := readMantissa hex s2 (Mantissa 0 0 false false false) in
  if negb (sawdigits m) then None
  else
    let scale := if hex then 4 * nfrac m else nfrac m in
    let finish (e : Z) (us : bool) (rest : string) :=
      match rest with
      | EmptyString =>
          if (underscores m || us) && negb (underscoreOK s) then None
          else Some (neg, hex, mant m, e - scale)
      | _ => None
      end in
    match s3 with
    | String c s4 =>
        if Ascii.eqb (strings.lower c) (if hex then "p" else "e") then
          let '(eneg, s5) := strip_sign s4 in
          match s5 with
          | String d _ =>
              if is_digit d then
                let '(e, us, rest) := readExponent s5 0 false in
                finish (if eneg then - e else e) us rest
              else None
          | EmptyString => None
          end
        else None
    | EmptyString => if hex then None else finish 0 false EmptyString
    end.

(** Case-insensitive comparison with a lower-case word, as
    [commonPrefixLenIgnoreCase] folds letters. *)
Fixpoint eq_fold (s word : string) : bool :=
  match s, word with
  | EmptyString, EmptyString => true
  | String c s', String w word' =>
      Ascii.eqb (if strings.is_upper c then strings.lower c else c) w
      && eq_fold s' word'
  | _, _ => false
  end.

(** [special], for a text that is an infinity or a NaN as a whole. *)
Definition special (s : string) : option spec_float :=
  match s with
  | String c rest =>
      if bool_decide (c ∈ ["+"; "-"]%char) then
        if eq_fold rest "inf" || eq_fold rest "infinity" then
          Some (S754_infinity (Ascii.eqb c "-"))
        else None
      else if eq_fold s "inf" || eq_fold s "infinity" then
        Some (S754_infinity false)
      else if eq_fold s "nan" then Some S754_nan
      else None
  | EmptyString => None
  end.

(** The floating-point number of precision [prec] nearest to
    [mant * base ^ exp], with [mant > 0]. *)
Definition nearest (prec emax : Z) (neg hex : bool) (m exp : Z) : spec_float :=
  match m with
  | Zpos p =>
      if hex then binary_round prec emax neg p exp
      else if 0 <=? exp then
        binary_round prec emax neg (Z.to_pos (m * 10 ^ exp)) 0
      else
        let '(q, e, l) :=
          SFdiv_core_binary prec emax m 0 (10 ^ (- exp)) 0 in
        binary_round_aux prec emax neg q e l
  | _ => S754_zero neg
  end.

(** [strconv.ParseFloat(s, bitSize)]: [bitSize] 32 is single precision, any
    other double. *)
Definition ParseFloat (s : string) (bitSize : Z) : spec_float * option error :=
  let '(prec, emax) := if bitSize =? 32 then (24, 128) else (53, 1024) in
  match special s with
  | Some f => (f, None)
  | None =>
      match readFloat s with
      | None => (S754_zero false, Some (syntaxError "ParseFloat" s))
      | Some (neg, hex, m, exp) =>
          match nearest prec emax neg hex m exp with
          | S754_infinity sg =>
              (S754_infinity sg, Some (rangeError "ParseFloat" s))
          | f => (f, None)
          end
      end
  end.

(** The conversion [float32(x)] of a [float64]. *)
Definition float32_of (x : spec_float) : spec_float :=
  match x with
  | S754_finite sg m e => binary_round 24 128 sg m e
  | _ => x
  end.

End strconv.

(** ** The reflection view of a record

    The binders see the record through [reflect]: each struct field has a
    descriptor ([reflect.StructField]) and a slot ([reflect.Value]).  A
    [Value] carries the name of its type ([Type.String()], by which
    [reflect.Type]s are told apart) and its data.  The static type of a field
    is the type of the value in its slot; a field of an interface, pointer,
    slice, map, function, ... type is a [VOther], whose data the binders never
    look at. *)

Record StructField : Set := {
  Name : string;
  (** empty for an exported field *)
  PkgPath : string;
  (** [Tag.Get("yaml")] *)
  yaml : string
}.

Definition IsExported (f : StructField) : bool :=
  bool_decide (PkgPath f = "").

(** Bit sizes of the integer kinds; [WInt] is that of [int] and [uint]. *)
Inductive Width : Set := WInt | W8 | W16 | W32 | W64.
Inductive FloatWidth : Set := F32 | F64.
Inductive OtherKind : Set :=
| OUintptr | OComplex64 | OComplex128 | OArray | OChan | OFunc
| OInterface | OMap | OPointer | OSlice | OUnsafePointer.

#[warnings="-register-all"]
Inductive Value : Type :=
| VBool (ty : string) (b : bool)
| VInt (ty : string) (w : Width) (n : Z)
| VUint (ty : string) (w : Width) (n : Z)
| VFloat (ty : string) (w : FloatWidth) (f : spec_float)
| VString (ty : string) (s : string)
| VStruct (ty : string) (fields : list (StructField * Value))
| VOther (ty : string) (k : OtherKind) (repr : string).

Definition bits (w : Width) : Z :=
  match w with
  | WInt => strconv.IntSize | W8 => 8 | W16 => 16 | W32 => 32 | W64 => 64
  end.

(** [Value.Kind]. *)
Definition Kind_of (v : Value) : Kind :=
  match v with
  | VBool _ _ => Bool
  | VInt _ w _ =>
      match w with
      | WInt => Int | W8 => Int8 | W16 => Int16 | W32 => Int32 | W64 => Int64
      end
  | VUint _ w _ =>
      match w with
      | WInt => Uint | W8 => Uint8 | W16 => Uint16 | W32 => Uint32
      | W64 => Uint64
      end
  | VFloat _ F32 _ => Float32
  | VFloat _ F64 _ => Float64
  | VString _ _ => String_
  | VStruct _ _ => Struct
  | VOther _ k _ =>
      match k with
      | OUintptr => Uintptr | OComplex64 => Complex64
      | OComplex128 => Complex128 | OArray => Array | OChan => Chan
      | OFunc => Func | OInterface => Interface | OMap => Map
      | OPointer => Pointer | OSlice => Slice
      | OUnsafePointer => UnsafePointer
      end
  end.

(** [Value.Type], as the type's name. *)
Definition Type_of (v : Value) : string :=
  match v with
  | VBool ty _ | VInt ty _ _ | VUint ty _ _ | VFloat ty _ _
  | VString ty _ | VStruct ty _ | VOther ty _ _ => ty
  end.

(** The conversions [intN(x)] of an [int64] and [uintN(x)] of a [uint64]. *)
Definition wrap_int (w : Width) (x : Z) : Z :=
  (x + 2 ^ (bits w - 1)) mod 2 ^ bits w - 2 ^ (bits w - 1).

Definition wrap_uint (w : Width) (x : Z) : Z := x mod 2 ^ bits w.

(** What a caller can hand over as [cfg interface{}]. *)
Inductive interface : Type :=
| nil_interface
| PtrTo (v : Value)
| NilPtr (ty : string)
| NonPtr (v : Value).

(** ** The registry and the process state *)

(** A [*pflag.Flag], by the two things the binder reads: [Changed] and
    [Value.String()]. *)
Record Flag : Set := { Changed : bool; Value_String : string }.

(** A conversion from text: it is handed the address of a slot and the raw
    bytes, may store into the slot, and returns an error or nil.  Both a
    registered custom unmarshaler and a type's [UnmarshalText] have this
    shape. *)
Definition Unmarshaler : Type := Value -> string -> Value * option error.
Definition Marshaler : Type := Value -> string * option error.

Record Taurus : Type := {
  envPrefix : string;
  expandEnv : bool;
  envAliases : gmap string (list string);
  (** [None] is a nil [*pflag.Flag] *)
  flags : gmap string (option Flag);
  customMarshalers : gmap string Marshaler;
  customUnmarshalers : gmap string Unmarshaler
}.

Definition New : Taurus :=
  {| envPrefix := ""; expandEnv := false; envAliases := ∅; flags := ∅;
     customMarshalers := ∅; customUnmarshalers := ∅ |}.

(** The state a call runs in: the default instance the package variable [t]
    points to, one more instance made by [New], the process environment, and
    the method sets of the program's types (which types have an
    [UnmarshalText] on their pointer).  In the earlier revision [default_t]
    holds the package-level variables. *)
Record World : Type := {
  default_t : Taurus;
  instance : Taurus;
  environ : gmap string string;
  UnmarshalText : gmap string Unmarshaler
}.

(** A [*Taurus]. *)
Inductive Ref : Set := t | own.

Definition M (A : Type) : Type := World -> A * World.

#[global] Instance M_ret : MRet M := fun A x w => (x, w).
#[global] Instance M_bind : MBind M :=
  fun A B f m w => let '(x, w') := m w in f x w'.

Definition deref (r : Ref) : M Taurus :=
  fun w => (match r with t => default_t w | own => instance w end, w).

Definition store (r : Ref) (x : Taurus) : M unit :=
  fun w =>
    (tt,
     match r with
     | t => {| default_t := x; instance := instance w;
               environ := environ w; UnmarshalText := UnmarshalText w |}
     | own => {| default_t := default_t w; instance := x;
                 environ := environ w; UnmarshalText := UnmarshalText w |}
     end).

Definition os_LookupEnv (key : string) : M (option string) :=
  fun w => (environ w !! key, w).

Definition method_UnmarshalText (ty : string) : M (option Unmarshaler) :=
  fun w => (UnmarshalText w !! ty, w).

(** *** Registry operations *)

Definition Taurus_SetEnvPrefix (r : Ref) (prefix : string) : M unit :=
  x ← deref r;
  store r {| envPrefix := prefix; expandEnv := expandEnv x;
             envAliases := envAliases x; flags := flags x;
             customMarshalers := customMarshalers x;
             customUnmarshalers := customUnmarshalers x |}.

Definition SetEnvPrefix (prefix : string) : M unit :=
  Taurus_SetEnvPrefix t prefix.

Definition Taurus_SetExpandEnv (r : Ref) (expand : bool) : M unit :=
  x ← deref r;
  store r {| envPrefix := envPrefix x; expandEnv := expand;
             envAliases := envAliases x; flags := flags x;
             customMarshalers := customMarshalers x;
             customUnmarshalers := customUnmarshalers x |}.

Definition SetExpandEnv (expand : bool) : M unit :=
  Taurus_SetExpandEnv t expand.

Definition Taurus_BindEnvAlias (r : Ref) (fieldPath : string)
    (aliases : list string) : M unit :=
  x ← deref r;
  store r {| envPrefix := envPrefix x; expandEnv := expandEnv x;
             envAliases :=
               <[fieldPath := default [] (envAliases x !! fieldPath) ++ aliases]>
                 (envAliases x);
             flags := flags x;
             customMarshalers := customMarshalers x;
             customUnmarshalers := customUnmarshalers x |}.

Definition BindEnvAlias (fieldPath : string) (aliases : list string) : M unit :=
  Taurus_BindEnvAlias t fieldPath aliases.

Definition Taurus_BindFlag (r : Ref) (fieldPath : string)
    (flag : option Flag) : M unit :=
  x ← deref r;
  store r {| envPrefix := envPrefix x; expandEnv := expandEnv x;
             envAliases := envAliases x;
             flags := <[fieldPath := flag]> (flags x);
             customMarshalers := customMarshalers x;
             customUnmarshalers := customUnmarshalers x |}.

Definition BindFlag (fieldPath : string) (flag : option Flag) : M unit :=
  Taurus_BindFlag t fieldPath flag.

(** [RegisterMarshaler[T]] and [RegisterUnmarshaler[T]], [T] given by its
    name.  (They also hand the function to the yaml package, which keeps its
    own table.) *)
Definition RegisterMarshaler (r : Ref) (T : string) (marshaler : Marshaler)
  : M unit :=
  x ← deref r;
  store r {| envPrefix := envPrefix x; expandEnv := expandEnv x;
             envAliases := envAliases x; flags := flags x;
             customMarshalers := <[T := marshaler]> (customMarshalers x);
             customUnmarshalers := customUnmarshalers x |}.

Definition RegisterUnmarshaler (r : Ref) (T : string)
    (unmarshaler : Unmarshaler) : M unit :=
  x ← deref r;
  store r {| envPrefix := envPrefix x; expandEnv := expandEnv x;
             envAliases := envAliases x; flags := flags x;
             customMarshalers := customMarshalers x;
             customUnmarshalers := <[T := unmarshaler]> (customUnmarshalers x) |}.


(** ** The binders *)

(** How a call ends: it returns an error (or nil), or it panics. *)
Inductive outcome : Type :=
| Returns (err : option error)
| Panics (msg : string).

Abbreviation Fields := (list (StructField * Value)).

(** The [for i := 0; i < ty.NumField(); i++] loop of the binders.  The body
    is run on each field in turn, with its descriptor and its slot; it
    gives back the slot as it stands after the iteration, and [None] when
    the loop goes on to the next field ([continue], or the end of the body),
    or the outcome of the call when the body returns or panics.  The fields
    after one that ends the call are not visited. *)
Definition for_fields (body : StructField -> Value -> M (Value * option outcome))
  : Fields -> M (Fields * outcome) :=
  fix loop (fields : Fields) : M (Fields * outcome) :=
    match fields with
    | [] => mret ([], Returns None)
    | (field, fieldValue) :: rest =>
        '(fieldValue', stop) ← body field fieldValue;
        match stop with
        | None =>
            '(rest', res) ← loop rest;
            mret ((field, fieldValue') :: rest', res)
        | Some res => mret ((field, fieldValue') :: rest, res)
        end
    end.

Definition continue (fieldValue : Value) : M (Value * option outcome) :=
  mret (fieldValue, None).

Definition leave (fieldValue : Value) (res : outcome)
  : M (Value * option outcome) :=
  mret (fieldValue, Some res).

(** [if err := f(...); err != nil { return err }; continue] after a call on
    a struct field. *)
Definition return_if_err (call : Value * outcome) : M (Value * option outcome) :=
  match call with
  | (fieldValue', Returns None) => continue fieldValue'
  | (fieldValue', res) => leave fieldValue' res
  end.

(** [Value.Interface] on a slot reached through an unexported field. *)
Definition Interface_panic : outcome :=
  Panics "reflect.Value.Interface: cannot return value obtained from unexported field or method".

Definition nil_dereference : outcome :=
  Panics "runtime error: invalid memory address or nil pointer dereference".

(** [fieldValue.CanSet()]: a slot of the struct [cfg] points to is
    addressable, so it can be set when its field is exported. *)
Definition CanSet (field : StructField) : bool := IsExported field.

(** [field.Tag.Get("yaml")], or the field name when there is none. *)
Definition tag_of (field : StructField) : string :=
  if bool_decide (yaml field = "") then Name field else yaml field.

(** The built-in conversions of [setField]: the [switch] on the kind. *)
Definition setField_switch (fieldValue : Value) (value : string)
  : Value * option error :=
  match fieldValue with
  | VString ty _ => (VString ty value, None)
  | VInt ty w _ =>
      match strconv.ParseInt value 64 with
      | (_, Some err) =>
          (fieldValue, Some (Errorf "invalid int: %v" [ArgError err]))
      | (val, None) => (VInt ty w (wrap_int w val), None)
      end
  | VUint ty w _ =>
      match strconv.ParseUint value 64 with
      | (_, Some err) =>
          (fieldValue, Some (Errorf "invalid uint: %v" [ArgError err]))
      | (val, None) => (VUint ty w (wrap_uint w val), None)
      end
  | VFloat ty w _ =>
      match strconv.ParseFloat value 64 with
      | (_, Some err) =>
          (fieldValue, Some (Errorf "invalid float: %v" [ArgError err]))
      | (val, None) =>
          (VFloat ty w (match w with F32 => strconv.float32_of val | F64 => val end),
           None)
      end
  | VBool ty _ =>
      match strconv.ParseBool value with
      | (_, Some err) =>
          (fieldValue, Some (Errorf "invalid bool: %v" [ArgError err]))
      | (val, None) => (VBool ty val, None)
      end
  | _ =>
      (fieldValue,
       Some (Errorf "unsupported field type: %s" [ArgKind (Kind_of fieldValue)]))
  end.

(** Runs a conversion from text on a slot and wraps its error. *)
Definition unmarshal_with (u : Unmarshaler) (format : string)
    (fieldValue : Value) (value : string) : Value * option error :=
  let '(fieldValue', err) := u fieldValue value in
  (fieldValue', (fun e => Errorf format [ArgError e]) <$> err).

(** [(t *Taurus) setField]. *)
Definition Taurus_setField (r : Ref) (field : StructField)
    (fieldValue : Value) (value : string) : M (Value * option error) :=
  x ← deref r;
  match customUnmarshalers x !! Type_of fieldValue with
  | Some customUnmarshaler =>
      mret (unmarshal_with customUnmarshaler
              "failed to unmarshal custom field: %v" fieldValue value)
  | None =>
      m ← method_UnmarshalText (Type_of fieldValue);
      match m with
      | Some unmarshaler =>
          mret (unmarshal_with unmarshaler
                  "failed to unmarshal field: %v" fieldValue value)
      | None => mret (setField_switch fieldValue value)
      end
  end.

(** The alias loop of [LoadEnv]: the first alias found in the environment,
    with the key it was found under. *)
Fixpoint lookup_aliases (envPrefix : string) (keys : list string)
  : M (option (string * string)) :=
  match keys with
  | [] => mret None
  | key :: keys' =>
      found ← os_LookupEnv (envPrefix +:+ "_" +:+ key);
      match found with
      | Some envVal => mret (Some (envPrefix +:+ "_" +:+ key, envVal))
      | None => lookup_aliases envPrefix keys'
      end
  end.

(** The lookup of a leaf: the key itself, then its aliases.  Returns the
    key that was found and its value. *)
Definition lookup_leaf (x : Taurus) (envKey : string)
  : M (option (string * string)) :=
  found ← os_LookupEnv envKey;
  match found with
  | Some envVal => mret (Some (envKey, envVal))
  | None =>
      lookup_aliases (envPrefix x)
        (default []
           (envAliases x !! strings.TrimPrefix envKey (envPrefix x +:+ "_")))
  end.

Definition shape_error : error := Errorf "cfg must be a pointer to a struct" [].

(** [return fmt.Errorf("error setting field for %s: %v", key, err)], or the
    end of the loop body. *)
Definition return_field_err (key : string) (set : Value * option error)
  : M (Value * option outcome) :=
  match set with
  | (fieldValue', Some err) =>
      leave fieldValue'
        (Returns (Some (Errorf "error setting field for %s: %v"
                          [ArgString key; ArgError err])))
  | (fieldValue', None) => continue fieldValue'
  end.

(** The environment key of a field in [(t *Taurus) LoadEnv]. *)
Definition Taurus_envKey (prefix : string) (field : StructField) : string :=
  let envKey := strings.ToUpper (tag_of field) in
  if bool_decide (prefix ≠ "") then prefix +:+ "_" +:+ envKey else envKey.

(** The loop body of [(t *Taurus) LoadEnv].  [LoadEnv] is the package-level
    function it calls on a struct field.  There [fieldValue.Addr().Interface()]
    is evaluated before [CanSet] is looked at, and [Interface] panics on a
    slot that was reached through an unexported field. *)
Definition Taurus_LoadEnv_body
    (LoadEnv : string -> Value -> M (Value * outcome))
    (r : Ref) (prefix : string) (field : StructField) (fieldValue : Value)
  : M (Value * option outcome) :=
  let envKey := Taurus_envKey prefix field in
  if bool_decide (Kind_of fieldValue = Struct) then
    if IsExported field then
      call ← LoadEnv envKey fieldValue;
      return_if_err call
    else leave fieldValue Interface_panic
  else if negb (CanSet field) then continue fieldValue
  else
    x ← deref r;
    found ← lookup_leaf x envKey;
    match found with
    | None => continue fieldValue
    | Some (envKey, envVal) =>
        set ← Taurus_setField r field fieldValue envVal;
        return_field_err envKey set
    end.

(** [(t *Taurus) LoadEnv(prefix, cfg)] with [cfg] a pointer to [v]; the
    result is [v] after the call.  A struct field is handed to the
    package-level [LoadEnv], that is to the default instance [t]. *)
Fixpoint Taurus_LoadEnv (r : Ref) (prefix : string) (v : Value)
  : M (Value * outcome) :=
  match v with
  | VStruct ty fields =>
      '(fields', res) ←
        for_fields
          (Taurus_LoadEnv_body
             (fun envKey fieldValue => Taurus_LoadEnv t envKey fieldValue)
             r prefix)
          fields;
      mret (VStruct ty fields', res)
  | _ => mret (v, Returns (Some shape_error))
  end.

(** The package-level [LoadEnv]: [return t.LoadEnv(prefix, cfg)]. *)
Definition LoadEnv (prefix : string) (v : Value) : M (Value * outcome) :=
  Taurus_LoadEnv t prefix v.

(** The flag path of a field. *)
Definition fieldPath_of (prefix : string) (field : StructField) : string :=
  if bool_decide (prefix ≠ "") then prefix +:+ "." +:+ Name field
  else Name field.

(** The loop body of [(t *Taurus) loadFlags]; [loadFlags] is the method
    itself, called on a struct field. *)
Definition Taurus_loadFlags_body
    (loadFlags : string -> Value -> M (Value * outcome))
    (r : Ref) (prefix : string) (field : StructField) (fieldValue : Value)
  : M (Value * option outcome) :=
  let fieldPath := fieldPath_of prefix field in
  if bool_decide (Kind_of fieldValue = Struct) then
    if IsExported field then
      call ← loadFlags fieldPath fieldValue;
      return_if_err call
    else leave fieldValue Interface_panic
  else if negb (CanSet field) then continue fieldValue
  else
    x ← deref r;
    match flags x !! fieldPath with
    | None => continue fieldValue
    | Some None => leave fieldValue nil_dereference
    | Some (Some fl) =>
        if negb (Changed fl) then continue fieldValue
        else
          set ← Taurus_setField r field fieldValue (Value_String fl);
          return_field_err fieldPath set
    end.

(** [(t *Taurus) loadFlags(prefix, cfg)] with [cfg] a pointer to [v]. *)
Fixpoint Taurus_loadFlags (r : Ref) (prefix : string) (v : Value)
  : M (Value * outcome) :=
  match v with
  | VStruct ty fields =>
      '(fields', res) ←
        for_fields
          (Taurus_loadFlags_body
             (fun fieldPath fieldValue => Taurus_loadFlags r fieldPath fieldValue)
             r prefix)
          fields;
      mret (VStruct ty fields', res)
  | _ => mret (v, Returns (Some shape_error))
  end.

Definition Taurus_LoadFlags (r : Ref) (v : Value) : M (Value * outcome) :=
  Taurus_loadFlags r "" v.

Definition LoadFlags (v : Value) : M (Value * outcome) :=
  Taurus_LoadFlags t v.

(** A binder called on any [cfg]: only a non-nil pointer gets as far as the
    check of the pointee's kind. *)
Definition on_cfg (bind : Value -> M (Value * outcome)) (cfg : interface)
  : M (interface * outcome) :=
  match cfg with
  | PtrTo v => '(v', res) ← bind v; mret (PtrTo v', res)
  | _ => mret (cfg, Returns (Some shape_error))
  end.

(** *** The document loader

    [yaml.Unmarshal], [os.Expand] and [os.ReadFile] are not part of the
    package: they are taken as they come. *)

Section Load.

Variable yaml_Unmarshal : string -> interface -> interface * option error.
Variable os_Expand : string -> (string -> string) -> string.
Variable os_ReadFile : string -> string * option error.

(** [os.ExpandEnv(s)] is [os.Expand(s, os.Getenv)]. *)
Definition os_ExpandEnv (s : string) : M string :=
  fun w => (os_Expand s (fun key => default "" (environ w !! key)), w).

Definition Taurus_Load (r : Ref) (configData : string) (cfg : interface)
  : M (interface * outcome) :=
  x ← deref r;
  data ← (if expandEnv x then os_ExpandEnv configData else mret configData);
  let '(cfg', err) := yaml_Unmarshal data cfg in
  mret (cfg',
        Returns ((fun e => Errorf "failed to unmarshal config data: %w"
                             [ArgError e]) <$> err)).

Definition Load (configData : string) (cfg : interface)
  : M (interface * outcome) :=
  Taurus_Load t configData cfg.

Definition Taurus_LoadFile (r : Ref) (configFilePath : string)
    (cfg : interface) : M (interface * outcome) :=
  match os_ReadFile configFilePath with
  | (_, Some err) =>
      mret (cfg, Returns (Some (Errorf "failed to read config file: %w"
                                  [ArgError err])))
  | (configData, None) => Taurus_Load r configData cfg
  end.

Definition LoadFile (configFilePath : string) (cfg : interface)
  : M (interface * outcome) :=
  Taurus_LoadFile t configFilePath cfg.

End Load.

(** ** The earlier revision: the registry in package-level variables

    The variables [envPrefix], [expandEnv], [envAliases], [flags],
    [customMarshalers] and [customUnmarshalers] are the fields of
    [default_t]. *)

Module Globals.

Definition vars : M Taurus := deref t.

Definition SetEnvPrefix (prefix : string) : M unit :=
  x ← vars;
  store t {| envPrefix := prefix; expandEnv := expandEnv x;
             envAliases := envAliases x; flags := flags x;
             customMarshalers := customMarshalers x;
             customUnmarshalers := customUnmarshalers x |}.

Definition SetExpandEnv (expand : bool) : M unit :=
  x ← vars;
  store t {| envPrefix := envPrefix x; expandEnv := expand;
             envAliases := envAliases x; flags := flags x;
             customMarshalers := customMarshalers x;
             customUnmarshalers := customUnmarshalers x |}.

Definition BindEnvAlias (fieldPath : string) (aliases : list string) : M unit :=
  x ← vars;
  store t {| envPrefix := envPrefix x; expandEnv := expandEnv x;
             envAliases :=
               <[fieldPath := default [] (envAliases x !! fieldPath) ++ aliases]>
                 (envAliases x);
             flags := flags x;
             customMarshalers := customMarshalers x;
             customUnmarshalers := customUnmarshalers x |}.

Definition BindFlag (fieldPath : string) (flag : option Flag) : M unit :=
  x ← vars;
  store t {| envPrefix := envPrefix x; expandEnv := expandEnv x;
             envAliases := envAliases x;
             flags := <[fieldPath := flag]> (flags x);
             customMarshalers := customMarshalers x;
             customUnmarshalers := customUnmarshalers x |}.

Definition setField (field : StructField) (fieldValue : Value)
    (value : string) : M (Value * option error) :=
  x ← vars;
  match customUnmarshalers x !! Type_of fieldValue with
  | Some customUnmarshaler =>
      mret (unmarshal_with customUnmarshaler
              "failed to unmarshal custom field: %v" fieldValue value)
  | None =>
      m ← method_UnmarshalText (Type_of fieldValue);
      match m with
      | Some unmarshaler =>
          mret (unmarshal_with unmarshaler
                  "failed to unmarshal field: %v" fieldValue value)
      | None => mret (setField_switch fieldValue value)
      end
  end.

(** The environment key of a field: the separator is always there. *)
Definition envKey_of (prefix : string) (field : StructField) : string :=
  prefix +:+ "_" +:+ strings.ToUpper (tag_of field).

Definition LoadEnv_body (LoadEnv : string -> Value -> M (Value * outcome))
    (prefix : string) (field : StructField) (fieldValue : Value)
  : M (Value * option outcome) :=
  let envKey := envKey_of prefix field in
  if bool_decide (Kind_of fieldValue = Struct) then
    if IsExported field then
      call ← LoadEnv envKey fieldValue;
      return_if_err call
    else leave fieldValue Interface_panic
  else if negb (CanSet field) then continue fieldValue
  else
    x ← vars;
    found ← lookup_leaf x envKey;
    match found with
    | None => continue fieldValue
    | Some (envKey, envVal) =>
        set ← setField field fieldValue envVal;
        return_field_err envKey set
    end.

Fixpoint LoadEnv (prefix : string) (v : Value) : M (Value * outcome) :=
  match v with
  | VStruct ty fields =>
      '(fields', res) ←
        for_fields
          (LoadEnv_body (fun envKey fieldValue => LoadEnv envKey fieldValue)
             prefix)
          fields;
      mret (VStruct ty fields', res)
  | _ => mret (v, Returns (Some shape_error))
  end.

Definition LoadFlags_body (LoadFlags : string -> Value -> M (Value * outcome))
    (prefix : string) (field : StructField) (fieldValue : Value)
  : M (Value * option outcome) :=
  let fieldPath := fieldPath_of prefix field in
  if bool_decide (Kind_of fieldValue = Struct) then
    if IsExported field then
      call ← LoadFlags fieldPath fieldValue;
      return_if_err call
    else leave fieldValue Interface_panic
  else if negb (CanSet field) then continue fieldValue
  else
    x ← vars;
    match flags x !! fieldPath with
    | None => continue fieldValue
    | Some None => leave fieldValue nil_dereference
    | Some (Some fl) =>
        if negb (Changed fl) then continue fieldValue
        else
          set ← setField field fieldValue (Value_String fl);
          return_field_err fieldPath set
    end.

Fixpoint LoadFlags (prefix : string) (v : Value) : M (Value * outcome) :=
  match v with
  | VStruct ty fields =>
      '(fields', res) ←
        for_fields
          (LoadFlags_body
             (fun fieldPath fieldValue => LoadFlags fieldPath fieldValue)
             prefix)
          fields;
      mret (VStruct ty fields', res)
  | _ => mret (v, Returns (Some shape_error))
  end.

Section Load.

Variable yaml_Unmarshal : string -> interface -> interface * option error.
Variable os_Expand : string -> (string -> string) -> string.

Definition Load (configData : string) (cfg : interface)
  : M (interface * outcome) :=
  x ← vars;
  data ← (if expandEnv x then os_ExpandEnv os_Expand configData
          else mret configData);
  let '(cfg', err) := yaml_Unmarshal data cfg in
  mret (cfg',
        Returns ((fun e => Errorf "failed to unmarshal config data: %w"
                             [ArgError e]) <$> err)).

End Load.

(** [RegisterCustomMarshaler[T]] and [RegisterCustomUnmarshaler[T]], [T]
    given by its name. *)
Definition RegisterCustomMarshaler (T : string) (marshaler : Marshaler)
  : M unit :=
  x ← vars;
  store t {| envPrefix := envPrefix x; expandEnv := expandEnv x;
             envAliases := envAliases x; flags := flags x;
             customMarshalers := <[T := marshaler]> (customMarshalers x);
             customUnmarshalers := customUnmarshalers x |}.

Definition RegisterCustomUnmarshaler (T : string) (unmarshaler : Unmarshaler)
  : M unit :=
  x ← vars;
  store t {| envPrefix := envPrefix x; expandEnv := expandEnv x;
             envAliases := envAliases x; flags := flags x;
             customMarshalers := customMarshalers x;
             customUnmarshalers := <[T := unmarshaler]> (customUnmarshalers x) |}.

Section LoadFile.

Variable yaml_Unmarshal : string -> interface -> interface * option error.
Variable os_Expand : string -> (string -> string) -> string.
Variable os_ReadFile : string -> string * option error.

Definition LoadFile (configFilePath : string) (cfg : interface)
  : M (interface * outcome) :=
  match os_ReadFile configFilePath with
  | (_, Some err) =>
      mret (cfg, Returns (Some (Errorf "failed to read config file: %w"
                                  [ArgError err])))
  | (configData, None) => Load yaml_Unmarshal os_Expand configData cfg
  end.

End LoadFile.

End Globals.

(** ** A receiver that may be nil

    [RegisterMarshaler] and [RegisterUnmarshaler] take the [*Taurus] as an
    argument.  They store into a map of [t] before anything else, which
    dereferences [t]. *)

Definition RegisterMarshaler_on (p : option Ref) (T : string)
    (marshaler : Marshaler) : M outcome :=
  match p with
  | None => mret nil_dereference
  | Some r => _ ← RegisterMarshaler r T marshaler; mret (Returns None)
  end.

Definition RegisterUnmarshaler_on (p : option Ref) (T : string)
    (unmarshaler : Unmarshaler) : M outcome :=
  match p with
  | None => mret nil_dereference
  | Some r => _ ← RegisterUnmarshaler r T unmarshaler; mret (Returns None)
  end.

(** * Definitions for the statements *)

(** ** Running a computation *)

(** The result of a computation started in state [w]. *)
Definition run {A : Type} (m : M A) (w : World) : A := fst (m w).

(** A computation that only reads the state. *)
Definition reads {A : Type} (m : M A) : Prop := forall w, snd (m w) = w.

(** ** Records *)

(** [v.Field(0)], ..., [v.Field(v.NumField()-1)] with their descriptors. *)
Definition fields_of (v : Value) : Fields :=
  match v with
  | VStruct _ fields => fields
  | _ => []
  end.

(** The field reached from [v] by going, at each level, to the field of the
    given index: its path or key (as [join] builds it from the path so far
    and the field), its descriptor and its slot. *)
Fixpoint field_at (join : string -> StructField -> string) (prefix : string)
    (v : Value) (idx : list nat) : option (string * StructField * Value) :=
  match idx with
  | [] => None
  | i :: idx' =>
      match fields_of v !! i with
      | None => None
      | Some (field, slot) =>
          let path := join prefix field in
          match idx' with
          | [] => Some (path, field, slot)
          | _ :: _ => field_at join path slot idx'
          end
      end
  end.

(** The kinds [setField] has a built-in conversion for. *)
Definition builtin_kinds : list Kind :=
  [String_; Int; Int8; Int16; Int32; Int64;
   Uint; Uint8; Uint16; Uint32; Uint64; Float32; Float64; Bool].

(** Induction on a record, with the property of every slot of a struct at
    hand. *)
Section Value_induction.

Variable P : Value -> Prop.
Hypothesis HBool : forall ty b, P (VBool ty b).
Hypothesis HInt : forall ty w n, P (VInt ty w n).
Hypothesis HUint : forall ty w n, P (VUint ty w n).
Hypothesis HFloat : forall ty w f, P (VFloat ty w f).
Hypothesis HString : forall ty s, P (VString ty s).
Hypothesis HStruct :
  forall ty fields, Forall (fun fv => P (snd fv)) fields -> P (VStruct ty fields).
Hypothesis HOther : forall ty k repr, P (VOther ty k repr).

Fixpoint Value_nested_ind (v : Value) : P v :=
  match v with
  | VBool ty b => HBool ty b
  | VInt ty w n => HInt ty w n
  | VUint ty w n => HUint ty w n
  | VFloat ty w f => HFloat ty w f
  | VString ty s => HString ty s
  | VStruct ty fields =>
      HStruct ty fields
        ((fix all (l : Fields) : Forall (fun fv => P (snd fv)) l :=
            match l with
            | [] => List.Forall_nil _
            | (field, x) :: l' =>
                List.Forall_cons _ (field, x) l' (Value_nested_ind x) (all l')
            end) fields)
  | VOther ty k repr => HOther ty k repr
  end.

End Value_induction.

(** The field names and yaml tags the keys are built from are all ASCII, at
    any depth. *)
Fixpoint ascii_tags (v : Value) : bool :=
  match v with
  | VStruct _ fields =>
      forallb
        (fun '(field, slot) => strings.isASCII (tag_of field) && ascii_tags slot)
        fields
  | _ => true
  end.

(** ** The two revisions side by side

    The binders exist three times over: as methods on a [*Taurus], as
    package-level functions that call the methods on [t], and, in the
    earlier revision, as functions of the package-level variables.  [Api]
    names them, so that a property can be stated once for all of them. *)
Inductive Api : Set :=
| MethodsOf (r : Ref)
| PackageVars.

Definition LoadEnv_of (a : Api) : string -> Value -> M (Value * outcome) :=
  match a with
  | MethodsOf r => Taurus_LoadEnv r
  | PackageVars => Globals.LoadEnv
  end.

Definition loadFlags_of (a : Api) : string -> Value -> M (Value * outcome) :=
  match a with
  | MethodsOf r => Taurus_loadFlags r
  | PackageVars => Globals.LoadFlags
  end.

Definition setField_of (a : Api)
  : StructField -> Value -> string -> M (Value * option error) :=
  match a with
  | MethodsOf r => Taurus_setField r
  | PackageVars => Globals.setField
  end.

(** The function [LoadEnv_of a] hands a struct field to. *)
Definition nested_LoadEnv (a : Api) : string -> Value -> M (Value * outcome) :=
  match a with
  | MethodsOf _ => LoadEnv
  | PackageVars => Globals.LoadEnv
  end.

Definition envKey_in (a : Api) : string -> StructField -> string :=
  match a with
  | MethodsOf _ => Taurus_envKey
  | PackageVars => Globals.envKey_of
  end.

(** The registry the binders of [a] read. *)
Definition registry (a : Api) : Ref :=
  match a with
  | MethodsOf r => r
  | PackageVars => t
  end.

(** Two registries with the same prefix, aliases, flags and custom
    unmarshalers. *)
Definition same_tables (x y : Taurus) : Prop :=
  envPrefix x = envPrefix y /\ envAliases x = envAliases y /\
  flags x = flags y /\ customUnmarshalers x = customUnmarshalers y.

(** The loop body of [loadFlags_of a]. *)
Definition flags_body (a : Api) (prefix : string)
  : StructField -> Value -> M (Value * option outcome) :=
  match a with
  | MethodsOf r => Taurus_loadFlags_body (Taurus_loadFlags r) r prefix
  | PackageVars => Globals.LoadFlags_body Globals.LoadFlags prefix
  end.

(** ** Records and states of the examples *)

Definition exported (name : string) : StructField :=
  {| Name := name; PkgPath := ""; yaml := "" |}.

Definition unexported (name : string) : StructField :=
  {| Name := name; PkgPath := "main"; yaml := "" |}.

Definition world0 : World :=
  {| default_t := New; instance := New; environ := ∅; UnmarshalText := ∅ |}.

Definition setenv (key value : string) (w : World) : World :=
  {| default_t := default_t w; instance := instance w;
     environ := <[key := value]> (environ w);
     UnmarshalText := UnmarshalText w |}.

(** [struct { Server struct { Port int; Host string } }]. *)
Definition server (port : Z) (host : string) : Value :=
  VStruct "struct { Port int; Host string }"
    [(exported "Port", VInt "int" WInt port);
     (exported "Host", VString "string" host)].

Definition server_cfg (port : Z) (host : string) : Value :=
  VStruct "main.Config" [(exported "Server", server port host)].

Definition c1_world : World :=
  setenv "APP_SERVICE_HOST" "example.com" (setenv "APP_SERVER_PORT" "8080" world0).

(** The calls of the scenario, on the default instance. *)
Definition scenario (alias_key : string) (cfg : Value) : M (Value * outcome) :=
  _ ← SetEnvPrefix "APP";
  _ ← BindEnvAlias alias_key ["SERVICE_HOST"];
  LoadEnv "APP" cfg.

Definition Globals_scenario (alias_key : string) (cfg : Value)
  : M (Value * outcome) :=
  _ ← Globals.SetEnvPrefix "APP";
  _ ← Globals.BindEnvAlias alias_key ["SERVICE_HOST"];
  Globals.LoadEnv "APP" cfg.

(** A type with both conversions: [type Level string], with a registered
    custom unmarshaler and an [UnmarshalText] method. *)
Definition Level_custom : Unmarshaler :=
  fun slot text => (VString (Type_of slot) ("custom:" +:+ text), None).

Definition Level_UnmarshalText : Unmarshaler :=
  fun slot text => (VString (Type_of slot) ("native:" +:+ text), None).

Definition level_world : World :=
  {| default_t :=
       {| envPrefix := ""; expandEnv := false; envAliases := ∅; flags := ∅;
          customMarshalers := ∅;
          customUnmarshalers := {["main.Level" := Level_custom]} |};
     instance := New; environ := ∅;
     UnmarshalText := {["main.Level" := Level_UnmarshalText]} |}.

(** [struct { A int; B int; C int }] *)
Definition abc_cfg (a b c : Z) : Value :=
  VStruct "main.ABC"
    [(exported "A", VInt "int" WInt a); (exported "B", VInt "int" WInt b);
     (exported "C", VInt "int" WInt c)].

Definition abc_world : World :=
  setenv "APP_C" "3" (setenv "APP_B" "x" (setenv "APP_A" "1" world0)).

(** [struct { Name string; Port int }] *)
Definition name_port_cfg (name : string) (port : Z) : Value :=
  VStruct "main.NP"
    [(exported "Name", VString "string" name);
     (exported "Port", VInt "int" WInt port)].

Definition empty_values_world : World :=
  setenv "APP_PORT" "" (setenv "APP_NAME" "" world0).

(** [type Endpoint struct { Host string }] with an [UnmarshalText] that
    stores the text in [Host]; [struct { Addr Endpoint }]. *)
Definition endpoint (host : string) : Value :=
  VStruct "main.Endpoint" [(exported "Host", VString "string" host)].

Definition Endpoint_UnmarshalText : Unmarshaler :=
  fun _ text => (endpoint text, None).

Definition endpoint_cfg (host : string) : Value :=
  VStruct "main.Config" [(exported "Addr", endpoint host)].

Definition endpoint_world : World :=
  {| default_t :=
       {| envPrefix := "APP"; expandEnv := false; envAliases := ∅;
          flags := {["Addr" := Some {| Changed := true;
                                       Value_String := "example.com" |}]};
          customMarshalers := ∅; customUnmarshalers := ∅ |};
     instance := New;
     environ := {["APP_ADDR" := "example.com"]};
     UnmarshalText := {["main.Endpoint" := Endpoint_UnmarshalText]} |}.

(** [struct { Port int; limits struct { Max int }; Host string }] *)
Definition limits_cfg (port : Z) (host : string) : Value :=
  VStruct "main.Config"
    [(exported "Port", VInt "int" WInt port);
     (unexported "limits",
      VStruct "struct { Max int }" [(exported "Max", VInt "int" WInt 0)]);
     (exported "Host", VString "string" host)].

Definition limits_world : World :=
  {| default_t :=
       {| envPrefix := "APP"; expandEnv := false; envAliases := ∅;
          flags := {["Port" := Some {| Changed := true; Value_String := "8080" |}]};
          customMarshalers := ∅; customUnmarshalers := ∅ |};
     instance := New;
     environ := {["APP_PORT" := "8080"; "APP_HOST" := "example.com"]};
     UnmarshalText := ∅ |}.

(** The scenario of the specification: the flag [Server.Port] carries
    "9090" and was not changed; [Server.Host] was changed. *)
Definition flags_world : World :=
  {| default_t := New;
     instance :=
       {| envPrefix := ""; expandEnv := false; envAliases := ∅;
          flags := {["Server.Port" := Some {| Changed := false;
                                              Value_String := "9090" |};
                     "Server.Host" := Some {| Changed := true;
                                              Value_String := "example.com" |}]};
          customMarshalers := ∅; customUnmarshalers := ∅ |};
     environ := ∅; UnmarshalText := ∅ |}.

(** [struct { Port int }] *)
Definition port_cfg (port : Z) : Value :=
  VStruct "main.Config" [(exported "Port", VInt "int" WInt port)].

Definition port_world : World := setenv "PORT" "8080" world0.

(** The instance holds the prefix [APP] and the alias of [SERVER_HOST]; the
    default instance holds nothing. *)
Definition own_alias_world : World :=
  {| default_t := New;
     instance :=
       {| envPrefix := "APP"; expandEnv := false;
          envAliases := {["SERVER_HOST" := ["SERVICE_HOST"]]}; flags := ∅;
          customMarshalers := ∅; customUnmarshalers := ∅ |};
     environ := environ c1_world; UnmarshalText := ∅ |}.

(** ** The binders at any depth *)

(** The binders [LoadEnv_of a] runs on the struct fields of the record it
    is given: the method hands them to the package-level function. *)
Definition below (a : Api) : Api :=
  match a with
  | MethodsOf _ => MethodsOf t
  | PackageVars => PackageVars
  end.

(** The loop body of [LoadEnv_of a]. *)
Definition env_body (a : Api) (prefix : string)
  : StructField -> Value -> M (Value * option outcome) :=
  match a with
  | MethodsOf r => Taurus_LoadEnv_body (Taurus_LoadEnv t) r prefix
  | PackageVars => Globals.LoadEnv_body Globals.LoadEnv prefix
  end.

(** Every field of a struct type, at any depth, is exported. *)
Fixpoint structs_exported (v : Value) : bool :=
  match v with
  | VStruct _ fields =>
      forallb
        (fun '(field, slot) =>
           (negb (bool_decide (Kind_of slot = Struct)) || IsExported field)
           && structs_exported slot)
        fields
  | _ => true
  end.

(** The leaf reached from [v] by the indices [idx] when [LoadEnv_of a] is
    called with [prefix]: the key built for it, the registry its value is
    looked up in and converted with, its descriptor and its slot. *)
Fixpoint env_leaf_at (a : Api) (prefix : string) (v : Value) (idx : list nat)
  : option (Api * string * StructField * Value) :=
  match idx with
  | [] => None
  | i :: idx' =>
      match fields_of v !! i with
      | None => None
      | Some (field, slot) =>
          let envKey := envKey_in a prefix field in
          match idx' with
          | [] => Some (a, envKey, field, slot)
          | _ :: _ => env_leaf_at (below a) envKey slot idx'
          end
      end
  end.

(** ** More records and states

    The key [HOST] has the aliases [SERVICE_HOST] and [HOSTNAME], bound in
    that order; the variables of both are set, [APP_HOST] is not. *)
Definition two_aliases_world : World :=
  {| default_t :=
       {| envPrefix := "APP"; expandEnv := false;
          envAliases := {["HOST" := ["SERVICE_HOST"; "HOSTNAME"]]}; flags := ∅;
          customMarshalers := ∅; customUnmarshalers := ∅ |};
     instance := New;
     environ := {["APP_HOSTNAME" := "second.example.com";
                  "APP_SERVICE_HOST" := "first.example.com"]};
     UnmarshalText := ∅ |}.

(** [struct { Host string }] *)
Definition host_cfg (host : string) : Value :=
  VStruct "main.Config" [(exported "Host", VString "string" host)].

(** [c1_world] with variables of other programs beside it. *)
Definition crowded_world : World :=
  setenv "PATH" "/usr/bin" (setenv "SERVER_PORT" "1" (setenv "APPLE" "2" c1_world)).

(** [flags_world] with an environment, an env prefix and an alias on the
    instance. *)
Definition flags_and_env_world : World :=
  {| default_t := New;
     instance :=
       {| envPrefix := "APP"; expandEnv := true;
          envAliases := {["SERVER_HOST" := ["SERVICE_HOST"]]};
          flags := flags (instance flags_world);
          customMarshalers := ∅; customUnmarshalers := ∅ |};
     environ := environ c1_world; UnmarshalText := ∅ |}.

(** The variable [APP_SERVER_PORT] and the changed flag [Server.Port] both
    hold a value for the same leaf. *)
Definition env_and_flag_world : World :=
  {| default_t :=
       {| envPrefix := "APP"; expandEnv := false; envAliases := ∅;
          flags := {["Server.Port" := Some {| Changed := true;
                                              Value_String := "9090" |}]};
          customMarshalers := ∅; customUnmarshalers := ∅ |};
     instance := New;
     environ := {["APP_SERVER_PORT" := "8080"]};
     UnmarshalText := ∅ |}.

(** [struct { Name string; Port int; Host string }], with a value for each
    field in the environment, the one of [Port] being no number. *)
Definition service_cfg (name : string) (port : Z) (host : string) : Value :=
  VStruct "main.Service"
    [(exported "Name", VString "string" name);
     (exported "Port", VInt "int" WInt port);
     (exported "Host", VString "string" host)].

Definition bad_port_world : World :=
  setenv "APP_HOST" "example.com"
    (setenv "APP_PORT" "x" (setenv "APP_NAME" "svc" world0)).

(** * Properties *)

(** ** The loop over the fields *)

Lemma reads_ret {A : Type} (x : A) : reads (mret x).
Proof. intros w. reflexivity. Qed.

Lemma reads_bind {A B : Type} (m : M A) (k : A -> M B) :
  reads m -> (forall x, reads (k x)) -> reads (m ≫= k).
Proof.
  intros Hm Hk w. unfold mbind, M_bind.
  specialize (Hm w). destruct (m w) as [x w']. simpl in Hm. subst w'.
  apply Hk.
Qed.

Lemma reads_run {A : Type} (m : M A) (w : World) :
  reads m -> m w = (fst (m w), w).
Proof. intros H. specialize (H w). destruct (m w). simpl in *. congruence. Qed.

Lemma run_bind {A B : Type} (m : M A) (k : A -> M B) (w : World) :
  reads m -> (m ≫= k) w = k (fst (m w)) w.
Proof.
  intros H. unfold mbind, M_bind. rewrite (reads_run m w H). reflexivity.
Qed.

Lemma reads_for_fields body fields :
  Forall (fun fv => reads (body (fst fv) (snd fv))) fields ->
  reads (for_fields body fields).
Proof.
  induction 1 as [|[field fieldValue] rest Hbody _ IH]; simpl.
  - apply reads_ret.
  - apply reads_bind; [exact Hbody|].
    intros [fieldValue' [res|]]; [apply reads_ret|].
    apply reads_bind; [exact IH|]. intros [rest' res]. apply reads_ret.
Qed.

(** ** The binders only read the state *)

Create HintDb reads discriminated.

Lemma reads_deref r : reads (deref r).
Proof. intros w. reflexivity. Qed.

Lemma reads_LookupEnv key : reads (os_LookupEnv key).
Proof. intros w. reflexivity. Qed.

Lemma reads_method ty : reads (method_UnmarshalText ty).
Proof. intros w. reflexivity. Qed.

Lemma reads_continue v : reads (continue v).
Proof. intros w. reflexivity. Qed.

Lemma reads_leave v res : reads (leave v res).
Proof. intros w. reflexivity. Qed.

#[local] Hint Resolve reads_ret reads_deref reads_LookupEnv reads_method
  reads_continue reads_leave : reads.

Ltac reads_step :=
  match goal with
  | |- reads (_ ≫= _) => apply reads_bind; [|intros ?]
  | |- reads (match ?x with _ => _ end) => destruct x
  | |- reads (if ?b then _ else _) => destruct b
  | |- reads (let '(_, _) := ?x in _) => destruct x
  end.

Ltac solve_reads := repeat (first [solve [eauto with reads] | reads_step]).

Lemma reads_lookup_aliases envPrefix keys :
  reads (lookup_aliases envPrefix keys).
Proof. induction keys as [|key keys IH]; simpl; solve_reads. Qed.

#[local] Hint Resolve reads_lookup_aliases : reads.

Lemma reads_lookup_leaf x envKey : reads (lookup_leaf x envKey).
Proof. unfold lookup_leaf. solve_reads. Qed.

Lemma reads_Taurus_setField r field fieldValue value :
  reads (Taurus_setField r field fieldValue value).
Proof. unfold Taurus_setField. solve_reads. Qed.

Lemma reads_Globals_setField field fieldValue value :
  reads (Globals.setField field fieldValue value).
Proof. unfold Globals.setField, Globals.vars. solve_reads. Qed.

Lemma reads_return_if_err call : reads (return_if_err call).
Proof. unfold return_if_err. solve_reads. Qed.

Lemma reads_return_field_err key set : reads (return_field_err key set).
Proof. unfold return_field_err. solve_reads. Qed.

#[local] Hint Resolve reads_lookup_leaf reads_Taurus_setField
  reads_Globals_setField reads_return_if_err reads_return_field_err : reads.

Lemma reads_Taurus_LoadEnv_body rec r prefix field fieldValue :
  (forall key, reads (rec key fieldValue)) ->
  reads (Taurus_LoadEnv_body rec r prefix field fieldValue).
Proof. intros Hrec. unfold Taurus_LoadEnv_body. solve_reads. Qed.

Lemma reads_Taurus_loadFlags_body rec r prefix field fieldValue :
  (forall path, reads (rec path fieldValue)) ->
  reads (Taurus_loadFlags_body rec r prefix field fieldValue).
Proof. intros Hrec. unfold Taurus_loadFlags_body. solve_reads. Qed.

Lemma reads_Globals_LoadEnv_body rec prefix field fieldValue :
  (forall key, reads (rec key fieldValue)) ->
  reads (Globals.LoadEnv_body rec prefix field fieldValue).
Proof. intros Hrec. unfold Globals.LoadEnv_body, Globals.vars. solve_reads. Qed.

Lemma reads_Globals_LoadFlags_body rec prefix field fieldValue :
  (forall path, reads (rec path fieldValue)) ->
  reads (Globals.LoadFlags_body rec prefix field fieldValue).
Proof. intros Hrec. unfold Globals.LoadFlags_body, Globals.vars. solve_reads. Qed.

Lemma reads_Taurus_LoadEnv v : forall r prefix, reads (Taurus_LoadEnv r prefix v).
Proof.
  induction v as [| | | | |ty fields IH|] using Value_nested_ind;
    intros r prefix; simpl; try apply reads_ret.
  apply reads_bind; [|intros [fields' res]; apply reads_ret].
  apply reads_for_fields. eapply Forall_impl; [exact IH|].
  intros [field fieldValue] H. simpl in *.
  apply reads_Taurus_LoadEnv_body. intros key. apply H.
Qed.

Lemma reads_Taurus_loadFlags v :
  forall r prefix, reads (Taurus_loadFlags r prefix v).
Proof.
  induction v as [| | | | |ty fields IH|] using Value_nested_ind;
    intros r prefix; simpl; try apply reads_ret.
  apply reads_bind; [|intros [fields' res]; apply reads_ret].
  apply reads_for_fields. eapply Forall_impl; [exact IH|].
  intros [field fieldValue] H. simpl in *.
  apply reads_Taurus_loadFlags_body. intros path. apply H.
Qed.

Lemma reads_Globals_LoadEnv v : forall prefix, reads (Globals.LoadEnv prefix v).
Proof.
  induction v as [| | | | |ty fields IH|] using Value_nested_ind;
    intros prefix; simpl; try apply reads_ret.
  apply reads_bind; [|intros [fields' res]; apply reads_ret].
  apply reads_for_fields. eapply Forall_impl; [exact IH|].
  intros [field fieldValue] H. simpl in *.
  apply reads_Globals_LoadEnv_body. intros key. apply H.
Qed.

Lemma reads_Globals_LoadFlags v :
  forall prefix, reads (Globals.LoadFlags prefix v).
Proof.
  induction v as [| | | | |ty fields IH|] using Value_nested_ind;
    intros prefix; simpl; try apply reads_ret.
  apply reads_bind; [|intros [fields' res]; apply reads_ret].
  apply reads_for_fields. eapply Forall_impl; [exact IH|].
  intros [field fieldValue] H. simpl in *.
  apply reads_Globals_LoadFlags_body. intros path. apply H.
Qed.

#[local] Hint Resolve reads_Taurus_LoadEnv reads_Taurus_loadFlags
  reads_Globals_LoadEnv reads_Globals_LoadFlags : reads.

Lemma run_bind_reads {A B : Type} (m : M A) (k : A -> M B) w :
  reads m -> run (m ≫= k) w = run (k (run m w)) w.
Proof. intros H. unfold run. rewrite run_bind by exact H. reflexivity. Qed.

Lemma run_LookupEnv key w : run (os_LookupEnv key) w = environ w !! key.
Proof. reflexivity. Qed.

Lemma run_deref_t w : run (deref t) w = default_t w.
Proof. reflexivity. Qed.

Section loop_facts.

Variable body : StructField -> Value -> M (Value * option outcome).
Hypothesis body_reads : forall field v, reads (body field v).

Lemma run_for_fields_cons field v rest w :
  run (for_fields body ((field, v) :: rest)) w =
    match run (body field v) w with
    | (v', None) =>
        let '(rest', res) := run (for_fields body rest) w in
        ((field, v') :: rest', res)
    | (v', Some res) => ((field, v') :: rest, res)
    end.
Proof.
  change (for_fields body ((field, v) :: rest))
    with (body field v ≫= fun '(v', stop) =>
            match stop with
            | None =>
                for_fields body rest ≫= fun '(rest', res) =>
                  mret ((field, v') :: rest', res)
            | Some res => mret ((field, v') :: rest, res)
            end).
  unfold run, mbind, M_bind.
  pose proof (body_reads field v w) as Hb.
  destruct (body field v w) as [[v' [res|]] w1]; simpl in Hb; subst w1;
    [reflexivity|].
  destruct (for_fields body rest w) as [[rest' res] w2]. reflexivity.
Qed.

(** The body never ends the call by returning nil from inside the loop. *)
Hypothesis body_stop :
  forall field v w v', run (body field v) w <> (v', Some (Returns None)).

(** The iteration on the field that follows [pre], once the fields of [pre]
    have been visited without ending the call. *)
Lemma for_fields_at pre field v post w pre' :
  run (for_fields body pre) w = (pre', Returns None) ->
  run (for_fields body (pre ++ (field, v) :: post)) w =
    match run (body field v) w with
    | (v', None) =>
        let '(post', res) := run (for_fields body post) w in
        (pre' ++ (field, v') :: post', res)
    | (v', Some res) => (pre' ++ (field, v') :: post, res)
    end.
Proof.
  revert pre'. induction pre as [|[f0 v0] pre IH]; intros pre'.
  - intros [= <-]. simpl app. apply run_for_fields_cons.
  - simpl app. rewrite !run_for_fields_cons.
    destruct (run (body f0 v0) w) as [v0' [res0|]] eqn:Hb.
    + intros [= <- ->]. exfalso. eapply body_stop. exact Hb.
    + destruct (run (for_fields body pre) w) as [pre1 res1] eqn:Hpre.
      intros [= <- ->]. rewrite (IH pre1 eq_refl).
      destruct (run (body field v) w) as [v' [res|]]; [reflexivity|].
      destruct (run (for_fields body post) w). reflexivity.
Qed.

(** The loop keeps the field descriptors, and a slot either is as it was or
    holds what the body left in it; after a call that returned nil every
    slot holds what the body left in it. *)
Lemma for_fields_lookup fields w fields' res i field v :
  run (for_fields body fields) w = (fields', res) ->
  fields !! i = Some (field, v) ->
  exists v', fields' !! i = Some (field, v') /\
    (v' = v \/ v' = fst (run (body field v) w)) /\
    (res = Returns None -> run (body field v) w = (v', None)).
Proof.
  revert fields' i. induction fields as [|[f0 v0] rest IH]; intros fields' i.
  - intros _ Hi. rewrite lookup_nil in Hi. discriminate.
  - rewrite run_for_fields_cons.
    destruct (run (body f0 v0) w) as [v0' [res0|]] eqn:Hb.
    + intros [= <- <-]. destruct i as [|i]; simpl.
      * intros [= <- <-]. exists v0'. split; [reflexivity|]. split.
        -- right. rewrite Hb. reflexivity.
        -- intros ->. exfalso. eapply body_stop. exact Hb.
      * intros Hi. exists v. split; [exact Hi|]. split; [left; reflexivity|].
        intros ->. exfalso. eapply body_stop. exact Hb.
    + destruct (run (for_fields body rest) w) as [rest' res'] eqn:Hrest.
      intros [= <- <-]. destruct i as [|i]; simpl.
      * intros [= <- <-]. exists v0'. split; [reflexivity|]. split.
        -- right. rewrite Hb. reflexivity.
        -- intros _. exact Hb.
      * intros Hi. apply (IH rest' i eq_refl Hi).
Qed.

(** The same for a binder that runs the loop on the fields of a struct. *)
Variable bind : Value -> M (Value * outcome).
Hypothesis bind_struct :
  forall ty fields w,
    run (bind (VStruct ty fields)) w =
      let '(fields', res) := run (for_fields body fields) w in
      (VStruct ty fields', res).

Lemma struct_at ty pre field v post w pre' :
  run (bind (VStruct ty pre)) w = (VStruct ty pre', Returns None) ->
  run (bind (VStruct ty (pre ++ (field, v) :: post))) w =
    match run (body field v) w with
    | (v', None) =>
        let '(p, res) := run (bind (VStruct ty post)) w in
        (VStruct ty (pre' ++ (field, v') :: fields_of p), res)
    | (v', Some res) => (VStruct ty (pre' ++ (field, v') :: post), res)
    end.
Proof.
  rewrite !bind_struct.
  destruct (run (for_fields body pre) w) as [pre1 res1] eqn:Hpre.
  intros [= -> ->]. rewrite (for_fields_at _ _ _ _ _ _ Hpre).
  destruct (run (body field v) w) as [v' [res|]]; [reflexivity|].
  destruct (run (for_fields body post) w). reflexivity.
Qed.

End loop_facts.

(** ** The loop bodies of the four binders *)

Lemma run_bind_neq {A B : Type} (m : M A) (k : A -> M B) w (y : B) :
  (forall x w', run (k x) w' <> y) -> run (m ≫= k) w <> y.
Proof.
  intros H. unfold run, mbind, M_bind. destruct (m w) as [x w']. apply H.
Qed.

Ltac stop_step :=
  match goal with
  | |- run (_ ≫= _) _ <> _ => apply run_bind_neq; intros ? ?
  | |- run (match ?x with _ => _ end) _ <> _ => destruct x
  | |- run (if ?b then _ else _) _ <> _ => destruct b
  | |- run (continue _) _ <> _ => discriminate
  | |- run (leave _ _) _ <> _ => discriminate
  end.

Lemma return_if_err_stop call w v' :
  run (return_if_err call) w <> (v', Some (Returns None)).
Proof. unfold return_if_err. repeat stop_step. Qed.

Lemma return_field_err_stop key set w v' :
  run (return_field_err key set) w <> (v', Some (Returns None)).
Proof. unfold return_field_err. repeat stop_step. Qed.

Ltac solve_stop :=
  repeat first [ apply return_if_err_stop | apply return_field_err_stop
               | stop_step ].

Lemma Taurus_LoadEnv_body_stop rec r prefix field v w v' :
  run (Taurus_LoadEnv_body rec r prefix field v) w <> (v', Some (Returns None)).
Proof. unfold Taurus_LoadEnv_body, Interface_panic. solve_stop. Qed.

Lemma Taurus_loadFlags_body_stop rec r prefix field v w v' :
  run (Taurus_loadFlags_body rec r prefix field v) w <> (v', Some (Returns None)).
Proof.
  unfold Taurus_loadFlags_body, Interface_panic, nil_dereference. solve_stop.
Qed.

Lemma Globals_LoadEnv_body_stop rec prefix field v w v' :
  run (Globals.LoadEnv_body rec prefix field v) w <> (v', Some (Returns None)).
Proof. unfold Globals.LoadEnv_body, Interface_panic. solve_stop. Qed.

Lemma Globals_LoadFlags_body_stop rec prefix field v w v' :
  run (Globals.LoadFlags_body rec prefix field v) w <> (v', Some (Returns None)).
Proof.
  unfold Globals.LoadFlags_body, Interface_panic, nil_dereference. solve_stop.
Qed.

(** The bodies as the binders run them. *)
Lemma reads_LoadEnv_body r prefix field v :
  reads (Taurus_LoadEnv_body (Taurus_LoadEnv t) r prefix field v).
Proof. apply reads_Taurus_LoadEnv_body. auto with reads. Qed.

Lemma reads_loadFlags_body r prefix field v :
  reads (Taurus_loadFlags_body (Taurus_loadFlags r) r prefix field v).
Proof. apply reads_Taurus_loadFlags_body. auto with reads. Qed.

Lemma reads_G_LoadEnv_body prefix field v :
  reads (Globals.LoadEnv_body Globals.LoadEnv prefix field v).
Proof. apply reads_Globals_LoadEnv_body. auto with reads. Qed.

Lemma reads_G_LoadFlags_body prefix field v :
  reads (Globals.LoadFlags_body Globals.LoadFlags prefix field v).
Proof. apply reads_Globals_LoadFlags_body. auto with reads. Qed.

(** What a binder does on a struct: the loop, then the struct with the
    slots the loop left. *)
Lemma run_Taurus_LoadEnv r prefix ty fields w :
  run (Taurus_LoadEnv r prefix (VStruct ty fields)) w =
    let '(fields', res) :=
      run (for_fields (Taurus_LoadEnv_body (Taurus_LoadEnv t) r prefix) fields) w in
    (VStruct ty fields', res).
Proof.
  change (Taurus_LoadEnv r prefix (VStruct ty fields))
    with (for_fields (Taurus_LoadEnv_body (Taurus_LoadEnv t) r prefix) fields
            ≫= fun '(fields', res) => mret (VStruct ty fields', res)).
  unfold run, mbind, M_bind.
  destruct (for_fields _ fields w) as [[fields' res] w']. reflexivity.
Qed.

Lemma run_Taurus_loadFlags r prefix ty fields w :
  run (Taurus_loadFlags r prefix (VStruct ty fields)) w =
    let '(fields', res) :=
      run (for_fields (Taurus_loadFlags_body (Taurus_loadFlags r) r prefix) fields) w in
    (VStruct ty fields', res).
Proof.
  change (Taurus_loadFlags r prefix (VStruct ty fields))
    with (for_fields (Taurus_loadFlags_body (Taurus_loadFlags r) r prefix) fields
            ≫= fun '(fields', res) => mret (VStruct ty fields', res)).
  unfold run, mbind, M_bind.
  destruct (for_fields _ fields w) as [[fields' res] w']. reflexivity.
Qed.

Lemma run_Globals_LoadEnv prefix ty fields w :
  run (Globals.LoadEnv prefix (VStruct ty fields)) w =
    let '(fields', res) :=
      run (for_fields (Globals.LoadEnv_body Globals.LoadEnv prefix) fields) w in
    (VStruct ty fields', res).
Proof.
  change (Globals.LoadEnv prefix (VStruct ty fields))
    with (for_fields (Globals.LoadEnv_body Globals.LoadEnv prefix) fields
            ≫= fun '(fields', res) => mret (VStruct ty fields', res)).
  unfold run, mbind, M_bind.
  destruct (for_fields _ fields w) as [[fields' res] w']. reflexivity.
Qed.

Lemma run_Globals_LoadFlags prefix ty fields w :
  run (Globals.LoadFlags prefix (VStruct ty fields)) w =
    let '(fields', res) :=
      run (for_fields (Globals.LoadFlags_body Globals.LoadFlags prefix) fields) w in
    (VStruct ty fields', res).
Proof.
  change (Globals.LoadFlags prefix (VStruct ty fields))
    with (for_fields (Globals.LoadFlags_body Globals.LoadFlags prefix) fields
            ≫= fun '(fields', res) => mret (VStruct ty fields', res)).
  unfold run, mbind, M_bind.
  destruct (for_fields _ fields w) as [[fields' res] w']. reflexivity.
Qed.

(** C9.  [LoadEnv] and [LoadFlags] change nothing but the record they are
    given: whatever the record, the environment and the registries, and
    whether the call returns nil, returns an error or panics, the state after
    the call (the default instance and the other instance with their prefix,
    expand-env setting, alias table, flag table and custom marshaler and
    unmarshaler tables, and the environment) is the state before it.  This
    holds for the methods on any receiver, for the package-level functions
    and for the binders of the earlier revision. *)
Theorem C9_binders_only_mutate_the_record :
  forall (r : Ref) (prefix : string) (v : Value) (w : World),
    snd (Taurus_LoadEnv r prefix v w) = w /\
    snd (Taurus_LoadFlags r v w) = w /\
    snd (LoadEnv prefix v w) = w /\
    snd (LoadFlags v w) = w /\
    snd (Globals.LoadEnv prefix v w) = w /\
    snd (Globals.LoadFlags prefix v w) = w.
Proof.
  intros r prefix v w. unfold Taurus_LoadFlags, LoadEnv, LoadFlags.
  repeat split.
  - apply reads_Taurus_LoadEnv.
  - apply reads_Taurus_loadFlags.
  - apply reads_Taurus_LoadEnv.
  - apply reads_Taurus_loadFlags.
  - apply reads_Globals_LoadEnv.
  - apply reads_Globals_LoadFlags.
Qed.

(** ** The bodies, as functions of the state they read *)

Lemma run_Taurus_setField r field v value w :
  run (Taurus_setField r field v value) w =
    match customUnmarshalers (run (deref r) w) !! Type_of v with
    | Some customUnmarshaler =>
        unmarshal_with customUnmarshaler "failed to unmarshal custom field: %v"
          v value
    | None =>
        match UnmarshalText w !! Type_of v with
        | Some unmarshaler =>
            unmarshal_with unmarshaler "failed to unmarshal field: %v" v value
        | None => setField_switch v value
        end
    end.
Proof.
  unfold Taurus_setField, run, mbind, M_bind, deref, method_UnmarshalText.
  simpl. destruct (customUnmarshalers _ !! _); [reflexivity|].
  destruct (UnmarshalText w !! _); reflexivity.
Qed.

Lemma run_setField_of a field v value w :
  run (setField_of a field v value) w =
    run (Taurus_setField (registry a) field v value) w.
Proof. destruct a; reflexivity. Qed.

Lemma run_Taurus_LoadEnv_body rec r prefix field v w :
  (forall key, reads (rec key v)) ->
  run (Taurus_LoadEnv_body rec r prefix field v) w =
    let envKey := Taurus_envKey prefix field in
    if bool_decide (Kind_of v = Struct) then
      if IsExported field then run (return_if_err (run (rec envKey v) w)) w
      else (v, Some Interface_panic)
    else if negb (CanSet field) then (v, None)
    else
      match run (lookup_leaf (run (deref r) w) envKey) w with
      | None => (v, None)
      | Some (key, envVal) =>
          run (return_field_err key (run (Taurus_setField r field v envVal) w)) w
      end.
Proof.
  intros Hrec. unfold Taurus_LoadEnv_body. cbv zeta.
  destruct (bool_decide (Kind_of v = Struct)).
  - destruct (IsExported field); [|reflexivity].
    rewrite run_bind_reads by apply Hrec. reflexivity.
  - destruct (negb (CanSet field)); [reflexivity|].
    rewrite run_bind_reads by auto with reads.
    rewrite run_bind_reads by auto with reads.
    destruct (run (lookup_leaf _ _) w) as [[key envVal]|]; [|reflexivity].
    rewrite run_bind_reads by auto with reads. reflexivity.
Qed.

Lemma run_Globals_LoadEnv_body rec prefix field v w :
  (forall key, reads (rec key v)) ->
  run (Globals.LoadEnv_body rec prefix field v) w =
    let envKey := Globals.envKey_of prefix field in
    if bool_decide (Kind_of v = Struct) then
      if IsExported field then run (return_if_err (run (rec envKey v) w)) w
      else (v, Some Interface_panic)
    else if negb (CanSet field) then (v, None)
    else
      match run (lookup_leaf (run (deref t) w) envKey) w with
      | None => (v, None)
      | Some (key, envVal) =>
          run (return_field_err key (run (Taurus_setField t field v envVal) w)) w
      end.
Proof.
  intros Hrec. unfold Globals.LoadEnv_body, Globals.vars. cbv zeta.
  destruct (bool_decide (Kind_of v = Struct)).
  - destruct (IsExported field); [|reflexivity].
    rewrite run_bind_reads by apply Hrec. reflexivity.
  - destruct (negb (CanSet field)); [reflexivity|].
    rewrite run_bind_reads by auto with reads.
    rewrite run_bind_reads by auto with reads.
    destruct (run (lookup_leaf _ _) w) as [[key envVal]|]; [|reflexivity].
    rewrite run_bind_reads by auto with reads. reflexivity.
Qed.

Lemma run_Taurus_loadFlags_body rec r prefix field v w :
  (forall path, reads (rec path v)) ->
  run (Taurus_loadFlags_body rec r prefix field v) w =
    let fieldPath := fieldPath_of prefix field in
    if bool_decide (Kind_of v = Struct) then
      if IsExported field then run (return_if_err (run (rec fieldPath v) w)) w
      else (v, Some Interface_panic)
    else if negb (CanSet field) then (v, None)
    else
      match flags (run (deref r) w) !! fieldPath with
      | None => (v, None)
      | Some None => (v, Some nil_dereference)
      | Some (Some fl) =>
          if negb (Changed fl) then (v, None)
          else
            run (return_field_err fieldPath
                   (run (Taurus_setField r field v (Value_String fl)) w)) w
      end.
Proof.
  intros Hrec. unfold Taurus_loadFlags_body. cbv zeta.
  destruct (bool_decide (Kind_of v = Struct)).
  - destruct (IsExported field); [|reflexivity].
    rewrite run_bind_reads by apply Hrec. reflexivity.
  - destruct (negb (CanSet field)); [reflexivity|].
    rewrite run_bind_reads by auto with reads.
    destruct (flags _ !! _) as [[fl|]|]; try reflexivity.
    destruct (negb (Changed fl)); [reflexivity|].
    rewrite run_bind_reads by auto with reads. reflexivity.
Qed.

Lemma run_return_if_err call w :
  run (return_if_err call) w =
    match call with
    | (v', Returns None) => (v', None)
    | (v', res) => (v', Some res)
    end.
Proof. destruct call as [v' [[e|]|msg]]; reflexivity. Qed.

Lemma run_return_field_err key set w :
  run (return_field_err key set) w =
    match set with
    | (v', Some err) =>
        (v', Some (Returns (Some (Errorf "error setting field for %s: %v"
                                    [ArgString key; ArgError err]))))
    | (v', None) => (v', None)
    end.
Proof. destruct set as [v' [e|]]; reflexivity. Qed.

(** ** The converter *)

Lemma setField_switch_unsupported v value :
  Kind_of v ∉ builtin_kinds ->
  setField_switch v value =
    (v, Some (Errorf "unsupported field type: %s" [ArgKind (Kind_of v)])).
Proof.
  intros H. destruct v as [| ty [] | ty [] | ty [] | | |]; try reflexivity;
    exfalso; apply H; unfold builtin_kinds; simpl;
    repeat first [apply list_elem_of_here | apply list_elem_of_further].
Qed.

(** C2.  [setField] picks the conversion in a fixed order.  A custom
    unmarshaler registered for the type of the field is run, whatever native
    [UnmarshalText] the type has (so with both, the custom one is the one
    that runs), and its error comes back as "failed to unmarshal custom
    field"; with no custom unmarshaler, the type's [UnmarshalText] is run,
    its error coming back as "failed to unmarshal field"; with neither, the
    built-in conversion of the kind is made: a string field takes the text
    as it is, a signed, unsigned, floating-point or boolean field the value
    [strconv] parses from it (at 64 bits, narrowed to the field), or is left
    as it was with the error "invalid int", "invalid uint", "invalid float"
    or "invalid bool" around the one of the parser; and a field of any other
    kind, and only such a field, is refused with "unsupported field type"
    and its kind.  [setField] of the earlier revision is the same function
    of the package-level tables. *)
Theorem C2_setField_resolution_order :
  forall (r : Ref) (field : StructField) (v : Value) (value : string) (w : World),
    let custom := customUnmarshalers (run (deref r) w) !! Type_of v in
    let native := UnmarshalText w !! Type_of v in
    let res := run (Taurus_setField r field v value) w in
    let invalid (format : string) (err : error) :=
      (v, Some (Errorf format [ArgError err])) in
    (forall customUnmarshaler, custom = Some customUnmarshaler ->
       res = unmarshal_with customUnmarshaler
               "failed to unmarshal custom field: %v" v value /\
       res = (fst (customUnmarshaler v value),
              (fun e => Errorf "failed to unmarshal custom field: %v" [ArgError e])
                <$> snd (customUnmarshaler v value))) /\
    (custom = None -> forall unmarshaler, native = Some unmarshaler ->
       res = unmarshal_with unmarshaler "failed to unmarshal field: %v" v value /\
       res = (fst (unmarshaler v value),
              (fun e => Errorf "failed to unmarshal field: %v" [ArgError e])
                <$> snd (unmarshaler v value))) /\
    (custom = None -> native = None -> res = setField_switch v value) /\
    (custom = None -> native = None ->
     (forall ty s, v = VString ty s -> res = (VString ty value, None)) /\
     (forall ty wd n, v = VInt ty wd n ->
        res = match strconv.ParseInt value 64 with
              | (val, None) => (VInt ty wd (wrap_int wd val), None)
              | (_, Some err) => invalid "invalid int: %v" err
              end) /\
     (forall ty wd n, v = VUint ty wd n ->
        res = match strconv.ParseUint value 64 with
              | (val, None) => (VUint ty wd (wrap_uint wd val), None)
              | (_, Some err) => invalid "invalid uint: %v" err
              end) /\
     (forall ty wd f, v = VFloat ty wd f ->
        res = match strconv.ParseFloat value 64 with
              | (val, None) =>
                  (VFloat ty wd (match wd with
                                 | F32 => strconv.float32_of val
                                 | F64 => val
                                 end), None)
              | (_, Some err) => invalid "invalid float: %v" err
              end) /\
     (forall ty b, v = VBool ty b ->
        res = match strconv.ParseBool value with
              | (val, None) => (VBool ty val, None)
              | (_, Some err) => invalid "invalid bool: %v" err
              end)) /\
    (custom = None -> native = None -> Kind_of v ∉ builtin_kinds ->
       res = (v, Some (Errorf "unsupported field type: %s" [ArgKind (Kind_of v)]))) /\
    (custom = None -> native = None -> Kind_of v ∈ builtin_kinds ->
       forall k, snd res <> Some (Errorf "unsupported field type: %s" [ArgKind k])) /\
    Globals.setField field v value w = Taurus_setField t field v value w.
Proof.
  intros r field v value w custom native res invalid.
  subst custom native res invalid. cbv beta.
  rewrite run_Taurus_setField.
  split; [|split; [|split; [|split; [|split; [|split]]]]].
  - intros cu ->. unfold unmarshal_with. destruct (cu v value). auto.
  - intros -> um ->. unfold unmarshal_with. destruct (um v value). auto.
  - intros -> ->. reflexivity.
  - intros -> ->. repeat split; intros; subst v; cbn [setField_switch].
    + reflexivity.
    + destruct (strconv.ParseInt value 64) as [val [err|]]; reflexivity.
    + destruct (strconv.ParseUint value 64) as [val [err|]]; reflexivity.
    + destruct (strconv.ParseFloat value 64) as [val [err|]]; reflexivity.
    + destruct (strconv.ParseBool value) as [val [err|]]; reflexivity.
  - intros -> -> Hk. apply setField_switch_unsupported, Hk.
  - intros -> -> Hk k.
    destruct v as [ty b|ty wd n|ty wd n|ty wd f|ty s|ty fields|ty k0 repr];
      cbn [setField_switch].
    + destruct (strconv.ParseBool value) as [val [err|]]; discriminate.
    + destruct (strconv.ParseInt value 64) as [val [err|]]; discriminate.
    + destruct (strconv.ParseUint value 64) as [val [err|]]; discriminate.
    + destruct (strconv.ParseFloat value 64) as [val [err|]]; discriminate.
    + discriminate.
    + exfalso. apply list_elem_of_In in Hk. simpl in Hk.
      repeat (destruct Hk as [Hk|Hk]; [discriminate|]). exact Hk.
    + exfalso. apply list_elem_of_In in Hk. simpl in Hk.
      destruct k0; repeat (destruct Hk as [Hk|Hk]; [discriminate|]); exact Hk.
  - reflexivity.
Qed.

Lemma C2_custom_wins_and_int_is_parsed :
  run (Taurus_setField t (exported "Level") (VString "main.Level" "") "debug")
      level_world
    = (VString "main.Level" "custom:debug", None) /\
  run (Taurus_setField t (exported "Port") (VInt "int" WInt 0) "8080") level_world
    = (VInt "int" WInt 8080, None).
Proof.
  exact (conj
           (proj2 (proj1 (C2_setField_resolution_order t (exported "Level")
                            (VString "main.Level" "") "debug" level_world)
                     Level_custom eq_refl))
           (proj1 (proj2 (proj1 (proj2 (proj2 (proj2
                     (C2_setField_resolution_order t (exported "Port")
                        (VInt "int" WInt 0) "8080" level_world))))
                     eq_refl eq_refl))
              "int" WInt 0 eq_refl)).
Defined.

(** ** Signed integers *)

Lemma ParseUint_loop_bounds maxVal s n v :
  0 <= n <= maxVal -> strconv.ParseUint_loop maxVal s n = inl v ->
  0 <= v <= maxVal.
Proof.
  revert n. induction s as [|c s IH]; intros n Hn; simpl.
  - intros [= <-]. exact Hn.
  - destruct (negb (strconv.is_digit c)); [discriminate|].
    destruct (strconv.maxUint64 / 10 + 1 <=? n); [discriminate|].
    destruct ((_ <? _) || (_ <? _)) eqn:Hov; [discriminate|].
    apply orb_false_iff in Hov as [_ Hmax]. apply Z.ltb_ge in Hmax.
    apply IH. split; [|exact Hmax]. apply Z.mod_pos_bound. lia.
Qed.

Lemma ParseUint_loop_mono maxVal maxVal' s n v :
  maxVal <= maxVal' -> strconv.ParseUint_loop maxVal s n = inl v ->
  strconv.ParseUint_loop maxVal' s n = inl v.
Proof.
  intros Hle. revert n. induction s as [|c s IH]; intros n; simpl; [auto|].
  destruct (negb (strconv.is_digit c)); [discriminate|].
  destruct (strconv.maxUint64 / 10 + 1 <=? n); [discriminate|].
  destruct ((_ <? _) || (_ <? _)) eqn:Hov; [discriminate|].
  apply orb_false_iff in Hov as [Hwrap Hmax]. apply Z.ltb_ge in Hmax.
  rewrite Hwrap. simpl.
  replace (maxVal' <? _) with false by (symmetry; apply Z.ltb_ge; lia).
  apply IH.
Qed.

Lemma bits_range w : 8 <= bits w <= 64.
Proof. destruct w; unfold bits, strconv.IntSize; lia. Qed.

Lemma parseUint_narrow w s un :
  strconv.parseUint s (bits w) = (un, None) ->
  strconv.parseUint s 64 = (un, None) /\ 0 <= un <= 2 ^ bits w - 1.
Proof.
  pose proof (bits_range w) as Hb.
  assert (2 ^ bits w <= 2 ^ 64) as Hpow by (apply Z.pow_le_mono_r; lia).
  assert (0 < 2 ^ bits w) as Hpos by (apply Z.pow_pos_nonneg; lia).
  unfold strconv.parseUint. destruct s as [|c s]; [discriminate|].
  destruct (strconv.ParseUint_loop (2 ^ bits w - 1) _ 0) as [n|[|]] eqn:Hloop;
    try discriminate.
  intros [= ->]. split.
  - pose proof Hloop as Hloop'.
    apply ParseUint_loop_mono with (maxVal' := 2 ^ 64 - 1) in Hloop; [|lia].
    rewrite Hloop. reflexivity.
  - eapply ParseUint_loop_bounds; [|exact Hloop]. lia.
Qed.

Lemma wrap_int_small w n :
  - 2 ^ (bits w - 1) <= n < 2 ^ (bits w - 1) -> wrap_int w n = n.
Proof.
  intros Hn. unfold wrap_int.
  assert (2 ^ bits w = 2 * 2 ^ (bits w - 1)) as Hpow.
  { pose proof (bits_range w).
    replace (bits w) with (Z.succ (bits w - 1)) at 1 by lia.
    apply Z.pow_succ_r. lia. }
  rewrite Z.mod_small by lia. lia.
Qed.

(** A text that [ParseInt] accepts at the width of the field is accepted at
    64 bits with the same value, which the narrowing leaves as it is. *)
Lemma ParseInt_narrow w s n :
  strconv.ParseInt s (bits w) = (n, None) ->
  strconv.ParseInt s 64 = (n, None) /\ wrap_int w n = n.
Proof.
  pose proof (bits_range w) as Hb.
  assert (2 ^ (bits w - 1) <= 2 ^ 63) as Hpow by (apply Z.pow_le_mono_r; lia).
  assert (2 ^ bits w = 2 * 2 ^ (bits w - 1)) as Hdbl.
  { replace (bits w) with (Z.succ (bits w - 1)) at 1 by lia.
    apply Z.pow_succ_r. lia. }
  assert (2 ^ 1 <= 2 ^ (bits w - 1)) as Hpos by (apply Z.pow_le_mono_r; lia).
  change (2 ^ 1) with 2 in Hpos.
  unfold strconv.ParseInt. destruct s as [|c rest]; [discriminate|].
  set (neg := Ascii.eqb c "-").
  set (s := if Ascii.eqb c "+" || neg then rest else String c rest).
  destruct (strconv.parseUint s (bits w)) as [un err] eqn:Hun.
  destruct err as [[|]|].
  - (* ParseUint ran out of range: its value is the largest of the width *)
    assert (un = 2 ^ bits w - 1) as ->.
    { unfold strconv.parseUint in Hun. destruct s; [discriminate|].
      destruct (strconv.ParseUint_loop _ _ 0) as [?|[|]]; congruence. }
    destruct neg; simpl.
    + replace (2 ^ (bits w - 1) <? 2 ^ bits w - 1) with true
        by (symmetry; apply Z.ltb_lt; lia).
      discriminate.
    + replace (2 ^ (bits w - 1) <=? 2 ^ bits w - 1) with true
        by (symmetry; apply Z.leb_le; lia).
      discriminate.
  - discriminate.
  - apply parseUint_narrow in Hun as [-> Hrange].
    change (64 - 1) with 63.
    destruct neg; simpl.
    + destruct (2 ^ (bits w - 1) <? un) eqn:Hc; [discriminate|].
      apply Z.ltb_ge in Hc. intros [= <-].
      replace (2 ^ 63 <? un) with false by (symmetry; apply Z.ltb_ge; lia).
      split; [reflexivity|]. apply wrap_int_small. lia.
    + destruct (2 ^ (bits w - 1) <=? un) eqn:Hc; [discriminate|].
      apply Z.leb_gt in Hc. intros [= <-].
      replace (2 ^ 63 <=? un) with false by (symmetry; apply Z.leb_gt; lia).
      split; [reflexivity|]. apply wrap_int_small. lia.
Qed.

(** C5, as the code has it.  On a signed integer field of any width whose
    type has neither a custom unmarshaler nor an [UnmarshalText], the text is
    parsed as a base-10 [int64] and the value is narrowed to the width of the
    field.  So a text that is valid for the field's own type is stored as
    that type parses it; any text that is a valid [int64] is stored narrowed
    (wrapped around when it does not fit) and no error is returned; and the
    call fails, with "invalid int" and the parse error, exactly when the text
    is no valid [int64], the slot being left as it was. *)
Theorem C5_int_parsed_at_64_bits_then_narrowed :
  forall (a : Api) (field : StructField) (ty : string) (w : Width) (old : Z)
         (s : string) (world : World),
    customUnmarshalers (run (deref (registry a)) world) !! ty = None ->
    UnmarshalText world !! ty = None ->
    let res := run (setField_of a field (VInt ty w old) s) world in
    (forall n, strconv.ParseInt s (bits w) = (n, None) ->
       res = (VInt ty w n, None)) /\
    (forall n, strconv.ParseInt s 64 = (n, None) ->
       res = (VInt ty w (wrap_int w n), None)) /\
    (forall n err, strconv.ParseInt s 64 = (n, Some err) ->
       res = (VInt ty w old, Some (Errorf "invalid int: %v" [ArgError err]))).
Proof.
  intros a field ty w old s world Hcustom Hnative res. subst res.
  rewrite run_setField_of, run_Taurus_setField. simpl Type_of.
  rewrite Hcustom, Hnative.
  unfold setField_switch. repeat split.
  - intros n Hn. apply ParseInt_narrow in Hn as [-> ->]. reflexivity.
  - intros n ->. reflexivity.
  - intros n err ->. reflexivity.
Qed.

Lemma C5_int16_in_range :
  run (Taurus_setField t (exported "Delta") (VInt "int16" W16 0) "-32768") world0
  = (VInt "int16" W16 (-32768), None).
Proof.
  exact (proj1 (C5_int_parsed_at_64_bits_then_narrowed (MethodsOf t)
                  (exported "Delta") "int16" W16 0 "-32768" world0
                  eq_refl eq_refl)
           (-32768) eq_refl).
Defined.

(** "300" is out of range for an [int8]: parsing it as an [int8] is a range
    error, yet [setField] returns nil and stores 300 wrapped around, 44. *)
Lemma C5_out_of_range_is_truncated :
  snd (strconv.ParseInt "300" (bits W8))
    = Some (strconv.rangeError "ParseInt" "300") /\
  run (Taurus_setField t (exported "Level") (VInt "int8" W8 0) "300") world0
    = (VInt "int8" W8 44, None) /\
  run (Globals.setField (exported "Level") (VInt "int8" W8 0) "300") world0
    = (VInt "int8" W8 44, None).
Proof. repeat split; vm_compute; reflexivity. Qed.

(** ** The scenario of the specification *)

(** With the alias registered under [HOST], the lookup for the field [Host]
    of [Server] asks the alias table for [SERVER_HOST] and finds nothing:
    [Port] is bound, [Host] is left as it was. *)
Lemma C1_alias_under_HOST_is_not_found :
  run (scenario "HOST" (server_cfg 0 "")) c1_world
    = (server_cfg 8080 "", Returns None) /\
  run (Globals_scenario "HOST" (server_cfg 0 "")) c1_world
    = (server_cfg 8080 "", Returns None) /\
  server_cfg 8080 "" <> server_cfg 8080 "example.com".
Proof. repeat split; try (vm_compute; reflexivity). discriminate. Qed.

(** ** One field at a time

    What each binder does at the field that follows [pre], once the fields
    of [pre] have been bound without ending the call. *)

Lemma Taurus_LoadEnv_at r prefix ty pre field v post w pre' :
  run (Taurus_LoadEnv r prefix (VStruct ty pre)) w
    = (VStruct ty pre', Returns None) ->
  run (Taurus_LoadEnv r prefix (VStruct ty (pre ++ (field, v) :: post))) w =
    match run (Taurus_LoadEnv_body (Taurus_LoadEnv t) r prefix field v) w with
    | (v', None) =>
        let '(p, res) := run (Taurus_LoadEnv r prefix (VStruct ty post)) w in
        (VStruct ty (pre' ++ (field, v') :: fields_of p), res)
    | (v', Some res) => (VStruct ty (pre' ++ (field, v') :: post), res)
    end.
Proof.
  apply (struct_at _ (reads_LoadEnv_body r prefix)
           (Taurus_LoadEnv_body_stop _ r prefix) _ (run_Taurus_LoadEnv r prefix)).
Qed.

Lemma Taurus_loadFlags_at r prefix ty pre field v post w pre' :
  run (Taurus_loadFlags r prefix (VStruct ty pre)) w
    = (VStruct ty pre', Returns None) ->
  run (Taurus_loadFlags r prefix (VStruct ty (pre ++ (field, v) :: post))) w =
    match run (Taurus_loadFlags_body (Taurus_loadFlags r) r prefix field v) w with
    | (v', None) =>
        let '(p, res) := run (Taurus_loadFlags r prefix (VStruct ty post)) w in
        (VStruct ty (pre' ++ (field, v') :: fields_of p), res)
    | (v', Some res) => (VStruct ty (pre' ++ (field, v') :: post), res)
    end.
Proof.
  apply (struct_at _ (reads_loadFlags_body r prefix)
           (Taurus_loadFlags_body_stop _ r prefix) _
           (run_Taurus_loadFlags r prefix)).
Qed.

Lemma Globals_LoadEnv_at prefix ty pre field v post w pre' :
  run (Globals.LoadEnv prefix (VStruct ty pre)) w
    = (VStruct ty pre', Returns None) ->
  run (Globals.LoadEnv prefix (VStruct ty (pre ++ (field, v) :: post))) w =
    match run (Globals.LoadEnv_body Globals.LoadEnv prefix field v) w with
    | (v', None) =>
        let '(p, res) := run (Globals.LoadEnv prefix (VStruct ty post)) w in
        (VStruct ty (pre' ++ (field, v') :: fields_of p), res)
    | (v', Some res) => (VStruct ty (pre' ++ (field, v') :: post), res)
    end.
Proof.
  apply (struct_at _ (reads_G_LoadEnv_body prefix)
           (Globals_LoadEnv_body_stop _ prefix) _ (run_Globals_LoadEnv prefix)).
Qed.

Lemma Globals_LoadFlags_at prefix ty pre field v post w pre' :
  run (Globals.LoadFlags prefix (VStruct ty pre)) w
    = (VStruct ty pre', Returns None) ->
  run (Globals.LoadFlags prefix (VStruct ty (pre ++ (field, v) :: post))) w =
    match run (Globals.LoadFlags_body Globals.LoadFlags prefix field v) w with
    | (v', None) =>
        let '(p, res) := run (Globals.LoadFlags prefix (VStruct ty post)) w in
        (VStruct ty (pre' ++ (field, v') :: fields_of p), res)
    | (v', Some res) => (VStruct ty (pre' ++ (field, v') :: post), res)
    end.
Proof.
  apply (struct_at _ (reads_G_LoadFlags_body prefix)
           (Globals_LoadFlags_body_stop _ prefix) _ (run_Globals_LoadFlags prefix)).
Qed.

Lemma run_LoadEnv_body r prefix field v w :
  run (Taurus_LoadEnv_body (Taurus_LoadEnv t) r prefix field v) w =
    let envKey := Taurus_envKey prefix field in
    if bool_decide (Kind_of v = Struct) then
      if IsExported field then
        run (return_if_err (run (LoadEnv envKey v) w)) w
      else (v, Some Interface_panic)
    else if negb (CanSet field) then (v, None)
    else
      match run (lookup_leaf (run (deref r) w) envKey) w with
      | None => (v, None)
      | Some (key, envVal) =>
          run (return_field_err key (run (Taurus_setField r field v envVal) w)) w
      end.
Proof.
  apply run_Taurus_LoadEnv_body. intros key. apply reads_Taurus_LoadEnv.
Qed.

Lemma run_G_LoadEnv_body prefix field v w :
  run (Globals.LoadEnv_body Globals.LoadEnv prefix field v) w =
    let envKey := Globals.envKey_of prefix field in
    if bool_decide (Kind_of v = Struct) then
      if IsExported field then
        run (return_if_err (run (Globals.LoadEnv envKey v) w)) w
      else (v, Some Interface_panic)
    else if negb (CanSet field) then (v, None)
    else
      match run (lookup_leaf (run (deref t) w) envKey) w with
      | None => (v, None)
      | Some (key, envVal) =>
          run (return_field_err key (run (Taurus_setField t field v envVal) w)) w
      end.
Proof. apply run_Globals_LoadEnv_body. auto with reads. Qed.

Lemma run_loadFlags_body r prefix field v w :
  run (Taurus_loadFlags_body (Taurus_loadFlags r) r prefix field v) w =
    let fieldPath := fieldPath_of prefix field in
    if bool_decide (Kind_of v = Struct) then
      if IsExported field then
        run (return_if_err (run (Taurus_loadFlags r fieldPath v) w)) w
      else (v, Some Interface_panic)
    else if negb (CanSet field) then (v, None)
    else
      match flags (run (deref r) w) !! fieldPath with
      | None => (v, None)
      | Some None => (v, Some nil_dereference)
      | Some (Some fl) =>
          if negb (Changed fl) then (v, None)
          else
            run (return_field_err fieldPath
                   (run (Taurus_setField r field v (Value_String fl)) w)) w
      end.
Proof. apply run_Taurus_loadFlags_body. auto with reads. Qed.

Lemma run_G_LoadFlags_body prefix field v w :
  run (Globals.LoadFlags_body Globals.LoadFlags prefix field v) w =
    let fieldPath := fieldPath_of prefix field in
    if bool_decide (Kind_of v = Struct) then
      if IsExported field then
        run (return_if_err (run (Globals.LoadFlags fieldPath v) w)) w
      else (v, Some Interface_panic)
    else if negb (CanSet field) then (v, None)
    else
      match flags (run (deref t) w) !! fieldPath with
      | None => (v, None)
      | Some None => (v, Some nil_dereference)
      | Some (Some fl) =>
          if negb (Changed fl) then (v, None)
          else
            run (return_field_err fieldPath
                   (run (Taurus_setField t field v (Value_String fl)) w)) w
      end.
Proof.
  change (Globals.LoadFlags_body Globals.LoadFlags prefix field v)
    with (Taurus_loadFlags_body Globals.LoadFlags t prefix field v).
  apply run_Taurus_loadFlags_body. auto with reads.
Qed.

(** [LoadEnv] at the field that follows [pre]. *)
Lemma LoadEnv_of_at a prefix ty pre field v post w pre' :
  run (LoadEnv_of a prefix (VStruct ty pre)) w
    = (VStruct ty pre', Returns None) ->
  run (LoadEnv_of a prefix (VStruct ty (pre ++ (field, v) :: post))) w =
    let envKey := envKey_in a prefix field in
    let go_on v' :=
      let '(p, res) := run (LoadEnv_of a prefix (VStruct ty post)) w in
      (VStruct ty (pre' ++ (field, v') :: fields_of p), res) in
    let stop v' res := (VStruct ty (pre' ++ (field, v') :: post), res) in
    if bool_decide (Kind_of v = Struct) then
      if IsExported field then
        match run (nested_LoadEnv a envKey v) w with
        | (v', Returns None) => go_on v'
        | (v', res) => stop v' res
        end
      else stop v Interface_panic
    else if negb (CanSet field) then go_on v
    else
      match run (lookup_leaf (run (deref (registry a)) w) envKey) w with
      | None => go_on v
      | Some (key, envVal) =>
          match run (setField_of a field v envVal) w with
          | (v', Some err) =>
              stop v' (Returns (Some (Errorf "error setting field for %s: %v"
                                        [ArgString key; ArgError err])))
          | (v', None) => go_on v'
          end
      end.
Proof.
  intros Hpre. cbv zeta.
  destruct a as [r|]; cbv beta iota delta [LoadEnv_of] in *.
  - rewrite (Taurus_LoadEnv_at _ _ _ _ _ _ _ _ _ Hpre), run_LoadEnv_body.
    cbv zeta. simpl.
    destruct (bool_decide (Kind_of v = Struct)).
    + destruct (IsExported field); [|reflexivity].
      rewrite run_return_if_err.
      destruct (run (LoadEnv _ v) w) as [v' [[e|]|msg]]; reflexivity.
    + destruct (negb (CanSet field)); [reflexivity|].
      destruct (run (lookup_leaf _ _) w) as [[key envVal]|]; [|reflexivity].
      rewrite run_return_field_err.
      destruct (run (Taurus_setField r field v envVal) w) as [v' [e|]];
        reflexivity.
  - rewrite (Globals_LoadEnv_at _ _ _ _ _ _ _ _ Hpre), run_G_LoadEnv_body.
    cbv zeta. simpl.
    destruct (bool_decide (Kind_of v = Struct)).
    + destruct (IsExported field); [|reflexivity].
      rewrite run_return_if_err.
      destruct (run (Globals.LoadEnv _ v) w) as [v' [[e|]|msg]]; reflexivity.
    + destruct (negb (CanSet field)); [reflexivity|].
      destruct (run (lookup_leaf _ _) w) as [[key envVal]|]; [|reflexivity].
      rewrite run_return_field_err.
      change (Globals.setField field v envVal)
        with (Taurus_setField t field v envVal).
      destruct (run (Taurus_setField t field v envVal) w) as [v' [e|]];
        reflexivity.
Qed.

(** [loadFlags] at the field that follows [pre]. *)
Lemma loadFlags_of_at a prefix ty pre field v post w pre' :
  run (loadFlags_of a prefix (VStruct ty pre)) w
    = (VStruct ty pre', Returns None) ->
  run (loadFlags_of a prefix (VStruct ty (pre ++ (field, v) :: post))) w =
    let fieldPath := fieldPath_of prefix field in
    let go_on v' :=
      let '(p, res) := run (loadFlags_of a prefix (VStruct ty post)) w in
      (VStruct ty (pre' ++ (field, v') :: fields_of p), res) in
    let stop v' res := (VStruct ty (pre' ++ (field, v') :: post), res) in
    if bool_decide (Kind_of v = Struct) then
      if IsExported field then
        match run (loadFlags_of a fieldPath v) w with
        | (v', Returns None) => go_on v'
        | (v', res) => stop v' res
        end
      else stop v Interface_panic
    else if negb (CanSet field) then go_on v
    else
      match flags (run (deref (registry a)) w) !! fieldPath with
      | None => go_on v
      | Some None => stop v nil_dereference
      | Some (Some fl) =>
          if negb (Changed fl) then go_on v
          else
            match run (setField_of a field v (Value_String fl)) w with
            | (v', Some err) =>
                stop v' (Returns (Some (Errorf "error setting field for %s: %v"
                                          [ArgString fieldPath; ArgError err])))
            | (v', None) => go_on v'
            end
      end.
Proof.
  intros Hpre. cbv zeta.
  destruct a as [r|]; cbv beta iota delta [loadFlags_of] in *.
  - rewrite (Taurus_loadFlags_at _ _ _ _ _ _ _ _ _ Hpre), run_loadFlags_body.
    cbv zeta. simpl.
    destruct (bool_decide (Kind_of v = Struct)).
    + destruct (IsExported field); [|reflexivity].
      rewrite run_return_if_err.
      destruct (run (Taurus_loadFlags r _ v) w) as [v' [[e|]|msg]]; reflexivity.
    + destruct (negb (CanSet field)); [reflexivity|].
      destruct (flags _ !! _) as [[fl|]|]; try reflexivity.
      destruct (negb (Changed fl)); [reflexivity|].
      rewrite run_return_field_err.
      destruct (run (Taurus_setField r field v _) w) as [v' [e|]]; reflexivity.
  - rewrite (Globals_LoadFlags_at _ _ _ _ _ _ _ _ Hpre), run_G_LoadFlags_body.
    cbv zeta. simpl.
    destruct (bool_decide (Kind_of v = Struct)).
    + destruct (IsExported field); [|reflexivity].
      rewrite run_return_if_err.
      destruct (run (Globals.LoadFlags _ v) w) as [v' [[e|]|msg]]; reflexivity.
    + destruct (negb (CanSet field)); [reflexivity|].
      destruct (flags _ !! _) as [[fl|]|]; try reflexivity.
      destruct (negb (Changed fl)); [reflexivity|].
      rewrite run_return_field_err.
      change (Globals.setField field v (Value_String fl))
        with (Taurus_setField t field v (Value_String fl)).
      destruct (run (Taurus_setField t field v _) w) as [v' [e|]]; reflexivity.
Qed.

(** ** The scenario, in any state that fits it *)

Lemma LoadEnv_of_cons a prefix ty field v post w :
  run (LoadEnv_of a prefix (VStruct ty ((field, v) :: post))) w =
    let envKey := envKey_in a prefix field in
    let go_on v' :=
      let '(p, res) := run (LoadEnv_of a prefix (VStruct ty post)) w in
      (VStruct ty ((field, v') :: fields_of p), res) in
    let stop v' res := (VStruct ty ((field, v') :: post), res) in
    if bool_decide (Kind_of v = Struct) then
      if IsExported field then
        match run (nested_LoadEnv a envKey v) w with
        | (v', Returns None) => go_on v'
        | (v', res) => stop v' res
        end
      else stop v Interface_panic
    else if negb (CanSet field) then go_on v
    else
      match run (lookup_leaf (run (deref (registry a)) w) envKey) w with
      | None => go_on v
      | Some (key, envVal) =>
          match run (setField_of a field v envVal) w with
          | (v', Some err) =>
              stop v' (Returns (Some (Errorf "error setting field for %s: %v"
                                        [ArgString key; ArgError err])))
          | (v', None) => go_on v'
          end
      end.
Proof.
  apply (LoadEnv_of_at a prefix ty [] field v post w []).
  destruct a; reflexivity.
Qed.

Lemma run_lookup_leaf x envKey w :
  run (lookup_leaf x envKey) w =
    match environ w !! envKey with
    | Some envVal => Some (envKey, envVal)
    | None =>
        run (lookup_aliases (envPrefix x)
               (default []
                  (envAliases x !! strings.TrimPrefix envKey (envPrefix x +:+ "_"))))
          w
    end.
Proof.
  unfold lookup_leaf. rewrite run_bind_reads by auto with reads.
  rewrite run_LookupEnv. destruct (environ w !! envKey); reflexivity.
Qed.

Lemma run_lookup_aliases_cons envPrefix key keys w :
  run (lookup_aliases envPrefix (key :: keys)) w =
    match environ w !! (envPrefix +:+ "_" +:+ key) with
    | Some envVal => Some (envPrefix +:+ "_" +:+ key, envVal)
    | None => run (lookup_aliases envPrefix keys) w
    end.
Proof.
  cbn [lookup_aliases]. rewrite run_bind_reads by auto with reads.
  rewrite run_LookupEnv. destruct (environ w !! _); reflexivity.
Qed.

Lemma LoadEnv_of_nil a prefix ty w :
  run (LoadEnv_of a prefix (VStruct ty [])) w = (VStruct ty [], Returns None).
Proof. destruct a; reflexivity. Qed.

(** A settable leaf whose value is found and converted. *)
Lemma LoadEnv_of_leaf_bound a prefix ty field v post w key envVal v' :
  Kind_of v <> Struct -> CanSet field = true ->
  run (lookup_leaf (run (deref (registry a)) w) (envKey_in a prefix field)) w
    = Some (key, envVal) ->
  run (setField_of a field v envVal) w = (v', None) ->
  run (LoadEnv_of a prefix (VStruct ty ((field, v) :: post))) w =
    let '(p, res) := run (LoadEnv_of a prefix (VStruct ty post)) w in
    (VStruct ty ((field, v') :: fields_of p), res).
Proof.
  intros Hk Hset Hfound Hconv. rewrite LoadEnv_of_cons. cbv zeta.
  rewrite bool_decide_eq_false_2 by exact Hk.
  rewrite Hset, Hfound, Hconv. reflexivity.
Qed.

(** An exported struct field whose binding returns nil. *)
Lemma LoadEnv_of_struct_bound a prefix ty field v post w v' :
  Kind_of v = Struct -> IsExported field = true ->
  run (nested_LoadEnv a (envKey_in a prefix field) v) w = (v', Returns None) ->
  run (LoadEnv_of a prefix (VStruct ty ((field, v) :: post))) w =
    let '(p, res) := run (LoadEnv_of a prefix (VStruct ty post)) w in
    (VStruct ty ((field, v') :: fields_of p), res).
Proof.
  intros Hk Hexp Hrec. rewrite LoadEnv_of_cons. cbv zeta.
  rewrite bool_decide_eq_true_2 by exact Hk.
  rewrite Hexp, Hrec. reflexivity.
Qed.

(** The scenario below [Server], for the package-level functions of both
    revisions. *)
Lemma scenario_below_Server a w port host others :
  a = MethodsOf t \/ a = PackageVars ->
  envPrefix (default_t w) = "APP" ->
  envAliases (default_t w) !! "SERVER_HOST" = Some ("SERVICE_HOST" :: others) ->
  environ w !! "APP_SERVER_PORT" = Some "8080" ->
  environ w !! "APP_SERVER_HOST" = None ->
  environ w !! "APP_SERVICE_HOST" = Some "example.com" ->
  customUnmarshalers (default_t w) !! "int" = None ->
  customUnmarshalers (default_t w) !! "string" = None ->
  UnmarshalText w !! "int" = None ->
  UnmarshalText w !! "string" = None ->
  run (LoadEnv_of a "APP_SERVER" (server port host)) w
    = (server 8080 "example.com", Returns None).
Proof.
  intros Ha Hprefix Halias Hport Hhost Hservice Hci Hcs Hni Hns.
  assert (run (deref (registry a)) w = default_t w) as Hreg
    by (destruct Ha as [-> | ->]; reflexivity).
  assert (envKey_in a "APP_SERVER" (exported "Port") = "APP_SERVER_PORT")
    as HkeyPort by (destruct Ha as [-> | ->]; reflexivity).
  assert (envKey_in a "APP_SERVER" (exported "Host") = "APP_SERVER_HOST")
    as HkeyHost by (destruct Ha as [-> | ->]; reflexivity).
  unfold server.
  rewrite (LoadEnv_of_leaf_bound a "APP_SERVER" _ (exported "Port") _ _ w
             "APP_SERVER_PORT" "8080" (VInt "int" WInt 8080)).
  - rewrite (LoadEnv_of_leaf_bound a "APP_SERVER" _ (exported "Host") _ _ w
               "APP_SERVICE_HOST" "example.com" (VString "string" "example.com")).
    + rewrite LoadEnv_of_nil. reflexivity.
    + discriminate.
    + reflexivity.
    + (* not found under its own key, found under the alias *)
      rewrite HkeyHost, Hreg, run_lookup_leaf, Hhost, Hprefix.
      change (strings.TrimPrefix "APP_SERVER_HOST" ("APP" +:+ "_"))
        with "SERVER_HOST".
      rewrite Halias. change (default [] (Some ("SERVICE_HOST" :: others)))
        with ("SERVICE_HOST" :: others).
      rewrite run_lookup_aliases_cons.
      change ("APP" +:+ "_" +:+ "SERVICE_HOST") with "APP_SERVICE_HOST".
      rewrite Hservice. reflexivity.
    + rewrite run_setField_of, run_Taurus_setField, Hreg.
      cbn [Type_of]. rewrite Hcs, Hns. reflexivity.
  - discriminate.
  - reflexivity.
  - (* found under its own key *)
    rewrite HkeyPort, Hreg, run_lookup_leaf, Hport. reflexivity.
  - rewrite run_setField_of, run_Taurus_setField, Hreg.
    cbn [Type_of]. rewrite Hci, Hni. reflexivity.
Qed.

(** C1, as the code has it.  In any state where the process-wide prefix is
    [APP], [APP_SERVER_PORT=8080] is set, [APP_SERVER_HOST] is unset,
    [APP_SERVICE_HOST=example.com] is set, and the alias [SERVICE_HOST] is
    the first one registered for the key of the field with the prefix taken
    off, [SERVER_HOST] (and [int] and [string] have no conversion of their
    own), [LoadEnv] with prefix [APP] returns nil and leaves [Port = 8080]
    and [Host = "example.com"], whatever the two fields held before.  This
    holds for the package-level [LoadEnv] of both revisions. *)
Theorem C1_scenario_with_alias_under_SERVER_HOST :
  forall (w : World) (port : Z) (host : string) (others : list string),
    envPrefix (default_t w) = "APP" ->
    envAliases (default_t w) !! "SERVER_HOST" = Some ("SERVICE_HOST" :: others) ->
    environ w !! "APP_SERVER_PORT" = Some "8080" ->
    environ w !! "APP_SERVER_HOST" = None ->
    environ w !! "APP_SERVICE_HOST" = Some "example.com" ->
    customUnmarshalers (default_t w) !! "int" = None ->
    customUnmarshalers (default_t w) !! "string" = None ->
    UnmarshalText w !! "int" = None ->
    UnmarshalText w !! "string" = None ->
    run (LoadEnv "APP" (server_cfg port host)) w
      = (server_cfg 8080 "example.com", Returns None) /\
    run (Globals.LoadEnv "APP" (server_cfg port host)) w
      = (server_cfg 8080 "example.com", Returns None).
Proof.
  intros w port host others Hprefix Halias Hport Hhost Hservice Hci Hcs Hni Hns.
  assert (forall a, a = MethodsOf t \/ a = PackageVars ->
            run (LoadEnv_of a "APP" (server_cfg port host)) w
              = (server_cfg 8080 "example.com", Returns None)) as H.
  { intros a Ha. unfold server_cfg.
    rewrite (LoadEnv_of_struct_bound a "APP" _ (exported "Server") _ _ w
               (server 8080 "example.com")).
    - rewrite LoadEnv_of_nil. reflexivity.
    - reflexivity.
    - reflexivity.
    - replace (nested_LoadEnv a) with (LoadEnv_of a)
        by (destruct Ha as [-> | ->]; reflexivity).
      replace (envKey_in a "APP" (exported "Server")) with "APP_SERVER"
        by (destruct Ha as [-> | ->]; reflexivity).
      apply (scenario_below_Server a w port host others); assumption. }
  split.
  - apply (H (MethodsOf t)). left. reflexivity.
  - apply (H PackageVars). right. reflexivity.
Qed.

(** The calls of the scenario: the prefix and the alias are registered, then
    [LoadEnv] is called. *)
Lemma C1_scenario_run :
  run (scenario "SERVER_HOST" (server_cfg 0 "")) c1_world
    = (server_cfg 8080 "example.com", Returns None).
Proof.
  exact (proj1 (C1_scenario_with_alias_under_SERVER_HOST
                  (snd ((_ ← SetEnvPrefix "APP";
                         BindEnvAlias "SERVER_HOST" ["SERVICE_HOST"]) c1_world))
                  0 "" [] eq_refl eq_refl eq_refl eq_refl eq_refl eq_refl
                  eq_refl eq_refl eq_refl)).
Defined.

(** ** Failure, absence and presence of an environment value *)





(** ** Struct fields *)

(** C7, as the code has it.  A field of kind struct is never converted from
    text: whatever custom unmarshalers are registered and whatever types
    have an [UnmarshalText], the binders hand an (exported) struct field to
    the recursive call, with the extended key or path; the call goes on
    with the next field when that call returns nil, and ends with its
    outcome otherwise.  For [LoadEnv], whose keys are upper-cased tags, the
    field names and tags of the record are taken to be ASCII. *)
Theorem C7_struct_fields_are_always_recursed_into :
  forall (a : Api) (prefix ty : string) (pre post pre' : Fields)
         (field : StructField) (v : Value) (w : World),
    Kind_of v = Struct -> IsExported field = true ->
    let cfg := VStruct ty (pre ++ (field, v) :: post) in
    (ascii_tags cfg = true ->
     run (LoadEnv_of a prefix (VStruct ty pre)) w
       = (VStruct ty pre', Returns None) ->
     run (LoadEnv_of a prefix cfg) w =
       match run (nested_LoadEnv a (envKey_in a prefix field) v) w with
       | (v', Returns None) =>
           let '(p, res) := run (LoadEnv_of a prefix (VStruct ty post)) w in
           (VStruct ty (pre' ++ (field, v') :: fields_of p), res)
       | (v', res) => (VStruct ty (pre' ++ (field, v') :: post), res)
       end) /\
    (run (loadFlags_of a prefix (VStruct ty pre)) w
       = (VStruct ty pre', Returns None) ->
     run (loadFlags_of a prefix cfg) w =
       match run (loadFlags_of a (fieldPath_of prefix field) v) w with
       | (v', Returns None) =>
           let '(p, res) := run (loadFlags_of a prefix (VStruct ty post)) w in
           (VStruct ty (pre' ++ (field, v') :: fields_of p), res)
       | (v', res) => (VStruct ty (pre' ++ (field, v') :: post), res)
       end).
Proof.
  intros a prefix ty pre post pre' field v w Hk Hexp cfg. subst cfg. split.
  - intros _ Hpre. rewrite (LoadEnv_of_at _ _ _ _ _ _ _ _ _ Hpre). cbv zeta.
    rewrite bool_decide_eq_true_2 by exact Hk. rewrite Hexp. reflexivity.
  - intros Hpre. rewrite (loadFlags_of_at _ _ _ _ _ _ _ _ _ Hpre). cbv zeta.
    rewrite bool_decide_eq_true_2 by exact Hk. rewrite Hexp. reflexivity.
Qed.

Lemma C7_recursion_into_Endpoint :
  run (LoadEnv "APP" (endpoint_cfg "")) endpoint_world =
    match run (LoadEnv "APP_ADDR" (endpoint "")) endpoint_world with
    | (v', Returns None) => (VStruct "main.Config" [(exported "Addr", v')],
                             Returns None)
    | (v', res) => (VStruct "main.Config" [(exported "Addr", v')], res)
    end.
Proof.
  exact (proj1 (C7_struct_fields_are_always_recursed_into (MethodsOf t) "APP"
                  "main.Config" [] [] [] (exported "Addr") (endpoint "")
                  endpoint_world eq_refl eq_refl) eq_refl eq_refl).
Defined.

(** [Endpoint] has an [UnmarshalText] and no custom unmarshaler, the
    variable [APP_ADDR] is set and the flag [Addr] is changed; still no
    binder converts the field from the text (which would give
    [Host = "example.com"]): each looks for the sub-field [Host] under
    [APP_ADDR_HOST] or [Addr.Host], finds nothing and leaves the record as
    it was. *)
Lemma C7_text_decodable_struct_is_not_a_leaf :
  UnmarshalText endpoint_world !! "main.Endpoint" = Some Endpoint_UnmarshalText /\
  customUnmarshalers (default_t endpoint_world) !! "main.Endpoint" = None /\
  fst (Endpoint_UnmarshalText (endpoint "") "example.com") = endpoint "example.com" /\
  run (LoadEnv "APP" (endpoint_cfg "")) endpoint_world
    = (endpoint_cfg "", Returns None) /\
  run (LoadFlags (endpoint_cfg "")) endpoint_world
    = (endpoint_cfg "", Returns None) /\
  run (Globals.LoadEnv "APP" (endpoint_cfg "")) endpoint_world
    = (endpoint_cfg "", Returns None) /\
  run (Globals.LoadFlags "" (endpoint_cfg "")) endpoint_world
    = (endpoint_cfg "", Returns None) /\
  endpoint_cfg "" <> endpoint_cfg "example.com".
Proof. repeat split; try (vm_compute; reflexivity). discriminate. Qed.

(** An unexported field that is no struct is skipped: it is left as it was
    and the call goes on with the next field. *)
Lemma unexported_leaf_is_skipped a prefix ty pre post pre' field v w :
  Kind_of v <> Struct -> CanSet field = false ->
  (run (LoadEnv_of a prefix (VStruct ty pre)) w
     = (VStruct ty pre', Returns None) ->
   run (LoadEnv_of a prefix (VStruct ty (pre ++ (field, v) :: post))) w =
     let '(p, res) := run (LoadEnv_of a prefix (VStruct ty post)) w in
     (VStruct ty (pre' ++ (field, v) :: fields_of p), res)) /\
  (run (loadFlags_of a prefix (VStruct ty pre)) w
     = (VStruct ty pre', Returns None) ->
   run (loadFlags_of a prefix (VStruct ty (pre ++ (field, v) :: post))) w =
     let '(p, res) := run (loadFlags_of a prefix (VStruct ty post)) w in
     (VStruct ty (pre' ++ (field, v) :: fields_of p), res)).
Proof.
  intros Hk Hset. split; intros Hpre.
  - rewrite (LoadEnv_of_at _ _ _ _ _ _ _ _ _ Hpre). cbv zeta.
    rewrite bool_decide_eq_false_2 by exact Hk. rewrite Hset. reflexivity.
  - rewrite (loadFlags_of_at _ _ _ _ _ _ _ _ _ Hpre). cbv zeta.
    rewrite bool_decide_eq_false_2 by exact Hk. rewrite Hset. reflexivity.
Qed.

(** An unexported field that is a struct makes the binders panic: the
    fields before it keep what they were assigned, the field and the fields
    after it are left as they were. *)
Lemma unexported_struct_panics a prefix ty pre post pre' field v w :
  Kind_of v = Struct -> IsExported field = false ->
  (run (LoadEnv_of a prefix (VStruct ty pre)) w
     = (VStruct ty pre', Returns None) ->
   run (LoadEnv_of a prefix (VStruct ty (pre ++ (field, v) :: post))) w =
     (VStruct ty (pre' ++ (field, v) :: post), Interface_panic)) /\
  (run (loadFlags_of a prefix (VStruct ty pre)) w
     = (VStruct ty pre', Returns None) ->
   run (loadFlags_of a prefix (VStruct ty (pre ++ (field, v) :: post))) w =
     (VStruct ty (pre' ++ (field, v) :: post), Interface_panic)).
Proof.
  intros Hk Hexp. split; intros Hpre.
  - rewrite (LoadEnv_of_at _ _ _ _ _ _ _ _ _ Hpre). cbv zeta.
    rewrite bool_decide_eq_true_2 by exact Hk. rewrite Hexp. reflexivity.
  - rewrite (loadFlags_of_at _ _ _ _ _ _ _ _ _ Hpre). cbv zeta.
    rewrite bool_decide_eq_true_2 by exact Hk. rewrite Hexp. reflexivity.
Qed.

(** C6 fails on the code: with an unexported field of a struct type in the
    record, every binder panics when it reaches the field, instead of
    skipping it and binding [Host]. *)
Theorem C6_unexported_struct_field_panics :
  run (LoadEnv "APP" (limits_cfg 0 "")) limits_world
    = (limits_cfg 8080 "", Interface_panic) /\
  run (LoadFlags (limits_cfg 0 "")) limits_world
    = (limits_cfg 8080 "", Interface_panic) /\
  run (Globals.LoadEnv "APP" (limits_cfg 0 "")) limits_world
    = (limits_cfg 8080 "", Interface_panic) /\
  run (Globals.LoadFlags "" (limits_cfg 0 "")) limits_world
    = (limits_cfg 8080 "", Interface_panic).
Proof. repeat split; vm_compute; reflexivity. Qed.

(** ** Flags *)

Lemma reads_flags_body a prefix field v : reads (flags_body a prefix field v).
Proof.
  destruct a; [apply reads_loadFlags_body | apply reads_G_LoadFlags_body].
Qed.

Lemma flags_body_stop a prefix field v w v' :
  run (flags_body a prefix field v) w <> (v', Some (Returns None)).
Proof.
  destruct a; [apply Taurus_loadFlags_body_stop | apply Globals_LoadFlags_body_stop].
Qed.

Lemma run_loadFlags_of a prefix v w :
  run (loadFlags_of a prefix v) w =
    match v with
    | VStruct ty fields =>
        let '(fields', res) := run (for_fields (flags_body a prefix) fields) w in
        (VStruct ty fields', res)
    | _ => (v, Returns (Some shape_error))
    end.
Proof.
  destruct a, v; try reflexivity;
    [apply run_Taurus_loadFlags | apply run_Globals_LoadFlags].
Qed.

Lemma run_flags_body a prefix field v w :
  run (flags_body a prefix field v) w =
    let fieldPath := fieldPath_of prefix field in
    if bool_decide (Kind_of v = Struct) then
      if IsExported field then
        run (return_if_err (run (loadFlags_of a fieldPath v) w)) w
      else (v, Some Interface_panic)
    else if negb (CanSet field) then (v, None)
    else
      match flags (run (deref (registry a)) w) !! fieldPath with
      | None => (v, None)
      | Some None => (v, Some nil_dereference)
      | Some (Some fl) =>
          if negb (Changed fl) then (v, None)
          else
            run (return_field_err fieldPath
                   (run (setField_of a field v (Value_String fl)) w)) w
      end.
Proof. destruct a; [apply run_loadFlags_body | apply run_G_LoadFlags_body]. Qed.

Lemma flags_at_path a idx :
  forall v prefix w v' res path field slot,
    field_at fieldPath_of prefix v idx = Some (path, field, slot) ->
    Kind_of slot <> Struct ->
    run (loadFlags_of a prefix v) w = (v', res) ->
    let entry := flags (run (deref (registry a)) w) !! path in
    ((entry = None \/ exists fl, entry = Some (Some fl) /\ Changed fl = false) ->
     field_at fieldPath_of prefix v' idx = Some (path, field, slot)) /\
    (forall fl, entry = Some (Some fl) -> Changed fl = true ->
       CanSet field = true -> res = Returns None ->
       exists slot',
         run (setField_of a field slot (Value_String fl)) w = (slot', None) /\
         field_at fieldPath_of prefix v' idx = Some (path, field, slot')).
Proof.
  induction idx as [|i idx' IH]; intros v prefix w v' res path field slot;
    [discriminate|].
  cbn [field_at]. destruct (fields_of v !! i) as [[f0 v0]|] eqn:Hi; [|discriminate].
  destruct v as [| | | | |ty fields|]; cbn [fields_of] in Hi;
    try (rewrite lookup_nil in Hi; discriminate).
  rewrite run_loadFlags_of.
  destruct (run (for_fields (flags_body a prefix) fields) w) as [fields' res']
    eqn:Hloop.
  destruct (for_fields_lookup _ (reads_flags_body a prefix)
              (flags_body_stop a prefix) _ _ _ _ _ _ _ Hloop Hi)
    as (v0' & Hi' & Hv0' & Hnil).
  rewrite run_flags_body in Hv0', Hnil. cbv zeta in Hv0', Hnil.
  intros Hat Hleaf [= <- <-]. cbn [fields_of]. rewrite Hi'.
  destruct idx' as [|j idx''].
  - (* the field is the leaf itself *)
    injection Hat as <- <- <-.
    rewrite bool_decide_eq_false_2 in Hv0', Hnil by exact Hleaf.
    split.
    + intros Hentry. destruct Hv0' as [->| ->]; [reflexivity|].
      destruct (negb (CanSet f0)); [reflexivity|].
      destruct Hentry as [-> | (fl & -> & Hfl)]; [reflexivity|].
      rewrite Hfl. reflexivity.
    + intros fl Hentry Hfl Hset ->. specialize (Hnil eq_refl).
      rewrite Hset, Hentry, Hfl in Hnil. simpl in Hnil.
      rewrite run_return_field_err in Hnil.
      destruct (run (setField_of a f0 v0 (Value_String fl)) w) as [s' [e|]];
        [discriminate|].
      injection Hnil as ->. exists v0'. split; reflexivity.
  - (* the leaf is below the struct field [f0] *)
    assert (Kind_of v0 = Struct) as Hk.
    { destruct v0; try (cbn in Hat; rewrite lookup_nil in Hat; discriminate).
      reflexivity. }
    rewrite bool_decide_eq_true_2 in Hv0', Hnil by exact Hk.
    destruct (run (loadFlags_of a (fieldPath_of prefix f0) v0) w)
      as [v0r resr] eqn:Hrec.
    specialize (IH v0 (fieldPath_of prefix f0) w v0r resr path field slot
                  Hat Hleaf Hrec).
    cbv zeta in IH. destruct IH as [IHkeep IHset].
    split.
    + intros Hentry. destruct Hv0' as [->| ->]; [exact Hat|].
      destruct (IsExported f0); [|exact Hat].
      rewrite run_return_if_err.
      destruct resr as [[e|]|msg]; apply IHkeep, Hentry.
    + intros fl Hentry Hfl Hset ->. specialize (Hnil eq_refl).
      destruct (IsExported f0); [|discriminate].
      rewrite run_return_if_err in Hnil.
      destruct resr as [[e|]|msg]; try discriminate.
      injection Hnil as ->. apply (IHset fl Hentry Hfl Hset eq_refl).
Qed.



(** ** The instance methods and the package-level functions *)

Lemma run_for_fields_ext2 body1 body2 fields w1 w2 :
  (forall field v, reads (body1 field v)) ->
  (forall field v, reads (body2 field v)) ->
  Forall (fun fv => run (body1 (fst fv) (snd fv)) w1 = run (body2 (fst fv) (snd fv)) w2)
    fields ->
  run (for_fields body1 fields) w1 = run (for_fields body2 fields) w2.
Proof.
  intros H1 H2. induction 1 as [|[field v] rest Hhd _ IH]; [reflexivity|].
  rewrite (run_for_fields_cons body1 H1), (run_for_fields_cons body2 H2).
  simpl in Hhd. rewrite Hhd, IH. reflexivity.
Qed.

Lemma run_for_fields_ext body1 body2 fields w :
  (forall field v, reads (body1 field v)) ->
  (forall field v, reads (body2 field v)) ->
  Forall (fun fv => run (body1 (fst fv) (snd fv)) w = run (body2 (fst fv) (snd fv)) w)
    fields ->
  run (for_fields body1 fields) w = run (for_fields body2 fields) w.
Proof. apply run_for_fields_ext2. Qed.

Lemma run_setField_same_registry r field v value w :
  customUnmarshalers (run (deref r) w) = customUnmarshalers (run (deref t) w) ->
  run (Taurus_setField r field v value) w = run (Taurus_setField t field v value) w.
Proof. intros H. rewrite !run_Taurus_setField, H. reflexivity. Qed.

Lemma lookup_leaf_same_registry x y envKey :
  envPrefix x = envPrefix y -> envAliases x = envAliases y ->
  lookup_leaf x envKey = lookup_leaf y envKey.
Proof. intros H1 H2. unfold lookup_leaf. rewrite H1, H2. reflexivity. Qed.

(** [LoadEnv] on a receiver whose registry is that of the default instance. *)
Lemma LoadEnv_same_registry r prefix v w :
  same_tables (run (deref r) w) (run (deref t) w) ->
  run (Taurus_LoadEnv r prefix v) w = run (Taurus_LoadEnv t prefix v) w.
Proof.
  intros (Hprefix & Haliases & _ & Hcustom).
  destruct v as [| | | | |ty fields|]; try reflexivity.
  rewrite !run_Taurus_LoadEnv.
  rewrite (run_for_fields_ext _ (Taurus_LoadEnv_body (Taurus_LoadEnv t) t prefix));
    [reflexivity|apply reads_LoadEnv_body..|].
  apply Forall_forall. intros [field v] _. simpl.
  rewrite !run_LoadEnv_body. cbv zeta.
  rewrite (lookup_leaf_same_registry _ _ _ Hprefix Haliases).
  destruct (bool_decide _); [reflexivity|].
  destruct (negb _); [reflexivity|].
  destruct (run (lookup_leaf _ _) w) as [[key envVal]|]; [|reflexivity].
  rewrite (run_setField_same_registry r) by exact Hcustom. reflexivity.
Qed.

Lemma loadFlags_same_registry r v :
  forall prefix w,
    same_tables (run (deref r) w) (run (deref t) w) ->
    run (Taurus_loadFlags r prefix v) w = run (Taurus_loadFlags t prefix v) w.
Proof.
  induction v as [| | | | |ty fields IH|] using Value_nested_ind;
    intros prefix world H; try reflexivity.
  rewrite !run_Taurus_loadFlags.
  rewrite (run_for_fields_ext _ (Taurus_loadFlags_body (Taurus_loadFlags t) t prefix));
    [reflexivity|apply reads_loadFlags_body..|].
  eapply Forall_impl; [exact IH|]. intros [field v] IHv. simpl in *.
  rewrite !run_loadFlags_body. cbv zeta. rewrite (IHv _ _ H).
  destruct H as (_ & _ & Hflags & Hcustom). rewrite Hflags.
  destruct (bool_decide _); [reflexivity|].
  destruct (negb _); [reflexivity|].
  destruct (flags _ !! _) as [[fl|]|]; try reflexivity.
  rewrite (run_setField_same_registry r) by exact Hcustom. reflexivity.
Qed.

Lemma Globals_LoadFlags_is_loadFlags v :
  forall prefix w,
    run (Globals.LoadFlags prefix v) w = run (Taurus_loadFlags t prefix v) w.
Proof.
  induction v as [| | | | |ty fields IH|] using Value_nested_ind;
    intros prefix world; try reflexivity.
  rewrite run_Globals_LoadFlags, run_Taurus_loadFlags.
  rewrite (run_for_fields_ext _ (Taurus_loadFlags_body (Taurus_loadFlags t) t prefix));
    [reflexivity|apply reads_G_LoadFlags_body|apply reads_loadFlags_body|].
  eapply Forall_impl; [exact IH|]. intros [field v] IHv. simpl in *.
  rewrite run_G_LoadFlags_body, run_loadFlags_body. cbv zeta. rewrite IHv.
  reflexivity.
Qed.

Lemma append_not_empty (s1 s2 : string) : s1 <> "" -> s1 +:+ s2 <> "".
Proof. destruct s1; [congruence|discriminate]. Qed.

(** With a prefix that is not empty the two revisions build the same keys. *)
Lemma Globals_LoadEnv_is_LoadEnv v :
  forall prefix w,
    prefix <> "" ->
    run (Globals.LoadEnv prefix v) w = run (Taurus_LoadEnv t prefix v) w.
Proof.
  induction v as [| | | | |ty fields IH|] using Value_nested_ind;
    intros prefix world Hprefix; try reflexivity.
  rewrite run_Globals_LoadEnv, run_Taurus_LoadEnv.
  rewrite (run_for_fields_ext _ (Taurus_LoadEnv_body (Taurus_LoadEnv t) t prefix));
    [reflexivity|apply reads_G_LoadEnv_body|apply reads_LoadEnv_body|].
  eapply Forall_impl; [exact IH|]. intros [field v] IHv. simpl in *.
  rewrite run_G_LoadEnv_body, run_LoadEnv_body. cbv zeta.
  assert (Globals.envKey_of prefix field = Taurus_envKey prefix field) as ->.
  { unfold Globals.envKey_of, Taurus_envKey.
    rewrite bool_decide_eq_true_2 by exact Hprefix. reflexivity. }
  unfold LoadEnv. rewrite IHv; [reflexivity|].
  unfold Taurus_envKey. rewrite bool_decide_eq_true_2 by exact Hprefix.
  apply append_not_empty, Hprefix.
Qed.

Lemma reads_eq {A : Type} (m1 m2 : M A) w :
  reads m1 -> reads m2 -> run m1 w = run m2 w -> m1 w = m2 w.
Proof.
  intros H1 H2 H. rewrite (reads_run m1 w H1), (reads_run m2 w H2).
  unfold run in H. rewrite H. reflexivity.
Qed.

(** C8, as the code has it.  In a state where the instance holds the same
    prefix, aliases, flags and custom unmarshalers as the default instance,
    the methods called on the instance end as the package-level functions
    do, with the same record, the same outcome and the same state:
    [LoadEnv] as the package-level [LoadEnv] for every prefix, and as the
    [LoadEnv] of the earlier revision for every prefix that is not empty;
    [LoadFlags] as both package-level [LoadFlags] (the earlier one called
    with the empty prefix); and, when the two instances also agree on
    [expandEnv], [Load] as both package-level [Load]. *)
Theorem C8_instance_agrees_with_package_level :
  forall (w : World) (v : Value),
    same_tables (instance w) (default_t w) ->
    (forall prefix, Taurus_LoadEnv own prefix v w = LoadEnv prefix v w) /\
    (forall prefix, prefix <> "" ->
       Taurus_LoadEnv own prefix v w = Globals.LoadEnv prefix v w) /\
    Taurus_LoadFlags own v w = LoadFlags v w /\
    Taurus_LoadFlags own v w = Globals.LoadFlags "" v w /\
    (expandEnv (instance w) = expandEnv (default_t w) ->
     forall yaml_Unmarshal os_Expand configData cfg,
       Taurus_Load yaml_Unmarshal os_Expand own configData cfg w
         = Load yaml_Unmarshal os_Expand configData cfg w /\
       Taurus_Load yaml_Unmarshal os_Expand own configData cfg w
         = Globals.Load yaml_Unmarshal os_Expand configData cfg w).
Proof.
  intros w v Hsame.
  assert (same_tables (run (deref own) w) (run (deref t) w)) as Hreg
    by exact Hsame.
  unfold LoadEnv, LoadFlags, Taurus_LoadFlags.
  split; [|split; [|split; [|split]]].
  - intros prefix. apply reads_eq; auto with reads.
    apply LoadEnv_same_registry, Hreg.
  - intros prefix Hprefix. apply reads_eq; auto with reads.
    rewrite Globals_LoadEnv_is_LoadEnv by exact Hprefix.
    apply LoadEnv_same_registry, Hreg.
  - apply reads_eq; auto with reads. apply loadFlags_same_registry, Hreg.
  - apply reads_eq; auto with reads.
    rewrite Globals_LoadFlags_is_loadFlags.
    apply loadFlags_same_registry, Hreg.
  - intros Hexpand yaml_Unmarshal os_Expand configData cfg. split.
    + unfold Load, Taurus_Load, mbind, M_bind, deref.
      rewrite Hexpand. reflexivity.
    + unfold Globals.Load, Taurus_Load, Globals.vars, mbind, M_bind, deref.
      rewrite Hexpand. reflexivity.
Qed.

Lemma C8_agreement_on_APP :
  Taurus_LoadEnv own "APP" (server_cfg 0 "") c1_world
    = Globals.LoadEnv "APP" (server_cfg 0 "") c1_world.
Proof.
  exact (proj1 (proj2 (C8_instance_agrees_with_package_level c1_world
                         (server_cfg 0 "")
                         (conj eq_refl (conj eq_refl (conj eq_refl eq_refl)))))
           "APP" ltac:(discriminate)).
Defined.

(** With the empty prefix the method looks [Port] up under [PORT] and the
    [LoadEnv] of the earlier revision under [_PORT]: the registries are the
    same, the records after the calls are not. *)
Lemma C8_empty_prefix_keys_differ :
  same_tables (instance port_world) (default_t port_world) /\
  run (Taurus_LoadEnv own "" (port_cfg 0)) port_world
    = (port_cfg 8080, Returns None) /\
  run (Globals.LoadEnv "" (port_cfg 0)) port_world = (port_cfg 0, Returns None) /\
  Taurus_LoadEnv own "" (port_cfg 0) port_world
    <> Globals.LoadEnv "" (port_cfg 0) port_world.
Proof.
  repeat split; try (vm_compute; reflexivity).
  intros H. apply (f_equal fst) in H. vm_compute in H. discriminate.
Qed.

(** ** What the receiver of [LoadEnv] does not reach

    [(t *Taurus) LoadEnv] hands a struct field to the package-level
    [LoadEnv], which runs on the default instance: below the top level the
    registry of the receiver is not looked at. *)

Lemma run_lookup_aliases_environ envPrefix keys w w' :
  environ w = environ w' ->
  run (lookup_aliases envPrefix keys) w = run (lookup_aliases envPrefix keys) w'.
Proof.
  intros H. induction keys as [|key keys IH]; [reflexivity|].
  cbn [lookup_aliases]. rewrite !run_bind_reads by auto with reads.
  rewrite !run_LookupEnv, <- H.
  destruct (environ w !! _); [reflexivity|exact IH].
Qed.

Lemma run_lookup_leaf_environ x envKey w w' :
  environ w = environ w' ->
  run (lookup_leaf x envKey) w = run (lookup_leaf x envKey) w'.
Proof.
  intros H. unfold lookup_leaf. rewrite !run_bind_reads by auto with reads.
  rewrite !run_LookupEnv, <- H.
  destruct (environ w !! _); [reflexivity|].
  apply run_lookup_aliases_environ, H.
Qed.

Lemma LoadEnv_of_default_instance v :
  forall prefix w w',
    default_t w = default_t w' -> environ w = environ w' ->
    UnmarshalText w = UnmarshalText w' ->
    run (LoadEnv prefix v) w = run (LoadEnv prefix v) w'.
Proof.
  unfold LoadEnv.
  induction v as [| | | | |ty fields IH|] using Value_nested_ind;
    intros prefix world world' Ht Henv Hum; try reflexivity.
  rewrite !run_Taurus_LoadEnv.
  rewrite (run_for_fields_ext2 _ (Taurus_LoadEnv_body (Taurus_LoadEnv t) t prefix)
             _ world world'); [reflexivity|apply reads_LoadEnv_body..|].
  eapply Forall_impl; [exact IH|]. intros [field v] IHv. simpl in *.
  rewrite !run_LoadEnv_body. cbv zeta. unfold LoadEnv.
  rewrite (IHv _ world world' Ht Henv Hum), !run_return_if_err.
  destruct (bool_decide _); [reflexivity|].
  destruct (negb _); [reflexivity|].
  rewrite (run_deref_t world), (run_deref_t world'), <- Ht.
  rewrite (run_lookup_leaf_environ _ _ world world' Henv).
  destruct (run (lookup_leaf _ _) world') as [[key envVal]|]; [|reflexivity].
  rewrite !run_return_field_err, !run_Taurus_setField.
  rewrite (run_deref_t world), (run_deref_t world'), <- Ht, <- Hum.
  reflexivity.
Qed.

(** X1.  On a record whose fields are all structs, the result of [LoadEnv]
    called on the instance is the same whatever registry the instance holds:
    two states with the same default instance, environment and method sets
    give the same record and the same outcome. *)
Theorem nested_fields_are_bound_by_the_default_instance :
  forall (w w' : World) (prefix ty : string) (fields : Fields),
    default_t w = default_t w' -> environ w = environ w' ->
    UnmarshalText w = UnmarshalText w' ->
    Forall (fun fv => Kind_of (snd fv) = Struct) fields ->
    run (Taurus_LoadEnv own prefix (VStruct ty fields)) w
      = run (Taurus_LoadEnv own prefix (VStruct ty fields)) w'.
Proof.
  intros w w' prefix ty fields Ht Henv Hum Hstruct.
  rewrite !run_Taurus_LoadEnv.
  rewrite (run_for_fields_ext2 _ (Taurus_LoadEnv_body (Taurus_LoadEnv t) own prefix)
             _ w w'); [reflexivity|apply reads_LoadEnv_body..|].
  eapply Forall_impl; [exact Hstruct|]. intros [field v] Hk. simpl in *.
  rewrite !run_LoadEnv_body. cbv zeta.
  rewrite bool_decide_eq_true_2 by exact Hk.
  rewrite (LoadEnv_of_default_instance v _ w w' Ht Henv Hum).
  rewrite !run_return_if_err. reflexivity.
Qed.

Lemma alias_of_the_instance_is_not_used_below_the_top :
  run (Taurus_LoadEnv own "APP" (server_cfg 0 "")) own_alias_world
    = run (Taurus_LoadEnv own "APP" (server_cfg 0 "")) c1_world.
Proof.
  exact (nested_fields_are_bound_by_the_default_instance own_alias_world
           c1_world "APP" "main.Config" [(exported "Server", server 0 "")]
           eq_refl eq_refl eq_refl
           (List.Forall_cons _ (exported "Server", server 0 "") []
              eq_refl (List.Forall_nil _))).
Defined.

(** ** The binders of the three forms, at any depth *)

Lemma nested_is_below a : nested_LoadEnv a = LoadEnv_of (below a).
Proof. destruct a; reflexivity. Qed.

Lemma envKey_in_below a : envKey_in (below a) = envKey_in a.
Proof. destruct a; reflexivity. Qed.

Lemma registry_below a w : run (deref (registry (below a))) w = default_t w.
Proof. destruct a; reflexivity. Qed.

Lemma reads_env_body a prefix field v : reads (env_body a prefix field v).
Proof.
  destruct a; [apply reads_LoadEnv_body | apply reads_G_LoadEnv_body].
Qed.

Lemma env_body_stop a prefix field v w v' :
  run (env_body a prefix field v) w <> (v', Some (Returns None)).
Proof.
  destruct a; [apply Taurus_LoadEnv_body_stop | apply Globals_LoadEnv_body_stop].
Qed.

Lemma run_LoadEnv_of a prefix v w :
  run (LoadEnv_of a prefix v) w =
    match v with
    | VStruct ty fields =>
        let '(fields', res) := run (for_fields (env_body a prefix) fields) w in
        (VStruct ty fields', res)
    | _ => (v, Returns (Some shape_error))
    end.
Proof.
  destruct a, v; try reflexivity;
    [apply run_Taurus_LoadEnv | apply run_Globals_LoadEnv].
Qed.

Lemma run_env_body a prefix field v w :
  run (env_body a prefix field v) w =
    let envKey := envKey_in a prefix field in
    if bool_decide (Kind_of v = Struct) then
      if IsExported field then
        run (return_if_err (run (LoadEnv_of (below a) envKey v) w)) w
      else (v, Some Interface_panic)
    else if negb (CanSet field) then (v, None)
    else
      match run (lookup_leaf (run (deref (registry a)) w) envKey) w with
      | None => (v, None)
      | Some (key, envVal) =>
          run (return_field_err key (run (setField_of a field v envVal) w)) w
      end.
Proof. destruct a; [apply run_LoadEnv_body | apply run_G_LoadEnv_body]. Qed.

(** ** The order of the aliases *)

Lemma run_lookup_aliases_none p keys w :
  Forall (fun k => environ w !! (p +:+ "_" +:+ k) = None) keys ->
  run (lookup_aliases p keys) w = None.
Proof.
  induction 1 as [|key keys Hkey _ IH]; [reflexivity|].
  rewrite run_lookup_aliases_cons, Hkey. exact IH.
Qed.

Lemma run_lookup_aliases_first p before key after envVal w :
  Forall (fun k => environ w !! (p +:+ "_" +:+ k) = None) before ->
  environ w !! (p +:+ "_" +:+ key) = Some envVal ->
  run (lookup_aliases p (before ++ key :: after)) w
    = Some (p +:+ "_" +:+ key, envVal).
Proof.
  intros Hbefore Hkey. induction Hbefore as [|k before Hk _ IH]; simpl app.
  - rewrite run_lookup_aliases_cons, Hkey. reflexivity.
  - rewrite run_lookup_aliases_cons, Hk. exact IH.
Qed.

Lemma string_app_assoc (s1 s2 s3 : string) :
  (s1 +:+ s2) +:+ s3 = s1 +:+ s2 +:+ s3.
Proof.
  induction s1 as [|c s1 IH]; [reflexivity|].
  change (String c ((s1 +:+ s2) +:+ s3) = String c (s1 +:+ s2 +:+ s3)).
  rewrite IH. reflexivity.
Qed.

Lemma CutPrefix_app (p rest : string) : strings.CutPrefix (p +:+ rest) p = Some rest.
Proof.
  induction p as [|c p IH]; [destruct rest; reflexivity|].
  simpl. rewrite Ascii.eqb_refl. exact IH.
Qed.



(** ** The leaves of a record, one by one *)

(** X3.  [LoadEnv] changes a leaf only by converting a value found for it.
    In a record whose field names and tags are ASCII,
    for a leaf at any depth that is no struct (reached by the indices [idx],
    with the key [key] built on the way down, the lookup and the conversion
    being those of the registry the binder uses at that depth):
    - when no value is found for the key or its aliases, or the field is
      unexported, the leaf is after the call exactly what it was, however the
      call ends;
    - when a value is found, the leaf is after the call what it was or what
      [setField] made of that value, and when the call returns nil it is what
      [setField] made of it, without error. *)
Theorem LoadEnv_changes_only_leaves_that_have_a_value :
  forall (a : Api) (prefix : string) (v v' : Value) (res : outcome) (w : World)
         (idx : list nat) (a' : Api) (key : string) (field : StructField)
         (slot : Value),
    ascii_tags v = true ->
    env_leaf_at a prefix v idx = Some (a', key, field, slot) ->
    Kind_of slot <> Struct ->
    run (LoadEnv_of a prefix v) w = (v', res) ->
    let found := run (lookup_leaf (run (deref (registry a')) w) key) w in
    ((found = None \/ CanSet field = false) ->
     env_leaf_at a prefix v' idx = Some (a', key, field, slot)) /\
    (forall k envVal, found = Some (k, envVal) -> CanSet field = true ->
       exists slot',
         env_leaf_at a prefix v' idx = Some (a', key, field, slot') /\
         (slot' = slot \/
          slot' = fst (run (setField_of a' field slot envVal) w)) /\
         (res = Returns None ->
          run (setField_of a' field slot envVal) w = (slot', None))).
Proof.
  intros a prefix v v' res w idx a' key field slot _.
  revert a v prefix w v' res a' key field slot.
  induction idx as [|i idx' IH];
    intros a v prefix w v' res a' key field slot; [discriminate|].
  cbn [env_leaf_at].
  destruct (fields_of v !! i) as [[f0 v0]|] eqn:Hi; [|discriminate].
  destruct v as [| | | | |ty fields|]; cbn [fields_of] in Hi;
    try (rewrite lookup_nil in Hi; discriminate).
  rewrite run_LoadEnv_of.
  destruct (run (for_fields (env_body a prefix) fields) w) as [fields' res']
    eqn:Hloop.
  destruct (for_fields_lookup _ (reads_env_body a prefix)
              (env_body_stop a prefix) _ _ _ _ _ _ _ Hloop Hi)
    as (v0' & Hi' & Hv0' & Hnil).
  rewrite run_env_body in Hv0', Hnil. cbv zeta in Hv0', Hnil.
  intros Hat Hleaf [= <- <-]. cbn [fields_of]. rewrite Hi'.
  destruct idx' as [|j idx''].
  - (* the field is the leaf itself *)
    injection Hat as <- <- <- <-.
    rewrite bool_decide_eq_false_2 in Hv0', Hnil by exact Hleaf.
    split.
    + intros Hfound. destruct Hv0' as [->| ->]; [reflexivity|].
      destruct Hfound as [Hfound|Hset].
      * destruct (negb (CanSet f0)); [reflexivity|]. rewrite Hfound.
        reflexivity.
      * rewrite Hset. reflexivity.
    + intros k envVal Hfound Hset. rewrite Hset, Hfound in Hv0', Hnil.
      simpl negb in Hv0', Hnil. cbv iota in Hv0', Hnil.
      rewrite run_return_field_err in Hv0', Hnil.
      exists v0'. split; [reflexivity|]. split.
      * destruct Hv0' as [->| ->]; [left; reflexivity|right].
        destruct (run (setField_of a f0 v0 envVal) w) as [s' [e|]]; reflexivity.
      * intros ->. specialize (Hnil eq_refl).
        destruct (run (setField_of a f0 v0 envVal) w) as [s' [e|]];
          [discriminate|].
        injection Hnil as ->. reflexivity.
  - (* the leaf is below the struct field [f0] *)
    assert (Kind_of v0 = Struct) as Hk.
    { destruct v0; try (cbn in Hat; rewrite lookup_nil in Hat; discriminate).
      reflexivity. }
    rewrite bool_decide_eq_true_2 in Hv0', Hnil by exact Hk.
    destruct (run (LoadEnv_of (below a) (envKey_in a prefix f0) v0) w)
      as [v0r resr] eqn:Hrec.
    specialize (IH (below a) v0 (envKey_in a prefix f0) w v0r resr a' key
                  field slot Hat Hleaf Hrec).
    cbv zeta in IH. destruct IH as [IHkeep IHset].
    assert (v0' = v0 \/ v0' = v0r) as Hv0.
    { destruct Hv0' as [->| ->]; [left; reflexivity|].
      destruct (IsExported f0); [|left; reflexivity].
      rewrite run_return_if_err. right.
      destruct resr as [[e|]|msg]; reflexivity. }
    split.
    + intros Hfound. destruct Hv0 as [->| ->]; [exact Hat|].
      apply IHkeep, Hfound.
    + intros k envVal Hfound Hset.
      destruct (IHset k envVal Hfound Hset) as (slot' & Hat' & Hslot' & Hres).
      destruct Hv0 as [->| ->].
      * exists slot. split; [exact Hat|]. split; [left; reflexivity|].
        intros ->. specialize (Hnil eq_refl).
        destruct (IsExported f0); [|discriminate].
        rewrite run_return_if_err in Hnil.
        destruct resr as [[e|]|msg]; try discriminate.
        injection Hnil as ->. rewrite Hat in Hat'. injection Hat' as <-.
        apply Hres. reflexivity.
      * exists slot'. split; [exact Hat'|]. split; [exact Hslot'|].
        intros ->. specialize (Hnil eq_refl).
        destruct (IsExported f0); [|discriminate].
        rewrite run_return_if_err in Hnil.
        destruct resr as [[e|]|msg]; try discriminate.
        apply Hres. reflexivity.
Qed.

Lemma Host_without_a_value_is_kept :
  env_leaf_at (MethodsOf own) "APP" (server_cfg 8080 "localhost") [0; 1]%nat
    = Some (MethodsOf t, "APP_SERVER_HOST", exported "Host",
            VString "string" "localhost").
Proof.
  exact (proj1 (LoadEnv_changes_only_leaves_that_have_a_value (MethodsOf own)
                  "APP" (server_cfg 0 "localhost") (server_cfg 8080 "localhost")
                  (Returns None) c1_world [0; 1]%nat (MethodsOf t)
                  "APP_SERVER_HOST" (exported "Host")
                  (VString "string" "localhost")
                  eq_refl eq_refl ltac:(discriminate) eq_refl)
           (or_introl eq_refl)).
Defined.

(** ** What the binders read *)

Lemma run_bind_any {A B : Type} (m : M A) (k : A -> M B) w :
  run (m ≫= k) w = run (k (fst (m w))) (snd (m w)).
Proof. unfold run, mbind, M_bind. destruct (m w). reflexivity. Qed.

Lemma envKey_extends a prefix field :
  exists rest, envKey_in a prefix field = prefix +:+ rest.
Proof.
  destruct a; simpl; unfold Taurus_envKey, Globals.envKey_of;
    [|eexists; reflexivity].
  destruct (decide (prefix = "")) as [->|Hne].
  - rewrite bool_decide_eq_false_2 by (intros H; apply H; reflexivity).
    eexists. reflexivity.
  - rewrite bool_decide_eq_true_2 by exact Hne. eexists. reflexivity.
Qed.

(** [LoadEnv] in two states in which the lookups of the keys that extend
    [prefix] and the conversions are the same. *)
Lemma LoadEnv_of_agree v :
  forall a prefix w w',
    (forall rest,
       run (lookup_leaf (run (deref (registry a)) w) (prefix +:+ rest)) w =
       run (lookup_leaf (run (deref (registry a)) w') (prefix +:+ rest)) w') ->
    (forall rest,
       run (lookup_leaf (default_t w) (prefix +:+ rest)) w =
       run (lookup_leaf (default_t w') (prefix +:+ rest)) w') ->
    customUnmarshalers (run (deref (registry a)) w)
      = customUnmarshalers (run (deref (registry a)) w') ->
    customUnmarshalers (default_t w) = customUnmarshalers (default_t w') ->
    UnmarshalText w = UnmarshalText w' ->
    run (LoadEnv_of a prefix v) w = run (LoadEnv_of a prefix v) w'.
Proof.
  induction v as [| | | | |ty fields IH|] using Value_nested_ind;
    intros a prefix world world' Hlook Hlook_t Hcu Hcu_t Hum;
    rewrite !run_LoadEnv_of; try reflexivity.
  rewrite (run_for_fields_ext2 _ (env_body a prefix) _ world world');
    [reflexivity|apply reads_env_body..|].
  eapply Forall_impl; [exact IH|]. intros [field v] IHv. simpl in *.
  rewrite !run_env_body. cbv zeta.
  destruct (envKey_extends a prefix field) as [rest0 ->].
  destruct (bool_decide (Kind_of v = Struct)).
  - destruct (IsExported field); [|reflexivity].
    rewrite (IHv (below a) _ world world'), !run_return_if_err;
      [reflexivity|..]; rewrite ?registry_below; try assumption;
      intros rest; rewrite string_app_assoc; apply Hlook_t.
  - destruct (negb (CanSet field)); [reflexivity|].
    rewrite Hlook.
    destruct (run (lookup_leaf _ _) world') as [[key envVal]|]; [|reflexivity].
    rewrite !run_return_field_err, !run_setField_of, !run_Taurus_setField.
    rewrite Hcu, Hum. reflexivity.
Qed.

Lemma run_lookup_aliases_agree p keys w w' :
  (forall rest, environ w !! (p +:+ "_" +:+ rest) = environ w' !! (p +:+ "_" +:+ rest)) ->
  run (lookup_aliases p keys) w = run (lookup_aliases p keys) w'.
Proof.
  intros H. induction keys as [|key keys IH]; [reflexivity|].
  rewrite !run_lookup_aliases_cons, <- H.
  destruct (environ w !! _); [reflexivity|exact IH].
Qed.

Lemma run_lookup_leaf_agree x key w w' :
  environ w !! key = environ w' !! key ->
  (forall rest,
     environ w !! (envPrefix x +:+ "_" +:+ rest)
       = environ w' !! (envPrefix x +:+ "_" +:+ rest)) ->
  run (lookup_leaf x key) w = run (lookup_leaf x key) w'.
Proof.
  intros Hkey Haliases. rewrite !run_lookup_leaf, <- Hkey.
  destruct (environ w !! key); [reflexivity|].
  apply run_lookup_aliases_agree, Haliases.
Qed.

Lemma run_lookup_leaf_no_alias x key w :
  envAliases x = ∅ ->
  run (lookup_leaf x key) w = (fun envVal => (key, envVal)) <$> environ w !! key.
Proof.
  intros H. rewrite run_lookup_leaf, H, lookup_empty.
  destruct (environ w !! key); reflexivity.
Qed.

(** X4.  The env prefix of the registry ([SetEnvPrefix]) is used for the
    aliases only: the keys are built from the prefix [LoadEnv] is called
    with.  So for a registry with no alias, setting the env prefix before the
    call changes nothing of what [LoadEnv] does, whatever prefix is set and
    whatever prefix is passed. *)
Theorem without_aliases_the_env_prefix_is_not_used :
  forall (a : Api) (p prefix : string) (v : Value) (w : World),
    envAliases (run (deref (registry a)) w) = ∅ ->
    run (_ ← Taurus_SetEnvPrefix (registry a) p; LoadEnv_of a prefix v) w
      = run (LoadEnv_of a prefix v) w /\
    (a = PackageVars ->
     run (_ ← Globals.SetEnvPrefix p; Globals.LoadEnv prefix v) w
       = run (Globals.LoadEnv prefix v) w).
Proof.
  intros a p prefix v w Hnone.
  assert (run (_ ← Taurus_SetEnvPrefix (registry a) p; LoadEnv_of a prefix v) w
          = run (LoadEnv_of a prefix v) w) as H.
  { rewrite run_bind_any.
    set (w1 := snd (Taurus_SetEnvPrefix (registry a) p w)).
    assert (envAliases (run (deref (registry a)) w1) = ∅) as Hnone1
      by (destruct a as [[|]|]; exact Hnone).
    assert (environ w1 = environ w) as Henv
      by (destruct a as [[|]|]; reflexivity).
    apply LoadEnv_of_agree.
    - intros rest. rewrite !run_lookup_leaf_no_alias by assumption.
      rewrite Henv. reflexivity.
    - intros rest. destruct a as [[|]|].
      + rewrite !run_lookup_leaf_no_alias by assumption. reflexivity.
      + change (default_t w1) with (default_t w).
        apply run_lookup_leaf_agree; intros; reflexivity.
      + rewrite !run_lookup_leaf_no_alias by assumption. reflexivity.
    - destruct a as [[|]|]; reflexivity.
    - destruct a as [[|]|]; reflexivity.
    - destruct a as [[|]|]; reflexivity. }
  split; [exact H|]. intros ->. exact H.
Qed.

Lemma env_prefix_alone_does_not_reach_the_keys :
  run (_ ← Taurus_SetEnvPrefix own "APP"; Taurus_LoadEnv own "" (port_cfg 0))
      port_world
    = run (Taurus_LoadEnv own "" (port_cfg 0)) port_world.
Proof.
  exact (proj1 (without_aliases_the_env_prefix_is_not_used (MethodsOf own)
                  "APP" "" (port_cfg 0) port_world eq_refl)).
Defined.

(** X5.  [LoadEnv] called with [prefix] looks at no environment variable
    but those whose name starts with [prefix] and those whose name starts
    with the env prefix of a registry it uses followed by an underscore (the
    variables of the aliases): in two states with the same registries and
    method sets whose environments hold the same for these names, it leaves
    the same record and ends the same way. *)
Theorem LoadEnv_reads_only_the_variables_under_its_prefixes :
  forall (a : Api) (prefix : string) (v : Value) (w w' : World),
    default_t w = default_t w' -> instance w = instance w' ->
    UnmarshalText w = UnmarshalText w' ->
    (forall rest, environ w !! (prefix +:+ rest) = environ w' !! (prefix +:+ rest)) ->
    (forall rest,
       environ w !! (envPrefix (run (deref (registry a)) w) +:+ "_" +:+ rest)
         = environ w' !! (envPrefix (run (deref (registry a)) w) +:+ "_" +:+ rest)) ->
    (forall rest,
       environ w !! (envPrefix (default_t w) +:+ "_" +:+ rest)
         = environ w' !! (envPrefix (default_t w) +:+ "_" +:+ rest)) ->
    run (LoadEnv_of a prefix v) w = run (LoadEnv_of a prefix v) w'.
Proof.
  intros a prefix v w w' Ht Hown Hum Hkeys Haliases Haliases_t.
  assert (run (deref (registry a)) w' = run (deref (registry a)) w) as Hreg
    by (destruct a as [[|]|];
        [exact (eq_sym Ht)|exact (eq_sym Hown)|exact (eq_sym Ht)]).
  apply LoadEnv_of_agree.
  - intros rest. rewrite Hreg. apply run_lookup_leaf_agree; [apply Hkeys|].
    exact Haliases.
  - intros rest. rewrite <- Ht. apply run_lookup_leaf_agree; [apply Hkeys|].
    exact Haliases_t.
  - rewrite Hreg. reflexivity.
  - rewrite Ht. reflexivity.
  - exact Hum.
Qed.

Lemma variables_of_other_programs_are_not_read :
  run (LoadEnv "APP_" (server_cfg 0 "")) crowded_world
    = run (LoadEnv "APP_" (server_cfg 0 "")) c1_world.
Proof.
  apply (LoadEnv_reads_only_the_variables_under_its_prefixes (MethodsOf t)
           "APP_" (server_cfg 0 "") crowded_world c1_world
           eq_refl eq_refl eq_refl);
    intros rest; reflexivity.
Defined.

Lemma loadFlags_of_agree v :
  forall a prefix w w',
    flags (run (deref (registry a)) w) = flags (run (deref (registry a)) w') ->
    customUnmarshalers (run (deref (registry a)) w)
      = customUnmarshalers (run (deref (registry a)) w') ->
    UnmarshalText w = UnmarshalText w' ->
    run (loadFlags_of a prefix v) w = run (loadFlags_of a prefix v) w'.
Proof.
  induction v as [| | | | |ty fields IH|] using Value_nested_ind;
    intros a prefix world world' Hflags Hcu Hum;
    rewrite !run_loadFlags_of; try reflexivity.
  rewrite (run_for_fields_ext2 _ (flags_body a prefix) _ world world');
    [reflexivity|apply reads_flags_body..|].
  eapply Forall_impl; [exact IH|]. intros [field v] IHv. simpl in *.
  rewrite !run_flags_body. cbv zeta.
  rewrite (IHv a _ world world' Hflags Hcu Hum), !run_return_if_err, Hflags.
  destruct (bool_decide _); [reflexivity|].
  destruct (negb _); [reflexivity|].
  destruct (flags _ !! _) as [[fl|]|]; try reflexivity.
  rewrite !run_return_field_err, !run_setField_of, !run_Taurus_setField.
  rewrite Hcu, Hum. reflexivity.
Qed.

(** X6.  Each binder reads its own tables only.  [LoadFlags] depends on the
    flag table and the custom unmarshalers of its registry and on the
    [UnmarshalText] methods of the types: not on the environment, the env
    prefix, the aliases, the expand-env setting or the other instance.
    [LoadEnv] depends on the environment, the env prefix, the aliases and the
    custom unmarshalers of its registry and of the default instance, and on
    the methods: not on any flag, nor on the expand-env setting. *)
Theorem each_binder_reads_only_its_own_tables :
  forall (a : Api) (prefix : string) (v : Value) (w w' : World),
    UnmarshalText w = UnmarshalText w' ->
    customUnmarshalers (run (deref (registry a)) w)
      = customUnmarshalers (run (deref (registry a)) w') ->
    (flags (run (deref (registry a)) w) = flags (run (deref (registry a)) w') ->
     run (loadFlags_of a prefix v) w = run (loadFlags_of a prefix v) w') /\
    (environ w = environ w' ->
     envPrefix (run (deref (registry a)) w) = envPrefix (run (deref (registry a)) w') ->
     envAliases (run (deref (registry a)) w) = envAliases (run (deref (registry a)) w') ->
     envPrefix (default_t w) = envPrefix (default_t w') ->
     envAliases (default_t w) = envAliases (default_t w') ->
     customUnmarshalers (default_t w) = customUnmarshalers (default_t w') ->
     run (LoadEnv_of a prefix v) w = run (LoadEnv_of a prefix v) w').
Proof.
  intros a prefix v w w' Hum Hcu. split.
  - intros Hflags. apply loadFlags_of_agree; assumption.
  - intros Henv Hp Ha Hpt Hat Hcut. apply LoadEnv_of_agree; try assumption.
    + intros rest.
      rewrite (lookup_leaf_same_registry _ _ _ Hp Ha).
      apply run_lookup_leaf_environ, Henv.
    + intros rest.
      rewrite (lookup_leaf_same_registry _ _ _ Hpt Hat).
      apply run_lookup_leaf_environ, Henv.
Qed.

Lemma LoadFlags_does_not_look_at_the_environment :
  run (Taurus_LoadFlags own (server_cfg 80 "")) flags_and_env_world
    = run (Taurus_LoadFlags own (server_cfg 80 "")) flags_world.
Proof.
  exact (proj1 (each_binder_reads_only_its_own_tables (MethodsOf own) ""
                  (server_cfg 80 "") flags_and_env_world flags_world
                  eq_refl eq_refl) eq_refl).
Defined.

(** ** How a call can end *)

Lemma for_fields_outcome (Q : outcome -> Prop) body fields w :
  (forall field v, reads (body field v)) ->
  Forall (fun fv => forall v' res,
            run (body (fst fv) (snd fv)) w = (v', Some res) -> Q res) fields ->
  Q (Returns None) ->
  Q (snd (run (for_fields body fields) w)).
Proof.
  intros Hreads Hall Hnil. induction Hall as [|[field v] rest Hhd _ IH];
    [exact Hnil|].
  rewrite run_for_fields_cons by exact Hreads. simpl in Hhd.
  destruct (run (body field v) w) as [v' [res|]].
  - simpl. apply (Hhd v'). reflexivity.
  - destruct (run (for_fields body rest) w) as [rest' res']. exact IH.
Qed.

Lemma lookup_aliases_found p keys w key envVal :
  run (lookup_aliases p keys) w = Some (key, envVal) ->
  environ w !! key = Some envVal.
Proof.
  induction keys as [|k keys IH]; [discriminate|].
  rewrite run_lookup_aliases_cons.
  destruct (environ w !! (p +:+ "_" +:+ k)) eqn:Hk; [|exact IH].
  intros [= <- <-]. exact Hk.
Qed.

Lemma lookup_leaf_found x envKey w key envVal :
  run (lookup_leaf x envKey) w = Some (key, envVal) ->
  environ w !! key = Some envVal.
Proof.
  rewrite run_lookup_leaf. destruct (environ w !! envKey) eqn:Hk.
  - intros [= <- <-]. exact Hk.
  - apply lookup_aliases_found.
Qed.

(** An error of [LoadEnv] that names a variable which is set. *)
Lemma LoadEnv_of_outcome v :
  forall a prefix world,
    Kind_of v = Struct ->
    let res := snd (run (LoadEnv_of a prefix v) world) in
    (res = Returns None \/
     (exists key envVal cause,
        environ world !! key = Some envVal /\
        res = Returns (Some (Errorf "error setting field for %s: %v"
                               [ArgString key; ArgError cause]))) \/
     res = Interface_panic) /\
    (structs_exported v = true -> res <> Interface_panic).
Proof.
  induction v as [ty b|ty wd n|ty wd n|ty wd f|ty s|ty fields IH|ty k repr]
    using Value_nested_ind;
    intros a prefix world Hk; try discriminate;
    try (destruct wd; discriminate); try (destruct k; discriminate).
  cbv zeta. rewrite run_LoadEnv_of.
  destruct (run (for_fields (env_body a prefix) fields) world) as [fields' res]
    eqn:Hloop.
  change res with (snd (fields', res)). rewrite <- Hloop. clear Hloop.
  split.
  - apply for_fields_outcome; [apply reads_env_body| |left; reflexivity].
    eapply Forall_impl; [exact IH|]. intros [field v] IHv v' res'. simpl in *.
    rewrite run_env_body. cbv zeta.
    destruct (bool_decide (Kind_of v = Struct)) eqn:Hkv.
    + apply bool_decide_eq_true in Hkv.
      destruct (IsExported field).
      * rewrite run_return_if_err.
        specialize (IHv (below a) (envKey_in a prefix field) world Hkv).
        cbv zeta in IHv. destruct IHv as [IHv _].
        destruct (run (LoadEnv_of (below a) _ v) world) as [vr [[e|]|msg]];
          simpl in IHv; intros [= <- <-]; exact IHv.
      * intros [= <- <-]. right. right. reflexivity.
    + destruct (negb (CanSet field)); [discriminate|].
      destruct (run (lookup_leaf _ _) world) as [[key envVal]|] eqn:Hfound;
        [|discriminate].
      rewrite run_return_field_err.
      destruct (run (setField_of a field v envVal) world) as [vs [err|]];
        [|discriminate].
      intros [= <- <-]. right. left. exists key, envVal, err.
      split; [|reflexivity]. eapply lookup_leaf_found. exact Hfound.
  - intros Hexp. cbn [structs_exported] in Hexp.
    apply for_fields_outcome; [apply reads_env_body| |discriminate].
    rewrite forallb_forall in Hexp. apply Forall_forall.
    intros [field v] Hin v' res'. simpl.
    rewrite Forall_forall in IH. specialize (IH _ Hin). simpl in IH.
    apply list_elem_of_In, Hexp in Hin.
    apply andb_true_iff in Hin as [Hfield Hslot].
    rewrite run_env_body. cbv zeta.
    destruct (bool_decide (Kind_of v = Struct)) eqn:Hkv.
    + apply bool_decide_eq_true in Hkv. simpl in Hfield. rewrite Hfield.
      rewrite run_return_if_err.
      specialize (IH (below a) (envKey_in a prefix field) world Hkv).
      cbv zeta in IH. destruct IH as [_ IH]. specialize (IH Hslot).
      destruct (run (LoadEnv_of (below a) _ v) world) as [vr [[e|]|msg]];
        simpl in IH; intros [= <- <-]; [discriminate|exact IH].
    + destruct (negb (CanSet field)); [discriminate|].
      destruct (run (lookup_leaf _ _) world) as [[key envVal]|]; [|discriminate].
      rewrite run_return_field_err.
      destruct (run (setField_of a field v envVal) world) as [vs [err|]];
        [|discriminate].
      intros [= <- <-]. discriminate.
Qed.

Lemma reads_LoadEnv_of a prefix v : reads (LoadEnv_of a prefix v).
Proof. destruct a; [apply reads_Taurus_LoadEnv|apply reads_Globals_LoadEnv]. Qed.

Lemma reads_loadFlags_of a prefix v : reads (loadFlags_of a prefix v).
Proof.
  destruct a; [apply reads_Taurus_loadFlags|apply reads_Globals_LoadFlags].
Qed.

Lemma run_on_cfg bind cfg w :
  (forall v, reads (bind v)) ->
  run (on_cfg bind cfg) w =
    match cfg with
    | PtrTo v => let '(v', res) := run (bind v) w in (PtrTo v', res)
    | _ => (cfg, Returns (Some shape_error))
    end.
Proof.
  intros Hreads. destruct cfg as [|v|ty|v]; try reflexivity.
  cbn [on_cfg]. rewrite run_bind_reads by apply Hreads.
  destruct (run (bind v) w) as [v' res]. reflexivity.
Qed.

Lemma not_struct_shape_error a prefix v w :
  Kind_of v <> Struct ->
  run (LoadEnv_of a prefix v) w = (v, Returns (Some shape_error)) /\
  run (loadFlags_of a prefix v) w = (v, Returns (Some shape_error)).
Proof.
  intros Hk. rewrite run_LoadEnv_of, run_loadFlags_of.
  destruct v; try (split; reflexivity). exfalso. apply Hk. reflexivity.
Qed.

Lemma Kind_Struct_inv v : Kind_of v = Struct -> exists ty fields, v = VStruct ty fields.
Proof.
  destruct v as [ty b|ty wd n|ty wd n|ty wd f|ty s|ty fields|ty k repr];
    try discriminate; try (destruct wd; discriminate);
    try (destruct k; discriminate).
  intros _. exists ty, fields. reflexivity.
Qed.

(** X7.  The ways a call of [LoadEnv] ends.  When [cfg] is not a pointer to
    a struct (nil, a nil pointer, no pointer, a pointer to something else),
    and only then, the call returns "cfg must be a pointer to a struct", and
    [cfg] is untouched.  Otherwise it returns nil, or returns an error that
    names an environment variable that is set, or panics in
    [Value.Interface]; and it does not panic when every field of a struct
    type, at any depth, is exported. *)
Theorem LoadEnv_returns_nil_or_names_a_variable_or_panics :
  forall (a : Api) (prefix : string) (cfg cfg' : interface) (res : outcome)
         (w : World),
    run (on_cfg (LoadEnv_of a prefix) cfg) w = (cfg', res) ->
    let pointer_to_struct := exists ty fields, cfg = PtrTo (VStruct ty fields) in
    (~ pointer_to_struct -> cfg' = cfg /\ res = Returns (Some shape_error)) /\
    (res = Returns (Some shape_error) -> ~ pointer_to_struct) /\
    (pointer_to_struct ->
     res = Returns None \/
     (exists key envVal cause,
        environ w !! key = Some envVal /\
        res = Returns (Some (Errorf "error setting field for %s: %v"
                               [ArgString key; ArgError cause]))) \/
     res = Interface_panic) /\
    (forall v, cfg = PtrTo v -> structs_exported v = true ->
       forall msg, res <> Panics msg).
Proof.
  intros a prefix cfg cfg' res w. rewrite run_on_cfg by apply reads_LoadEnv_of.
  intros Hrun pointer_to_struct.
  assert (pointer_to_struct ->
          res = Returns None \/
          (exists key envVal cause,
             environ w !! key = Some envVal /\
             res = Returns (Some (Errorf "error setting field for %s: %v"
                                    [ArgString key; ArgError cause]))) \/
          res = Interface_panic) as Hstruct.
  { intros (ty & fields & ->).
    pose proof (LoadEnv_of_outcome (VStruct ty fields) a prefix w eq_refl) as H.
    cbv zeta in H. destruct H as [H _].
    destruct (run (LoadEnv_of a prefix (VStruct ty fields)) w) as [v' res'].
    injection Hrun as <- <-. exact H. }
  split; [|split; [|split]].
  - intros Hnot. destruct cfg as [|v|ty|v]; try (injection Hrun as <- <-; auto).
    destruct (decide (Kind_of v = Struct)) as [Hk|Hk].
    + exfalso. apply Hnot. apply Kind_Struct_inv in Hk as (ty & fields & ->).
      exists ty, fields. reflexivity.
    + rewrite (proj1 (not_struct_shape_error a prefix v w Hk)) in Hrun.
      injection Hrun as <- <-. auto.
  - intros -> Hp. destruct (Hstruct Hp) as [H|[(key & envVal & cause & _ & H)|H]];
      discriminate.
  - exact Hstruct.
  - intros v -> Hexp msg ->.
    destruct (decide (Kind_of v = Struct)) as [Hk|Hk].
    + pose proof (LoadEnv_of_outcome v a prefix w Hk) as H.
      cbv zeta in H. destruct H as [H Hno]. specialize (Hno Hexp).
      destruct (run (LoadEnv_of a prefix v) w) as [v' res'].
      injection Hrun as <- ->. simpl in H, Hno.
      destruct H as [H|[(key & envVal & cause & _ & H)|H]];
        [discriminate|discriminate|]. apply Hno. exact H.
    + rewrite (proj1 (not_struct_shape_error a prefix v w Hk)) in Hrun.
      discriminate.
Qed.

Lemma LoadEnv_on_a_nil_pointer :
  fst (run (on_cfg (LoadEnv "APP") (NilPtr "*main.Config")) c1_world)
    = NilPtr "*main.Config" /\
  snd (run (on_cfg (LoadEnv "APP") (NilPtr "*main.Config")) c1_world)
    = Returns (Some shape_error).
Proof.
  exact (proj1 (LoadEnv_returns_nil_or_names_a_variable_or_panics (MethodsOf t)
                  "APP" (NilPtr "*main.Config")
                  (fst (run (on_cfg (LoadEnv "APP") (NilPtr "*main.Config"))
                          c1_world))
                  (snd (run (on_cfg (LoadEnv "APP") (NilPtr "*main.Config"))
                          c1_world))
                  c1_world eq_refl)
           ltac:(intros (ty & fields & H); discriminate)).
Defined.

Lemma loadFlags_of_outcome v :
  forall a prefix world,
    Kind_of v = Struct ->
    let res := snd (run (loadFlags_of a prefix v) world) in
    let table := flags (run (deref (registry a)) world) in
    (res = Returns None \/
     (exists path fl cause,
        table !! path = Some (Some fl) /\ Changed fl = true /\
        res = Returns (Some (Errorf "error setting field for %s: %v"
                               [ArgString path; ArgError cause]))) \/
     res = Interface_panic \/
     (res = nil_dereference /\ exists path, table !! path = Some None)) /\
    (structs_exported v = true -> (forall path, table !! path <> Some None) ->
     forall msg, res <> Panics msg).
Proof.
  induction v as [ty b|ty wd n|ty wd n|ty wd f|ty s|ty fields IH|ty k repr]
    using Value_nested_ind;
    intros a prefix world Hk; try discriminate;
    try (destruct wd; discriminate); try (destruct k; discriminate).
  cbv zeta. rewrite run_loadFlags_of.
  destruct (run (for_fields (flags_body a prefix) fields) world) as [fields' res]
    eqn:Hloop.
  change res with (snd (fields', res)). rewrite <- Hloop. clear Hloop.
  split.
  - apply for_fields_outcome; [apply reads_flags_body| |left; reflexivity].
    eapply Forall_impl; [exact IH|]. intros [field v] IHv v' res'. simpl in *.
    rewrite run_flags_body. cbv zeta.
    destruct (bool_decide (Kind_of v = Struct)) eqn:Hkv.
    + apply bool_decide_eq_true in Hkv.
      destruct (IsExported field).
      * rewrite run_return_if_err.
        specialize (IHv a (fieldPath_of prefix field) world Hkv).
        cbv zeta in IHv. destruct IHv as [IHv _].
        destruct (run (loadFlags_of a _ v) world) as [vr [[e|]|msg]];
          simpl in IHv; intros [= <- <-]; exact IHv.
      * intros [= <- <-]. right. right. left. reflexivity.
    + destruct (negb (CanSet field)); [discriminate|].
      destruct (flags _ !! _) as [[fl|]|] eqn:Hentry; [| |discriminate].
      * destruct (Changed fl) eqn:Hfl; [|discriminate]. simpl negb. cbv iota.
        rewrite run_return_field_err.
        destruct (run (setField_of a field v (Value_String fl)) world)
          as [vs [err|]]; [|discriminate].
        intros [= <- <-]. right. left.
        exists (fieldPath_of prefix field), fl, err. auto.
      * intros [= <- <-]. right. right. right. split; [reflexivity|].
        exists (fieldPath_of prefix field). exact Hentry.
  - intros Hexp Hnonil. cbn [structs_exported] in Hexp.
    apply (for_fields_outcome (fun res => forall msg, res <> Panics msg));
      [apply reads_flags_body| |discriminate].
    rewrite forallb_forall in Hexp. apply Forall_forall.
    intros [field v] Hin v' res'. simpl.
    rewrite Forall_forall in IH. specialize (IH _ Hin). simpl in IH.
    apply list_elem_of_In, Hexp in Hin.
    apply andb_true_iff in Hin as [Hfield Hslot].
    rewrite run_flags_body. cbv zeta.
    destruct (bool_decide (Kind_of v = Struct)) eqn:Hkv.
    + apply bool_decide_eq_true in Hkv. simpl in Hfield. rewrite Hfield.
      rewrite run_return_if_err.
      specialize (IH a (fieldPath_of prefix field) world Hkv).
      cbv zeta in IH. destruct IH as [_ IH]. specialize (IH Hslot Hnonil).
      destruct (run (loadFlags_of a _ v) world) as [vr [[e|]|msg]];
        simpl in IH; intros [= <- <-]; [discriminate|exact IH].
    + destruct (negb (CanSet field)); [discriminate|].
      destruct (flags _ !! _) as [[fl|]|] eqn:Hentry; [| |discriminate].
      * destruct (negb (Changed fl)); [discriminate|].
        rewrite run_return_field_err.
        destruct (run (setField_of a field v (Value_String fl)) world)
          as [vs [err|]]; [|discriminate].
        intros [= <- <-]. discriminate.
      * exfalso. apply (Hnonil _ Hentry).
Qed.

(** X8.  The ways a call of [LoadFlags] ends.  When [cfg] is not a pointer
    to a struct, and only then, it returns "cfg must be a pointer to a
    struct" and [cfg] is untouched.  Otherwise it returns nil, or returns an
    error that names the path of a flag that is bound and changed, or panics
    in [Value.Interface], or panics on the nil flag some path is bound to;
    and it does not panic when every field of a struct type is exported and
    no path is bound to a nil flag. *)
Theorem LoadFlags_returns_nil_or_names_a_flag_or_panics :
  forall (a : Api) (prefix : string) (cfg cfg' : interface) (res : outcome)
         (w : World),
    run (on_cfg (loadFlags_of a prefix) cfg) w = (cfg', res) ->
    let pointer_to_struct := exists ty fields, cfg = PtrTo (VStruct ty fields) in
    let table := flags (run (deref (registry a)) w) in
    (~ pointer_to_struct -> cfg' = cfg /\ res = Returns (Some shape_error)) /\
    (res = Returns (Some shape_error) -> ~ pointer_to_struct) /\
    (pointer_to_struct ->
     res = Returns None \/
     (exists path fl cause,
        table !! path = Some (Some fl) /\ Changed fl = true /\
        res = Returns (Some (Errorf "error setting field for %s: %v"
                               [ArgString path; ArgError cause]))) \/
     res = Interface_panic \/
     (res = nil_dereference /\ exists path, table !! path = Some None)) /\
    (forall v, cfg = PtrTo v -> structs_exported v = true ->
       (forall path, table !! path <> Some None) ->
       forall msg, res <> Panics msg).
Proof.
  intros a prefix cfg cfg' res w.
  rewrite run_on_cfg by apply reads_loadFlags_of.
  intros Hrun pointer_to_struct table.
  assert (pointer_to_struct ->
          res = Returns None \/
          (exists path fl cause,
             table !! path = Some (Some fl) /\ Changed fl = true /\
             res = Returns (Some (Errorf "error setting field for %s: %v"
                                    [ArgString path; ArgError cause]))) \/
          res = Interface_panic \/
          (res = nil_dereference /\ exists path, table !! path = Some None))
    as Hstruct.
  { intros (ty & fields & ->).
    pose proof (loadFlags_of_outcome (VStruct ty fields) a prefix w eq_refl) as H.
    cbv zeta in H. destruct H as [H _].
    destruct (run (loadFlags_of a prefix (VStruct ty fields)) w) as [v' res'].
    injection Hrun as <- <-. exact H. }
  split; [|split; [|split]].
  - intros Hnot. destruct cfg as [|v|ty|v]; try (injection Hrun as <- <-; auto).
    destruct (decide (Kind_of v = Struct)) as [Hk|Hk].
    + exfalso. apply Hnot. apply Kind_Struct_inv in Hk as (ty & fields & ->).
      exists ty, fields. reflexivity.
    + rewrite (proj2 (not_struct_shape_error a prefix v w Hk)) in Hrun.
      injection Hrun as <- <-. auto.
  - intros -> Hp.
    destruct (Hstruct Hp)
      as [H|[(path & fl & cause & _ & _ & H)|[H|[H _]]]]; discriminate.
  - exact Hstruct.
  - intros v -> Hexp Hnonil msg ->.
    destruct (decide (Kind_of v = Struct)) as [Hk|Hk].
    + pose proof (loadFlags_of_outcome v a prefix w Hk) as H.
      cbv zeta in H. destruct H as [_ Hno]. specialize (Hno Hexp Hnonil msg).
      destruct (run (loadFlags_of a prefix v) w) as [v' res'].
      injection Hrun as <- ->. apply Hno. reflexivity.
    + rewrite (proj2 (not_struct_shape_error a prefix v w Hk)) in Hrun.
      discriminate.
Qed.

Lemma LoadFlags_on_nil :
  fst (run (on_cfg LoadFlags nil_interface) flags_world) = nil_interface /\
  snd (run (on_cfg LoadFlags nil_interface) flags_world)
    = Returns (Some shape_error).
Proof.
  exact (proj1 (LoadFlags_returns_nil_or_names_a_flag_or_panics (MethodsOf t)
                  "" nil_interface
                  (fst (run (on_cfg LoadFlags nil_interface) flags_world))
                  (snd (run (on_cfg LoadFlags nil_interface) flags_world))
                  flags_world eq_refl)
           ltac:(intros (ty & fields & H); discriminate)).
Defined.

(** ** Nothing to bind *)

Lemma for_fields_unchanged body fields w :
  (forall field v, reads (body field v)) ->
  Forall (fun fv => fst (run (body (fst fv) (snd fv)) w) = snd fv) fields ->
  fst (run (for_fields body fields) w) = fields.
Proof.
  intros Hreads. induction 1 as [|[field v] rest Hhd _ IH]; [reflexivity|].
  rewrite run_for_fields_cons by exact Hreads. simpl in Hhd.
  destruct (run (body field v) w) as [v' [res|]]; simpl in *; subst v';
    [reflexivity|].
  destruct (run (for_fields body rest) w) as [rest' res']. simpl in *.
  subst rest'. reflexivity.
Qed.

Lemma lookup_leaf_empty x envKey w :
  environ w = ∅ -> run (lookup_leaf x envKey) w = None.
Proof.
  intros H. rewrite run_lookup_leaf, H, lookup_empty.
  apply run_lookup_aliases_none. apply Forall_forall. intros k _.
  rewrite H. apply lookup_empty.
Qed.

Lemma LoadEnv_of_empty_environ v :
  forall a prefix world,
    environ world = ∅ ->
    fst (run (LoadEnv_of a prefix v) world) = v /\
    (Kind_of v = Struct -> structs_exported v = true ->
     snd (run (LoadEnv_of a prefix v) world) = Returns None).
Proof.
  induction v as [ty b|ty wd n|ty wd n|ty wd f|ty s|ty fields IH|ty k repr]
    using Value_nested_ind;
    intros a prefix world Henv; rewrite run_LoadEnv_of;
    try (split; [reflexivity|intros Hk; try discriminate];
         try (destruct wd; discriminate); try (destruct k; discriminate)).
  assert (Forall (fun fv => run (env_body a prefix (fst fv) (snd fv)) world
                            = (snd fv,
                               if bool_decide (Kind_of (snd fv) = Struct) then
                                 if IsExported (fst fv) then
                                   match snd (run (LoadEnv_of (below a)
                                                     (envKey_in a prefix (fst fv))
                                                     (snd fv)) world) with
                                   | Returns None => None
                                   | res => Some res
                                   end
                                 else Some Interface_panic
                               else None)) fields) as Hbody.
  { eapply Forall_impl; [exact IH|]. intros [field v] IHv. simpl in *.
    rewrite run_env_body. cbv zeta.
    destruct (bool_decide (Kind_of v = Struct)).
    - destruct (IsExported field); [|reflexivity].
      rewrite run_return_if_err.
      destruct (IHv (below a) (envKey_in a prefix field) world Henv) as [Hv _].
      destruct (run (LoadEnv_of (below a) _ v) world) as [vr [[e|]|msg]];
        simpl in Hv; subst vr; reflexivity.
    - destruct (negb (CanSet field)); [reflexivity|].
      rewrite lookup_leaf_empty by exact Henv. reflexivity. }
  destruct (run (for_fields (env_body a prefix) fields) world) as [fields' res]
    eqn:Hloop.
  split.
  - simpl. f_equal. change fields' with (fst (fields', res)). rewrite <- Hloop.
    apply for_fields_unchanged; [apply reads_env_body|].
    eapply Forall_impl; [exact Hbody|]. intros [field v] ->. reflexivity.
  - intros _ Hexp. simpl. change res with (snd (fields', res)).
    rewrite <- Hloop.
    apply (for_fields_outcome (fun res => res = Returns None));
      [apply reads_env_body| |reflexivity].
    cbn [structs_exported] in Hexp. rewrite forallb_forall in Hexp.
    apply Forall_forall. intros [field v] Hin v' res'. simpl.
    rewrite Forall_forall in IH, Hbody.
    pose proof (Hbody _ Hin) as Hb. simpl in Hb. rewrite Hb. clear Hb.
    specialize (IH _ Hin). simpl in *.
    apply list_elem_of_In, Hexp in Hin.
    apply andb_true_iff in Hin as [Hfield Hslot].
    destruct (bool_decide (Kind_of v = Struct)) eqn:Hkv; [|discriminate].
    apply bool_decide_eq_true in Hkv. simpl in Hfield. rewrite Hfield.
    destruct (IH (below a) (envKey_in a prefix field) world Henv) as [_ Hres].
    rewrite (Hres Hkv Hslot). discriminate.
Qed.

Lemma loadFlags_of_empty_table v :
  forall a prefix world,
    flags (run (deref (registry a)) world) = ∅ ->
    fst (run (loadFlags_of a prefix v) world) = v /\
    (Kind_of v = Struct -> structs_exported v = true ->
     snd (run (loadFlags_of a prefix v) world) = Returns None).
Proof.
  induction v as [ty b|ty wd n|ty wd n|ty wd f|ty s|ty fields IH|ty k repr]
    using Value_nested_ind;
    intros a prefix world Hnone; rewrite run_loadFlags_of;
    try (split; [reflexivity|intros Hk; try discriminate];
         try (destruct wd; discriminate); try (destruct k; discriminate)).
  assert (Forall (fun fv => run (flags_body a prefix (fst fv) (snd fv)) world
                            = (snd fv,
                               if bool_decide (Kind_of (snd fv) = Struct) then
                                 if IsExported (fst fv) then
                                   match snd (run (loadFlags_of a
                                                     (fieldPath_of prefix (fst fv))
                                                     (snd fv)) world) with
                                   | Returns None => None
                                   | res => Some res
                                   end
                                 else Some Interface_panic
                               else None)) fields) as Hbody.
  { eapply Forall_impl; [exact IH|]. intros [field v] IHv. simpl in *.
    rewrite run_flags_body. cbv zeta.
    destruct (bool_decide (Kind_of v = Struct)).
    - destruct (IsExported field); [|reflexivity].
      rewrite run_return_if_err.
      destruct (IHv a (fieldPath_of prefix field) world Hnone) as [Hv _].
      destruct (run (loadFlags_of a _ v) world) as [vr [[e|]|msg]];
        simpl in Hv; subst vr; reflexivity.
    - destruct (negb (CanSet field)); [reflexivity|].
      rewrite Hnone, lookup_empty. reflexivity. }
  destruct (run (for_fields (flags_body a prefix) fields) world) as [fields' res]
    eqn:Hloop.
  split.
  - simpl. f_equal. change fields' with (fst (fields', res)). rewrite <- Hloop.
    apply for_fields_unchanged; [apply reads_flags_body|].
    eapply Forall_impl; [exact Hbody|]. intros [field v] ->. reflexivity.
  - intros _ Hexp. simpl. change res with (snd (fields', res)).
    rewrite <- Hloop.
    apply (for_fields_outcome (fun res => res = Returns None));
      [apply reads_flags_body| |reflexivity].
    cbn [structs_exported] in Hexp. rewrite forallb_forall in Hexp.
    apply Forall_forall. intros [field v] Hin v' res'. simpl.
    rewrite Forall_forall in IH, Hbody.
    pose proof (Hbody _ Hin) as Hb. simpl in Hb. rewrite Hb. clear Hb.
    specialize (IH _ Hin). simpl in *.
    apply list_elem_of_In, Hexp in Hin.
    apply andb_true_iff in Hin as [Hfield Hslot].
    destruct (bool_decide (Kind_of v = Struct)) eqn:Hkv; [|discriminate].
    apply bool_decide_eq_true in Hkv. simpl in Hfield. rewrite Hfield.
    destruct (IH a (fieldPath_of prefix field) world Hnone) as [_ Hres].
    rewrite (Hres Hkv Hslot). discriminate.
Qed.

(** X9.  With nothing to bind, nothing is changed.  In an empty environment
    [LoadEnv] leaves the record exactly as it was, whatever the prefix, the
    aliases and the types of the fields; so does [LoadFlags] on a registry
    with no flag bound (as [New] makes it).  On a struct whose fields of a
    struct type are all exported both return nil. *)
Theorem with_nothing_set_the_record_is_left_as_it_was :
  forall (a : Api) (prefix : string) (v : Value) (w : World),
    (environ w = ∅ ->
     fst (run (LoadEnv_of a prefix v) w) = v /\
     (Kind_of v = Struct -> structs_exported v = true ->
      run (LoadEnv_of a prefix v) w = (v, Returns None))) /\
    (flags (run (deref (registry a)) w) = ∅ ->
     fst (run (loadFlags_of a prefix v) w) = v /\
     (Kind_of v = Struct -> structs_exported v = true ->
      run (loadFlags_of a prefix v) w = (v, Returns None))).
Proof.
  intros a prefix v w. split.
  - intros Henv.
    destruct (LoadEnv_of_empty_environ v a prefix w Henv) as [Hv Hres].
    split; [exact Hv|]. intros Hk Hexp. specialize (Hres Hk Hexp).
    destruct (run (LoadEnv_of a prefix v) w). simpl in *. congruence.
  - intros Hnone.
    destruct (loadFlags_of_empty_table v a prefix w Hnone) as [Hv Hres].
    split; [exact Hv|]. intros Hk Hexp. specialize (Hres Hk Hexp).
    destruct (run (loadFlags_of a prefix v) w). simpl in *. congruence.
Qed.

Lemma LoadFlags_on_a_new_instance :
  run (Taurus_LoadFlags own (server_cfg 80 "localhost")) c1_world
    = (server_cfg 80 "localhost", Returns None).
Proof.
  exact (proj2 (proj2 (with_nothing_set_the_record_is_left_as_it_was
                         (MethodsOf own) "" (server_cfg 80 "localhost") c1_world)
                  eq_refl) eq_refl eq_refl).
Defined.

(** ** Binding again *)

Lemma for_fields_again body fields w fields' res :
  (forall field v, reads (body field v)) ->
  Forall (fun fv => forall v1 stop,
            run (body (fst fv) (snd fv)) w = (v1, stop) ->
            run (body (fst fv) v1) w = (v1, stop)) fields ->
  run (for_fields body fields) w = (fields', res) ->
  run (for_fields body fields') w = (fields', res).
Proof.
  intros Hreads Hall. revert fields'.
  induction Hall as [|[field v] rest Hhd _ IH]; intros fields'.
  - intros [= <- <-]. reflexivity.
  - rewrite run_for_fields_cons by exact Hreads. simpl in Hhd.
    destruct (run (body field v) w) as [v1 [res1|]] eqn:Hb.
    + intros [= <- <-]. rewrite run_for_fields_cons by exact Hreads.
      rewrite (Hhd _ _ eq_refl). reflexivity.
    + destruct (run (for_fields body rest) w) as [rest' res'] eqn:Hrest.
      intros [= <- <-]. rewrite run_for_fields_cons by exact Hreads.
      rewrite (Hhd _ _ eq_refl), (IH _ eq_refl). reflexivity.
Qed.

(** The built-in conversions do not look at what the slot holds. *)
Lemma setField_switch_again v value v1 err :
  setField_switch v value = (v1, err) ->
  setField_switch v1 value = (v1, err) /\ Kind_of v1 = Kind_of v /\
  Type_of v1 = Type_of v.
Proof.
  destruct v as [ty b|ty wd n|ty wd n|ty wd f|ty s|ty fields|ty k repr];
    cbn [setField_switch].
  - destruct (strconv.ParseBool value) as [val [e|]] eqn:Hp; intros [= <- <-];
      cbn [setField_switch]; rewrite Hp; auto.
  - destruct (strconv.ParseInt value 64) as [val [e|]] eqn:Hp; intros [= <- <-];
      cbn [setField_switch]; rewrite Hp; auto.
  - destruct (strconv.ParseUint value 64) as [val [e|]] eqn:Hp; intros [= <- <-];
      cbn [setField_switch]; rewrite Hp; auto.
  - destruct (strconv.ParseFloat value 64) as [val [e|]] eqn:Hp;
      intros [= <- <-]; cbn [setField_switch]; rewrite Hp; auto.
  - intros [= <- <-]. auto.
  - intros [= <- <-]. auto.
  - intros [= <- <-]. auto.
Qed.

Lemma setField_of_again a field v value w v1 err :
  customUnmarshalers (run (deref (registry a)) w) = ∅ ->
  UnmarshalText w = ∅ ->
  run (setField_of a field v value) w = (v1, err) ->
  run (setField_of a field v1 value) w = (v1, err) /\ Kind_of v1 = Kind_of v.
Proof.
  intros Hcu Hum. rewrite !run_setField_of, !run_Taurus_setField.
  rewrite Hcu, Hum, !lookup_empty. intros H.
  apply setField_switch_again in H as (H & Hk & _). auto.
Qed.

Lemma LoadEnv_of_again v :
  forall a prefix world v' res,
    customUnmarshalers (run (deref (registry a)) world) = ∅ ->
    customUnmarshalers (default_t world) = ∅ ->
    UnmarshalText world = ∅ ->
    run (LoadEnv_of a prefix v) world = (v', res) ->
    run (LoadEnv_of a prefix v') world = (v', res).
Proof.
  induction v as [ty b|ty wd n|ty wd n|ty wd f|ty s|ty fields IH|ty k repr]
    using Value_nested_ind;
    intros a prefix world v' res Hcu Hcu_t Hum; rewrite run_LoadEnv_of;
    try (intros [= <- <-]; rewrite run_LoadEnv_of; reflexivity).
  destruct (run (for_fields (env_body a prefix) fields) world) as [fields' res']
    eqn:Hloop.
  intros [= <- <-]. rewrite run_LoadEnv_of.
  erewrite (for_fields_again _ _ _ _ _ (reads_env_body a prefix));
    [reflexivity| |exact Hloop].
  eapply Forall_impl; [exact IH|]. intros [field v] IHv v1 stop. simpl in *.
  rewrite !run_env_body. cbv zeta.
  destruct (bool_decide (Kind_of v = Struct)) eqn:Hkv.
  - destruct (IsExported field).
    + rewrite !run_return_if_err.
      destruct (run (LoadEnv_of (below a) (envKey_in a prefix field) v) world)
        as [vr resr] eqn:Hrec.
      assert (Kind_of vr = Struct) as Hkr.
      { apply bool_decide_eq_true in Hkv.
        apply Kind_Struct_inv in Hkv as (ty0 & fields0 & ->).
        rewrite run_LoadEnv_of in Hrec.
        destruct (run (for_fields _ fields0) world). injection Hrec as <- _.
        reflexivity. }
      apply (IHv (below a)) in Hrec;
        [|rewrite registry_below; exact Hcu_t|exact Hcu_t|exact Hum].
      intros H.
      assert (v1 = vr) as -> by (destruct resr as [[e|]|msg]; congruence).
      rewrite bool_decide_eq_true_2 by exact Hkr. rewrite Hrec. exact H.
    + intros [= <- <-]. rewrite Hkv. reflexivity.
  - destruct (negb (CanSet field)).
    + intros [= <- <-]. rewrite Hkv. reflexivity.
    + destruct (run (lookup_leaf _ _) world) as [[key envVal]|].
      * rewrite !run_return_field_err.
        destruct (run (setField_of a field v envVal) world) as [vs err] eqn:Hset.
        apply (setField_of_again _ _ _ _ _ _ _ Hcu Hum) in Hset as [Hset Hks].
        intros H.
        assert (v1 = vs) as -> by (destruct err; congruence).
        rewrite Hks, Hkv, Hset. exact H.
      * intros [= <- <-]. rewrite Hkv. reflexivity.
Qed.

Lemma loadFlags_of_again v :
  forall a prefix world v' res,
    customUnmarshalers (run (deref (registry a)) world) = ∅ ->
    UnmarshalText world = ∅ ->
    run (loadFlags_of a prefix v) world = (v', res) ->
    run (loadFlags_of a prefix v') world = (v', res).
Proof.
  induction v as [ty b|ty wd n|ty wd n|ty wd f|ty s|ty fields IH|ty k repr]
    using Value_nested_ind;
    intros a prefix world v' res Hcu Hum; rewrite run_loadFlags_of;
    try (intros [= <- <-]; rewrite run_loadFlags_of; reflexivity).
  destruct (run (for_fields (flags_body a prefix) fields) world)
    as [fields' res'] eqn:Hloop.
  intros [= <- <-]. rewrite run_loadFlags_of.
  erewrite (for_fields_again _ _ _ _ _ (reads_flags_body a prefix));
    [reflexivity| |exact Hloop].
  eapply Forall_impl; [exact IH|]. intros [field v] IHv v1 stop. simpl in *.
  rewrite !run_flags_body. cbv zeta.
  destruct (bool_decide (Kind_of v = Struct)) eqn:Hkv.
  - destruct (IsExported field).
    + rewrite !run_return_if_err.
      destruct (run (loadFlags_of a (fieldPath_of prefix field) v) world)
        as [vr resr] eqn:Hrec.
      assert (Kind_of vr = Struct) as Hkr.
      { apply bool_decide_eq_true in Hkv.
        apply Kind_Struct_inv in Hkv as (ty0 & fields0 & ->).
        rewrite run_loadFlags_of in Hrec.
        destruct (run (for_fields _ fields0) world). injection Hrec as <- _.
        reflexivity. }
      apply (IHv a) in Hrec; [|exact Hcu|exact Hum].
      intros H.
      assert (v1 = vr) as -> by (destruct resr as [[e|]|msg]; congruence).
      rewrite bool_decide_eq_true_2 by exact Hkr. rewrite Hrec. exact H.
    + intros [= <- <-]. rewrite Hkv. reflexivity.
  - destruct (negb (CanSet field)).
    + intros [= <- <-]. rewrite Hkv. reflexivity.
    + destruct (flags _ !! _) as [[fl|]|].
      * destruct (negb (Changed fl)).
        -- intros [= <- <-]. rewrite Hkv. reflexivity.
        -- rewrite !run_return_field_err.
           destruct (run (setField_of a field v (Value_String fl)) world)
             as [vs err] eqn:Hset.
           apply (setField_of_again _ _ _ _ _ _ _ Hcu Hum) in Hset as [Hset Hks].
           intros H.
           assert (v1 = vs) as -> by (destruct err; congruence).
           rewrite Hks, Hkv, Hset. exact H.
      * intros [= <- <-]. rewrite Hkv. reflexivity.
      * intros [= <- <-]. rewrite Hkv. reflexivity.
Qed.

(** X10.  Binding twice is binding once.  With no custom unmarshaler
    registered and no type with an [UnmarshalText], calling [LoadEnv] again
    on the record a first call left, in the same state, leaves that record as
    it is and ends as the first call did: with nil, with the same error at
    the same key, or with the same panic.  The same holds of [LoadFlags]. *)
Theorem binding_twice_is_binding_once :
  forall (a : Api) (prefix : string) (v v' : Value) (res : outcome) (w : World),
    customUnmarshalers (run (deref (registry a)) w) = ∅ ->
    customUnmarshalers (default_t w) = ∅ ->
    UnmarshalText w = ∅ ->
    (run (LoadEnv_of a prefix v) w = (v', res) ->
     run (LoadEnv_of a prefix v') w = (v', res)) /\
    (run (loadFlags_of a prefix v) w = (v', res) ->
     run (loadFlags_of a prefix v') w = (v', res)).
Proof.
  intros a prefix v v' res w Hcu Hcu_t Hum. split.
  - apply LoadEnv_of_again; assumption.
  - apply loadFlags_of_again; assumption.
Qed.

Lemma second_call_fails_at_B_again :
  run (Taurus_LoadEnv own "APP" (abc_cfg 1 0 0)) abc_world =
    (abc_cfg 1 0 0,
     Returns (Some (Errorf "error setting field for %s: %v"
                      [ArgString "APP_B";
                       ArgError (Errorf "invalid int: %v"
                                   [ArgError (strconv.syntaxError "ParseInt" "x")])]))).
Proof.
  exact (proj1 (binding_twice_is_binding_once (MethodsOf own) "APP"
                  (abc_cfg 0 0 0) (abc_cfg 1 0 0) _ abc_world
                  eq_refl eq_refl eq_refl) eq_refl).
Defined.

(** ** Registering, then binding *)

Lemma run_deref_own w : run (deref own) w = instance w.
Proof. reflexivity. Qed.

(** X11.  A registered custom unmarshaler is the conversion of every field
    of its type, built-in kinds included, on the instance it was registered
    on: after [RegisterUnmarshaler] on [r] for the type [T], [setField] on
    [r] converts a field of type [T] with the function just registered and
    fields of other types as before, [setField] on another instance is as
    before, and a second registration for [T] replaces the first.  Called
    with a nil [*Taurus] the function panics on the nil pointer, and no
    instance is changed.  [RegisterCustomUnmarshaler] of the earlier revision
    is the registration on the package-level table. *)
Theorem a_registered_unmarshaler_converts_the_fields_of_its_type :
  forall (r : Ref) (T : string) (u : Unmarshaler) (field : StructField)
         (v : Value) (value : string) (w : World),
    let w1 := snd (RegisterUnmarshaler r T u w) in
    (Type_of v = T ->
     run (Taurus_setField r field v value) w1 =
       unmarshal_with u "failed to unmarshal custom field: %v" v value) /\
    (Type_of v <> T ->
     run (Taurus_setField r field v value) w1
       = run (Taurus_setField r field v value) w) /\
    (forall r', r' <> r ->
       run (Taurus_setField r' field v value) w1
         = run (Taurus_setField r' field v value) w) /\
    (forall u0,
       snd (RegisterUnmarshaler r T u (snd (RegisterUnmarshaler r T u0 w))) = w1) /\
    RegisterUnmarshaler_on (Some r) T u w = (Returns None, w1) /\
    RegisterUnmarshaler_on None T u w = (nil_dereference, w) /\
    Globals.RegisterCustomUnmarshaler T u w = RegisterUnmarshaler t T u w.
Proof.
  intros r T u field v value w w1. subst w1.
  split; [|split; [|split; [|split; [|split; [|split]]]]].
  - intros <-. rewrite run_Taurus_setField.
    destruct r; simpl; rewrite lookup_insert_eq; reflexivity.
  - intros Hne. rewrite !run_Taurus_setField.
    destruct r; simpl; rewrite lookup_insert_ne by congruence; reflexivity.
  - intros r' Hne. rewrite !run_Taurus_setField.
    destruct r, r'; try (exfalso; apply Hne; reflexivity); reflexivity.
  - intros u0. destruct r; unfold RegisterUnmarshaler, mbind, M_bind, deref, store;
      simpl; rewrite insert_insert_eq; reflexivity.
  - destruct r; reflexivity.
  - reflexivity.
  - reflexivity.
Qed.

Lemma an_unmarshaler_for_string_replaces_the_identity :
  run (Taurus_setField t (exported "Level") (VString "main.Level" "") "debug")
      (snd (RegisterUnmarshaler t "main.Level" Level_custom world0))
  = (VString "main.Level" "custom:debug", None).
Proof.
  exact (proj1 (a_registered_unmarshaler_converts_the_fields_of_its_type t
                  "main.Level" Level_custom (exported "Level")
                  (VString "main.Level" "") "debug" world0) eq_refl).
Defined.

(** X12.  [BindEnvAlias] adds to the aliases of a key, after those bound
    before: binding [first] and then [second] leaves the key with the
    aliases it had, then [first], then [second], in this order, which is the
    state one call with [first ++ second] leaves.  The aliases of the other
    keys, the rest of the registry, the other instance and the environment
    are as before.  [BindEnvAlias] of the earlier revision is the same
    function of the package-level table. *)
Theorem BindEnvAlias_appends_to_the_aliases_of_the_key :
  forall (r : Ref) (fieldPath : string) (first second : list string) (w : World),
    let x := run (deref r) w in
    let w1 := snd (Taurus_BindEnvAlias r fieldPath first w) in
    let w2 := snd (Taurus_BindEnvAlias r fieldPath second w1) in
    let x2 := run (deref r) w2 in
    envAliases x2 !! fieldPath
      = Some (default [] (envAliases x !! fieldPath) ++ first ++ second) /\
    w2 = snd (Taurus_BindEnvAlias r fieldPath (first ++ second) w) /\
    (forall other, other <> fieldPath ->
       envAliases x2 !! other = envAliases x !! other) /\
    (envPrefix x2, expandEnv x2, flags x2, customMarshalers x2,
     customUnmarshalers x2)
      = (envPrefix x, expandEnv x, flags x, customMarshalers x,
         customUnmarshalers x) /\
    (forall r', r' <> r -> run (deref r') w2 = run (deref r') w) /\
    (environ w2, UnmarshalText w2) = (environ w, UnmarshalText w) /\
    Globals.BindEnvAlias fieldPath first w = BindEnvAlias fieldPath first w.
Proof.
  intros r fieldPath first second w x w1 w2 x2. subst x w1 w2 x2.
  split; [|split; [|split; [|split; [|split; [|split]]]]].
  - destruct r; simpl; rewrite !lookup_insert_eq; simpl;
      rewrite app_assoc; reflexivity.
  - destruct r; unfold Taurus_BindEnvAlias, mbind, M_bind, deref, store; simpl;
      rewrite lookup_insert_eq, insert_insert_eq; simpl; rewrite app_assoc;
      reflexivity.
  - intros other Hne.
    destruct r; simpl; rewrite !lookup_insert_ne by congruence; reflexivity.
  - destruct r; reflexivity.
  - intros r' Hne.
    destruct r, r'; try (exfalso; apply Hne; reflexivity); reflexivity.
  - destruct r; reflexivity.
  - reflexivity.
Qed.

(** X13.  [BindFlag] replaces: after binding a flag to a path, the flag
    table holds that flag for the path, whatever was bound to it before, and
    what it held for the other paths; the rest of the registry, the other
    instance and the environment are as before.  A nil flag is stored like
    any other, and [LoadFlags] then panics on it when it reaches a settable
    leaf with that path: the fields before the leaf keep what they were
    assigned, the leaf and the fields after it are left as they were. *)
Theorem BindFlag_replaces_the_flag_of_the_path :
  forall (r : Ref) (fieldPath : string) (flag : option Flag) (w : World),
    let x := run (deref r) w in
    let w1 := snd (Taurus_BindFlag r fieldPath flag w) in
    let x1 := run (deref r) w1 in
    flags x1 !! fieldPath = Some flag /\
    (forall before,
       snd (Taurus_BindFlag r fieldPath flag
              (snd (Taurus_BindFlag r fieldPath before w))) = w1) /\
    (forall other, other <> fieldPath -> flags x1 !! other = flags x !! other) /\
    (envPrefix x1, expandEnv x1, envAliases x1, customMarshalers x1,
     customUnmarshalers x1)
      = (envPrefix x, expandEnv x, envAliases x, customMarshalers x,
         customUnmarshalers x) /\
    (forall r', r' <> r -> run (deref r') w1 = run (deref r') w) /\
    (environ w1, UnmarshalText w1) = (environ w, UnmarshalText w) /\
    (flag = None ->
     forall prefix ty pre post pre' field v,
       run (Taurus_loadFlags r prefix (VStruct ty pre)) w1
         = (VStruct ty pre', Returns None) ->
       Kind_of v <> Struct -> CanSet field = true ->
       fieldPath_of prefix field = fieldPath ->
       run (Taurus_loadFlags r prefix (VStruct ty (pre ++ (field, v) :: post))) w1
         = (VStruct ty (pre' ++ (field, v) :: post), nil_dereference)) /\
    Globals.BindFlag fieldPath flag w = BindFlag fieldPath flag w.
Proof.
  intros r fieldPath flag w x w1 x1.
  assert (flags x1 !! fieldPath = Some flag) as Hflag
    by (subst x1 w1; destruct r; simpl; apply lookup_insert_eq).
  split; [exact Hflag|]. subst x w1 x1.
  split; [|split; [|split; [|split; [|split; [|split]]]]].
  - intros before. destruct r; unfold Taurus_BindFlag, mbind, M_bind, deref, store;
      simpl; rewrite insert_insert_eq; reflexivity.
  - intros other Hne.
    destruct r; simpl; rewrite !lookup_insert_ne by congruence; reflexivity.
  - destruct r; reflexivity.
  - intros r' Hne.
    destruct r, r'; try (exfalso; apply Hne; reflexivity); reflexivity.
  - destruct r; reflexivity.
  - intros -> prefix ty pre post pre' field v Hpre Hleaf Hset Hpath.
    change (Taurus_loadFlags r) with (loadFlags_of (MethodsOf r)) in *.
    rewrite (loadFlags_of_at (MethodsOf r) _ _ _ _ _ _ _ _ Hpre). cbv zeta.
    rewrite bool_decide_eq_false_2 by exact Hleaf.
    rewrite Hset, Hpath. simpl registry. rewrite Hflag. reflexivity.
  - reflexivity.
Qed.

Lemma two_calls_of_BindEnvAlias :
  envAliases
    (default_t (snd (BindEnvAlias "HOST" ["HOSTNAME"]
                       (snd (BindEnvAlias "HOST" ["SERVICE_HOST"] world0)))))
    !! "HOST"
  = Some ["SERVICE_HOST"; "HOSTNAME"].
Proof.
  exact (proj1 (BindEnvAlias_appends_to_the_aliases_of_the_key t "HOST"
                  ["SERVICE_HOST"] ["HOSTNAME"] world0)).
Defined.

Lemma LoadFlags_panics_on_a_nil_flag :
  run (Taurus_loadFlags t "" (port_cfg 0)) (snd (BindFlag "Port" None world0))
    = (port_cfg 0, nil_dereference).
Proof.
  exact (proj1 (proj2 (proj2 (proj2 (proj2 (proj2 (proj2
           (BindFlag_replaces_the_flag_of_the_path t "Port" None world0)))))))
           eq_refl "" "main.Config" [] [] [] (exported "Port")
           (VInt "int" WInt 0) eq_refl ltac:(discriminate) eq_refl eq_refl).
Defined.

(** ** Loading a document *)

(** X14.  [LoadFile] and [Load], whatever [os.ReadFile], [os.Expand] and
    [yaml.Unmarshal] do.  When the file cannot be read, [LoadFile] returns
    "failed to read config file" around the error of the read, and [cfg] is
    not touched; otherwise it is [Load] on the content.  [Load] hands the
    text to [yaml.Unmarshal] as it is when the expand-env setting of its
    receiver is off, whatever the environment holds, and with the variables
    expanded from the environment (unset ones being empty) when it is on;
    it returns nil exactly when the decoder does, and its error otherwise is
    "failed to unmarshal config data" around that of the decoder.  Neither
    changes the registries.  The setting is the one the last [SetExpandEnv]
    on the receiver left. *)
Theorem LoadFile_reads_then_Load_expands_then_decodes :
  forall (yaml_Unmarshal : string -> interface -> interface * option error)
         (os_Expand : string -> (string -> string) -> string)
         (os_ReadFile : string -> string * option error)
         (r : Ref) (configFilePath : string) (cfg : interface) (w : World),
    let LoadFile := Taurus_LoadFile yaml_Unmarshal os_Expand os_ReadFile r in
    let Load := Taurus_Load yaml_Unmarshal os_Expand r in
    let getenv w key := default "" (environ w !! key) in
    let decoded data :=
      (fst (yaml_Unmarshal data cfg),
       Returns ((fun e => Errorf "failed to unmarshal config data: %w"
                            [ArgError e]) <$> snd (yaml_Unmarshal data cfg))) in
    (forall configData err,
       os_ReadFile configFilePath = (configData, Some err) ->
       LoadFile configFilePath cfg w =
         (cfg, Returns (Some (Errorf "failed to read config file: %w"
                                [ArgError err])), w)) /\
    (forall configData,
       os_ReadFile configFilePath = (configData, None) ->
       LoadFile configFilePath cfg w = Load configData cfg w) /\
    (forall configData,
       expandEnv (run (deref r) w) = false ->
       Load configData cfg w = (decoded configData, w)) /\
    (forall configData,
       expandEnv (run (deref r) w) = true ->
       Load configData cfg w = (decoded (os_Expand configData (getenv w)), w)) /\
    (forall configData,
       snd (run (Load configData cfg) w) = Returns None <->
       snd (yaml_Unmarshal
              (if expandEnv (run (deref r) w)
               then os_Expand configData (getenv w) else configData) cfg)
         = None) /\
    (forall expand,
       expandEnv (run (deref r) (snd (Taurus_SetExpandEnv r expand w))) = expand) /\
    (r = t ->
     Globals.LoadFile yaml_Unmarshal os_Expand os_ReadFile configFilePath cfg w
       = LoadFile configFilePath cfg w).
Proof.
  intros yaml_Unmarshal os_Expand os_ReadFile r configFilePath cfg w
    LoadFile Load getenv decoded.
  subst LoadFile Load getenv decoded. cbv beta.
  assert (forall configData,
            Taurus_Load yaml_Unmarshal os_Expand r configData cfg w =
              let data :=
                if expandEnv (run (deref r) w)
                then os_Expand configData (fun key => default "" (environ w !! key))
                else configData in
              (fst (yaml_Unmarshal data cfg),
               Returns ((fun e => Errorf "failed to unmarshal config data: %w"
                                    [ArgError e]) <$> snd (yaml_Unmarshal data cfg)),
               w)) as HLoad.
  { intros configData. unfold Taurus_Load, mbind, M_bind, deref, os_ExpandEnv, run.
    simpl. destruct (expandEnv _); simpl;
      destruct (yaml_Unmarshal _ cfg) as [cfg' err]; reflexivity. }
  split; [|split; [|split; [|split; [|split; [|split]]]]].
  - intros configData err Hread. unfold Taurus_LoadFile. rewrite Hread.
    reflexivity.
  - intros configData Hread. unfold Taurus_LoadFile. rewrite Hread.
    reflexivity.
  - intros configData Hoff. rewrite HLoad, Hoff. reflexivity.
  - intros configData Hon. rewrite HLoad, Hon. reflexivity.
  - intros configData. unfold run at 1. rewrite HLoad. cbv zeta. simpl.
    destruct (snd (yaml_Unmarshal _ cfg)); simpl; split; congruence.
  - intros expand. destruct r; reflexivity.
  - intros ->. unfold Globals.LoadFile, Taurus_LoadFile.
    destruct (os_ReadFile configFilePath) as [configData [err|]]; reflexivity.
Qed.

Lemma LoadFile_on_a_missing_file :
  Taurus_LoadFile (fun _ cfg => (cfg, None)) (fun s _ => s)
    (fun _ => ("", Some (errors_New "open config.yaml: no such file or directory")))
    own "config.yaml" (PtrTo (port_cfg 0)) world0
  = (PtrTo (port_cfg 0),
     Returns (Some (Errorf "failed to read config file: %w"
                      [ArgError (errors_New "open config.yaml: no such file or directory")])),
     world0).
Proof.
  exact (proj1 (LoadFile_reads_then_Load_expands_then_decodes
                  (fun _ cfg => (cfg, None)) (fun s _ => s)
                  (fun _ => ("", Some (errors_New "open config.yaml: no such file or directory")))
                  own "config.yaml" (PtrTo (port_cfg 0)) world0)
           "" (errors_New "open config.yaml: no such file or directory") eq_refl).
Defined.

(** ** Unsigned integers and floating-point numbers *)

Lemma wrap_uint_small w n : 0 <= n <= 2 ^ bits w - 1 -> wrap_uint w n = n.
Proof. intros H. unfold wrap_uint. apply Z.mod_small. lia. Qed.

Lemma ParseUint_narrow w s n :
  strconv.ParseUint s (bits w) = (n, None) ->
  strconv.ParseUint s 64 = (n, None) /\ wrap_uint w n = n.
Proof.
  unfold strconv.ParseUint.
  destruct (strconv.parseUint s (bits w)) as [un [isRange|]] eqn:Hun;
    [discriminate|].
  intros [= <-]. apply parseUint_narrow in Hun as [-> Hrange].
  split; [reflexivity|]. apply wrap_uint_small, Hrange.
Qed.

Lemma ParseUint_sign c rest bitSize :
  c = "-"%char \/ c = "+"%char ->
  strconv.ParseUint (String c rest) bitSize
    = (0, Some (strconv.syntaxError "ParseUint" (String c rest))).
Proof. intros [-> | ->]; reflexivity. Qed.

(** X15.  On an unsigned integer field of any width whose type has neither
    a custom unmarshaler nor an [UnmarshalText], the text is parsed as a
    base-10 [uint64] and the value is narrowed to the width of the field.  A
    text that is valid for the field's own type is stored as that type
    parses it; any other text that is a valid [uint64] is stored reduced
    modulo two to the width, and no error is returned; the call fails, with
    "invalid uint" and the parse error, exactly when the text is no valid
    [uint64], the slot being left as it was.  A text with a sign, plus or
    minus, is such a text. *)
Theorem uint_parsed_at_64_bits_then_narrowed :
  forall (a : Api) (field : StructField) (ty : string) (w : Width) (old : Z)
         (s : string) (world : World),
    customUnmarshalers (run (deref (registry a)) world) !! ty = None ->
    UnmarshalText world !! ty = None ->
    let res := run (setField_of a field (VUint ty w old) s) world in
    (forall n, strconv.ParseUint s (bits w) = (n, None) ->
       res = (VUint ty w n, None)) /\
    (forall n, strconv.ParseUint s 64 = (n, None) ->
       res = (VUint ty w (n mod 2 ^ bits w), None)) /\
    (forall n err, strconv.ParseUint s 64 = (n, Some err) ->
       res = (VUint ty w old, Some (Errorf "invalid uint: %v" [ArgError err]))) /\
    (forall c rest, s = String c rest -> c = "-"%char \/ c = "+"%char ->
       res = (VUint ty w old,
              Some (Errorf "invalid uint: %v"
                      [ArgError (strconv.syntaxError "ParseUint" s)]))).
Proof.
  intros a field ty w old s world Hcustom Hnative res. subst res.
  rewrite run_setField_of, run_Taurus_setField. simpl Type_of.
  rewrite Hcustom, Hnative.
  unfold setField_switch. split; [|split; [|split]].
  - intros n Hn. apply ParseUint_narrow in Hn as [-> ->]. reflexivity.
  - intros n ->. reflexivity.
  - intros n err ->. reflexivity.
  - intros c rest -> Hc. rewrite (ParseUint_sign c rest 64 Hc). reflexivity.
Qed.

Lemma uint8_256_is_stored_as_0 :
  run (Taurus_setField t (exported "Retries") (VUint "uint8" W8 7) "256") world0
  = (VUint "uint8" W8 0, None).
Proof.
  exact (proj1 (proj2 (uint_parsed_at_64_bits_then_narrowed (MethodsOf t)
                         (exported "Retries") "uint8" W8 7 "256" world0
                         eq_refl eq_refl))
           256 eq_refl).
Defined.

(** X16.  On a floating-point field whose type has neither a custom
    unmarshaler nor an [UnmarshalText], the text is parsed as a [float64];
    a [float64] field holds that value, a [float32] field that value rounded
    again to single precision; the call fails, with "invalid float" and the
    parse error, exactly when the text is no valid [float64].  So a
    [float32] field can hold another number than parsing the text as a
    [float32] gives (the decimal below lies just above the middle of 1 and
    the next [float32]: parsed directly it is rounded up, parsed as a
    [float64] it becomes the middle, which is then rounded down to 1), and a
    text past the range of [float32] ("1e39", a range error when parsed as a
    [float32]) is stored as an infinity with no error. *)
Theorem float32_field_is_rounded_twice :
  forall (a : Api) (field : StructField) (ty : string) (w : FloatWidth)
         (old : spec_float) (s : string) (world : World),
    customUnmarshalers (run (deref (registry a)) world) !! ty = None ->
    UnmarshalText world !! ty = None ->
    let res := run (setField_of a field (VFloat ty w old) s) world in
    (forall x, strconv.ParseFloat s 64 = (x, None) ->
       res = (VFloat ty w (match w with
                           | F32 => strconv.float32_of x
                           | F64 => x
                           end), None)) /\
    (forall x err, strconv.ParseFloat s 64 = (x, Some err) ->
       res = (VFloat ty w old, Some (Errorf "invalid float: %v" [ArgError err]))) /\
    (s = "1.000000059604644775390625000001" -> w = F32 ->
     res = (VFloat ty w (S754_finite false 8388608 (-23)), None) /\
     strconv.ParseFloat s 32 = (S754_finite false 8388609 (-23), None)) /\
    (s = "1e39" -> w = F32 ->
     res = (VFloat ty w (S754_infinity false), None) /\
     strconv.ParseFloat s 32
       = (S754_infinity false, Some (strconv.rangeError "ParseFloat" s))).
Proof.
  intros a field ty w old s world Hcustom Hnative res. subst res.
  rewrite run_setField_of, run_Taurus_setField. simpl Type_of.
  rewrite Hcustom, Hnative.
  unfold setField_switch. split; [|split; [|split]].
  - intros x ->. reflexivity.
  - intros x err ->. reflexivity.
  - intros -> ->. split; vm_compute; reflexivity.
  - intros -> ->. split; vm_compute; reflexivity.
Qed.

Lemma float32_just_above_a_midpoint :
  run (Taurus_setField t (exported "Ratio") (VFloat "float32" F32 (S754_zero false))
         "1.000000059604644775390625000001") world0
    = (VFloat "float32" F32 (S754_finite false 8388608 (-23)), None) /\
  strconv.ParseFloat "1.000000059604644775390625000001" 32
    = (S754_finite false 8388609 (-23), None).
Proof.
  exact (proj1 (proj2 (proj2 (float32_field_is_rounded_twice (MethodsOf t)
                                (exported "Ratio") "float32" F32
                                (S754_zero false)
                                "1.000000059604644775390625000001" world0
                                eq_refl eq_refl)))
           eq_refl eq_refl).
Defined.

(** ** The environment, then the flags *)

(** Two slots of the same type get the same value from the same text. *)
Lemma setField_switch_same_type s s1 text s2 :
  Kind_of s1 = Kind_of s -> Type_of s1 = Type_of s ->
  setField_switch s1 text = (s2, None) ->
  setField_switch s text = (s2, None).
Proof.
  destruct s as [ty b|ty wd n|ty wd n|ty wd f|ty str|ty fields|ty k repr],
    s1 as [ty1 b1|ty1 wd1 n1|ty1 wd1 n1|ty1 wd1 f1|ty1 str1|ty1 fields1|ty1 k1 repr1];
    intros Hk Ht; simpl in Ht; subst ty1;
    try (exfalso; revert Hk; clear;
         repeat match goal with
                | x : Width |- _ => destruct x
                | x : FloatWidth |- _ => destruct x
                | x : OtherKind |- _ => destruct x
                end; discriminate);
    try (assert (wd1 = wd) as ->
           by (revert Hk; clear; destruct wd, wd1; try discriminate; reflexivity));
    cbn [setField_switch].
  - destruct (strconv.ParseBool text) as [val [e|]]; [discriminate|].
    exact (fun H => H).
  - destruct (strconv.ParseInt text 64) as [val [e|]]; [discriminate|].
    exact (fun H => H).
  - destruct (strconv.ParseUint text 64) as [val [e|]]; [discriminate|].
    exact (fun H => H).
  - destruct (strconv.ParseFloat text 64) as [val [e|]]; [discriminate|].
    exact (fun H => H).
  - exact (fun H => H).
  - discriminate.
  - discriminate.
Qed.

(** Without custom conversions [LoadEnv] leaves every field where it is,
    with its descriptor, its kind and its type. *)
Lemma LoadEnv_of_keeps_types idx :
  forall a v prefix w v1 res fp path field slot,
    customUnmarshalers (run (deref (registry a)) w) = ∅ ->
    customUnmarshalers (default_t w) = ∅ ->
    UnmarshalText w = ∅ ->
    run (LoadEnv_of a prefix v) w = (v1, res) ->
    field_at fieldPath_of fp v idx = Some (path, field, slot) ->
    exists slot1,
      field_at fieldPath_of fp v1 idx = Some (path, field, slot1) /\
      Kind_of slot1 = Kind_of slot /\ Type_of slot1 = Type_of slot.
Proof.
  induction idx as [|i idx' IH];
    intros a v prefix w v1 res fp path field slot Hcu Hcu_t Hum;
    [discriminate|].
  cbn [field_at].
  destruct (fields_of v !! i) as [[f0 v0]|] eqn:Hi; [|discriminate].
  destruct v as [| | | | |ty fields|]; cbn [fields_of] in Hi;
    try (rewrite lookup_nil in Hi; discriminate).
  rewrite run_LoadEnv_of.
  destruct (run (for_fields (env_body a prefix) fields) w) as [fields' res']
    eqn:Hloop.
  destruct (for_fields_lookup _ (reads_env_body a prefix)
              (env_body_stop a prefix) _ _ _ _ _ _ _ Hloop Hi)
    as (v0' & Hi' & Hv0' & _).
  rewrite run_env_body in Hv0'. cbv zeta in Hv0'.
  intros [= <- <-] Hat. cbn [fields_of]. rewrite Hi'.
  destruct (run (LoadEnv_of (below a) (envKey_in a prefix f0) v0) w)
    as [v0r resr] eqn:Hrec.
  assert (Kind_of v0' = Kind_of v0 /\ Type_of v0' = Type_of v0 /\
          (Kind_of v0 = Struct -> v0' = v0 \/ v0' = v0r)) as (Hk & Ht & Hs).
  { destruct Hv0' as [->| ->]; [auto|].
    destruct (bool_decide (Kind_of v0 = Struct)) eqn:Hkv.
    - apply bool_decide_eq_true in Hkv.
      destruct (IsExported f0); [|auto].
      rewrite run_return_if_err.
      assert (fst (match resr with
                   | Returns None => (v0r, None)
                   | _ => (v0r, Some resr)
                   end) = v0r) as -> by (destruct resr as [[e|]|msg]; reflexivity).
      apply Kind_Struct_inv in Hkv as (ty0 & fields0 & ->).
      rewrite run_LoadEnv_of in Hrec.
      destruct (run (for_fields _ fields0) w). injection Hrec as <- _. auto.
    - apply bool_decide_eq_false in Hkv.
      split; [|split; [|intros H; exfalso; apply Hkv, H]];
        (destruct (negb (CanSet f0)); [reflexivity|]);
        (destruct (run (lookup_leaf _ _) w) as [[key envVal]|]; [|reflexivity]);
        rewrite run_return_field_err, run_setField_of, run_Taurus_setField;
        rewrite Hcu, Hum, !lookup_empty;
        destruct (setField_switch v0 envVal) as [vs err] eqn:Hset;
        apply setField_switch_again in Hset as (_ & Hks & Hts);
        destruct err; simpl; assumption. }
  destruct idx' as [|j idx''].
  - injection Hat as <- <- <-. exists v0'. auto.
  - assert (Kind_of v0 = Struct) as Hkv.
    { destruct v0; try (cbn in Hat; rewrite lookup_nil in Hat; discriminate).
      reflexivity. }
    destruct (Hs Hkv) as [->| ->].
    + exists slot. auto.
    + apply (IH (below a) v0 (envKey_in a prefix f0) w v0r resr
               (fieldPath_of fp f0) path field slot); try assumption.
      rewrite registry_below. exact Hcu_t.
Qed.

(** X17.  A changed flag wins over the environment.  When [LoadEnv] and
    then [LoadFlags] are called on a record and [LoadFlags] returns nil,
    every settable leaf whose flag path is bound to a changed flag holds
    what the built-in conversion makes of the value of the flag, whatever
    [LoadEnv] had stored in it from the environment, and however [LoadEnv]
    ended (no custom unmarshaler being registered and no type having an
    [UnmarshalText]). *)
Theorem a_changed_flag_wins_over_the_environment :
  forall (a : Api) (prefix : string) (v v1 v2 : Value) (res : outcome)
         (w : World) (idx : list nat) (path : string) (field : StructField)
         (slot : Value) (fl : Flag),
    customUnmarshalers (run (deref (registry a)) w) = ∅ ->
    customUnmarshalers (default_t w) = ∅ ->
    UnmarshalText w = ∅ ->
    run (LoadEnv_of a prefix v) w = (v1, res) ->
    run (loadFlags_of a "" v1) w = (v2, Returns None) ->
    field_at fieldPath_of "" v idx = Some (path, field, slot) ->
    Kind_of slot <> Struct -> CanSet field = true ->
    flags (run (deref (registry a)) w) !! path = Some (Some fl) ->
    Changed fl = true ->
    exists slot2,
      field_at fieldPath_of "" v2 idx = Some (path, field, slot2) /\
      setField_switch slot (Value_String fl) = (slot2, None).
Proof.
  intros a prefix v v1 v2 res w idx path field slot fl Hcu Hcu_t Hum Henv
    Hflags Hat Hleaf Hset Hentry Hfl.
  destruct (LoadEnv_of_keeps_types idx a v prefix w v1 res "" path field slot
              Hcu Hcu_t Hum Henv Hat) as (slot1 & Hat1 & Hk1 & Ht1).
  assert (Kind_of slot1 <> Struct) as Hleaf1 by (rewrite Hk1; exact Hleaf).
  destruct (flags_at_path a idx v1 "" w v2 (Returns None) path field slot1
              Hat1 Hleaf1 Hflags) as [_ Hbound].
  destruct (Hbound fl Hentry Hfl Hset eq_refl) as (slot2 & Hconv & Hat2).
  exists slot2. split; [exact Hat2|].
  rewrite run_setField_of, run_Taurus_setField in Hconv.
  rewrite Hcu, Hum, !lookup_empty in Hconv.
  apply (setField_switch_same_type slot slot1 _ slot2 Hk1 Ht1 Hconv).
Qed.

Lemma the_flag_9090_wins_over_APP_SERVER_PORT :
  exists slot2,
    field_at fieldPath_of "" (server_cfg 9090 "") [0; 0]%nat
      = Some ("Server.Port", exported "Port", slot2) /\
    setField_switch (VInt "int" WInt 0) "9090" = (slot2, None).
Proof.
  exact (a_changed_flag_wins_over_the_environment (MethodsOf t) "APP"
           (server_cfg 0 "") (server_cfg 8080 "") (server_cfg 9090 "")
           (Returns None) env_and_flag_world [0; 0]%nat "Server.Port"
           (exported "Port") (VInt "int" WInt 0)
           {| Changed := true; Value_String := "9090" |}
           eq_refl eq_refl eq_refl eq_refl eq_refl eq_refl
           ltac:(discriminate) eq_refl eq_refl eq_refl).
Defined.

(** ** The table of the marshalers *)

(** X18.  The custom marshalers are stored and never read: registering a
    marshaler for a type, on any instance, puts it in the table of that
    instance and leaves [LoadEnv], [LoadFlags] and [setField] of every
    instance doing exactly what they did.  Called with a nil [*Taurus] the
    function panics on the nil pointer and no instance is changed.
    [RegisterCustomMarshaler] of the earlier revision is the registration on
    the package-level table. *)
Theorem registering_a_marshaler_changes_no_binding :
  forall (r : Ref) (T : string) (marshaler : Marshaler) (a : Api)
         (prefix : string) (v : Value) (field : StructField) (slot : Value)
         (value : string) (w : World),
    let w1 := snd (RegisterMarshaler r T marshaler w) in
    customMarshalers (run (deref r) w1) !! T = Some marshaler /\
    run (LoadEnv_of a prefix v) w1 = run (LoadEnv_of a prefix v) w /\
    run (loadFlags_of a prefix v) w1 = run (loadFlags_of a prefix v) w /\
    run (setField_of a field slot value) w1
      = run (setField_of a field slot value) w /\
    RegisterMarshaler_on (Some r) T marshaler w = (Returns None, w1) /\
    RegisterMarshaler_on None T marshaler w = (nil_dereference, w) /\
    Globals.RegisterCustomMarshaler T marshaler w = RegisterMarshaler t T marshaler w.
Proof.
  intros r T marshaler a prefix v field slot value w w1. subst w1.
  split; [|split; [|split; [|split; [|split; [|split]]]]].
  - destruct r; simpl; apply lookup_insert_eq.
  - apply LoadEnv_of_agree; try (destruct r, a as [[|]|]; reflexivity);
      intros rest;
      [rewrite (lookup_leaf_same_registry
                  (run (deref (registry a)) (snd (RegisterMarshaler r T marshaler w)))
                  (run (deref (registry a)) w))
         by (destruct r, a as [[|]|]; reflexivity)
      |rewrite (lookup_leaf_same_registry
                  (default_t (snd (RegisterMarshaler r T marshaler w)))
                  (default_t w))
         by (destruct r; reflexivity)];
      apply run_lookup_leaf_environ; destruct r; reflexivity.
  - apply loadFlags_of_agree; destruct r, a as [[|]|]; reflexivity.
  - rewrite !run_setField_of, !run_Taurus_setField.
    destruct r, a as [[|]|]; reflexivity.
  - destruct r; reflexivity.
  - reflexivity.
  - reflexivity.
Qed.
